(** * Wheel_Finder: a shallow embedding of the ingestion and ranking pipeline

    The development follows the four Python sources of the repository:

    - [Toyota_Official.py]: [fill_cars] (record segmentation and
      normalisation to seven slots), [parse_car_details] (classification
      of a seven-slot group into the attribute dictionary) and the table
      of parsed cars;
    - [Honda_Official.py]: [find_unique_models] (one link for each model)
      and [scrape_car_data] (the fields read off the link and the page
      text with ordered regular expressions and plausibility bounds);
    - [Rec_Generator.py]: the concatenation of the two brand tables, the
      two MPG columns read off the MPG text and the derivation of the
      [Size] column from [Body Type];
    - [WheelFinder.py]: [generate_recs], the weighted ranking.

    Conventions.  Python [str] is [string] (bytes, so ASCII text).  A Python
    [dict] is a [gmap string _].  A pandas float64 cell is a [cell], that is
    [option Q]: [None] is NaN, the missing-value marker, and arithmetic on
    present values is exact rational arithmetic; every operation returns NaN
    as soon as one operand is NaN, as IEEE arithmetic does.  A pandas
    [Series] is the list of its cells in row order. *)

From Stdlib Require Import Ascii String QArith Qabs Qminmax Lqa Sorting.Sorted.
From stdpp Require Import gmap strings list sorting.

Open Scope string_scope.
Open Scope list_scope.

(** ** Strings *)

Module Str.

(** [needle in hay] on Python strings. *)
Fixpoint contains (needle hay : string) : bool :=
  if String.prefix needle hay then true
  else match hay with
       | EmptyString => false
       | String _ rest => contains needle rest
       end.

(** [any(keyword in text for keyword in keywords)]. *)
Definition any_in (keywords : list string) (text : string) : bool :=
  existsb (fun keyword => contains keyword text) keywords.

Definition is_digit (a : ascii) : bool :=
  let n := Ascii.nat_of_ascii a in (48 <=? n)%nat && (n <=? 57)%nat.

Definition is_lower (a : ascii) : bool :=
  let n := Ascii.nat_of_ascii a in (97 <=? n)%nat && (n <=? 122)%nat.

Definition is_upper (a : ascii) : bool :=
  let n := Ascii.nat_of_ascii a in (65 <=? n)%nat && (n <=? 90)%nat.

Definition upper_ascii (a : ascii) : ascii :=
  if is_lower a then Ascii.ascii_of_nat (Ascii.nat_of_ascii a - 32) else a.

Definition lower_ascii (a : ascii) : ascii :=
  if is_upper a then Ascii.ascii_of_nat (Ascii.nat_of_ascii a + 32) else a.

(** [text.upper()]. *)
Fixpoint upper (s : string) : string :=
  match s with
  | EmptyString => EmptyString
  | String a rest => String (upper_ascii a) (upper rest)
  end.

Fixpoint all_digits (s : string) : bool :=
  match s with
  | EmptyString => true
  | String a rest => is_digit a && all_digits rest
  end.

(** [text.isdigit()]: at least one character, all of them digits. *)
Definition isdigit (s : string) : bool :=
  match s with
  | EmptyString => false
  | _ => all_digits s
  end.

End Str.

(** ** Toyota_Official.py *)

Module Toyota.

(** What the code observes of a [div.details-value] element:
    [tag.find("span")] (absent, or a span with its optional [type]
    attribute), [tag.text], and [tag.get_text(strip=True)]. *)
Record tag := Tag {
  find_span : option (option string);
  text : string;
  get_text_strip : string
}.

(** An element of a cleaned car: a tag, or the string ['NA']. *)
Inductive slot :=
| Frag (t : tag)
| NA.

Definition EXPECTED_FIELDS_PER_CAR : nat := 7.

(** [span and "ddoa-interior-color" in (span.get("type") or "")]. *)
Definition interior_color_span (span : option (option string)) : bool :=
  match span with
  | Some type => Str.contains "ddoa-interior-color" (default "" type)
  | None => false
  end.

(** The value of [is_start] for [tag], given the car being accumulated. *)
Definition is_start (current_car : list tag) (tag : tag) : bool :=
  if interior_color_span (find_span tag) then true
  else
    negb (bool_decide (current_car = []))
    && (EXPECTED_FIELDS_PER_CAR <=? length current_car)%nat
    && (Str.contains "Car" (text tag) || Str.contains "Utility" (text tag)
        || Str.contains "Mini-van" (text tag)
        || Str.contains "CrewMax" (text tag)).

(** [if current_car: cars.append(current_car)]. *)
Definition flush (cars : list (list tag)) (current_car : list tag)
  : list (list tag) :=
  match current_car with
  | [] => cars
  | _ => cars ++ [current_car]
  end.

(** The first loop of [fill_cars], with its two accumulators. *)
Fixpoint group_tags (result_list : list tag)
    (cars : list (list tag)) (current_car : list tag) : list (list tag) :=
  match result_list with
  | [] => flush cars current_car
  | tag :: rest =>
      if is_start current_car tag
      then group_tags rest (flush cars current_car) [tag]
      else group_tags rest cars (current_car ++ [tag])
  end.

(** The body of the second loop of [fill_cars], for one car. *)
Definition clean (car : list tag) : list slot :=
  if (length car <? 7)%nat
  then (Frag <$> take (length car) car) ++ replicate (7 - length car) NA
  else if (7 <? length car)%nat
  then Frag <$> take 7 car
  else Frag <$> car.

Definition fill_cars (result_list : list tag) : list (list slot) :=
  clean <$> group_tags result_list [] [].

(** The text [parse_car_details] works on: [tag.get_text(strip=True)] for
    a tag, [str(tag).strip()] for the string ['NA']. *)
Definition slot_text (s : slot) : string :=
  match s with
  | Frag t => get_text_strip t
  | NA => "NA"
  end.

(** The span test of [parse_car_details]; a [str] has no [get]. *)
Definition slot_interior_color (s : slot) : bool :=
  match s with
  | Frag t => interior_color_span (find_span t)
  | NA => false
  end.

Definition body_keywords : list string :=
  ["Car"; "Utility"; "Mini-van"; "XtraCab"; "CrewMax"; "Double Cab"].
Definition drive_keywords : list string :=
  ["Wheel Drive"; "All Wheel"; "Four Wheel"; "Front Wheel"; "Rear Wheel"].
Definition engine_keywords : list string :=
  ["Engine"; "Motor"; "Hybrid"; "Turbo"; "Cyl"].

Definition initial_dict : gmap string string :=
  <["Interior Color" := "NA"]>
  (<["Body Type" := "NA"]>
  (<["Drive Type" := "NA"]>
  (<["MPG" := "NA"]>
  (<["Engine" := "NA"]>
  (<["Transmission" := "NA"]>
  (<["Model Code" := "NA"]> ∅)))))).

(** One iteration of the loop of [parse_car_details].  The body-type test
    falls through to the later tests when the slot is already filled. *)
Definition parse_tag (car_dict : gmap string string) (tag : slot)
  : gmap string string :=
  let text := slot_text tag in
  if slot_interior_color tag then <["Interior Color" := text]> car_dict
  else if Str.any_in body_keywords text
          && bool_decide (car_dict !! "Body Type" = Some "NA")
  then <["Body Type" := text]> car_dict
  else if Str.any_in drive_keywords text
  then <["Drive Type" := text]> car_dict
  else if Str.contains "/" text && Str.contains "EPA" (Str.upper text)
  then <["MPG" := text]> car_dict
  else if Str.any_in engine_keywords text
          && negb (Str.contains "Transmission" text)
  then <["Engine" := text]> car_dict
  else if Str.contains "Transmission" text
  then <["Transmission" := text]> car_dict
  else if Str.isdigit text
  then <["Model Code" := text]> car_dict
  else car_dict.

(** The key [parse_tag] assigns to, if any: the same chain of tests, read
    for its target. *)
Definition field_of (car_dict : gmap string string) (tag : slot)
  : option string :=
  let text := slot_text tag in
  if slot_interior_color tag then Some "Interior Color"
  else if Str.any_in body_keywords text
          && bool_decide (car_dict !! "Body Type" = Some "NA")
  then Some "Body Type"
  else if Str.any_in drive_keywords text then Some "Drive Type"
  else if Str.contains "/" text && Str.contains "EPA" (Str.upper text)
  then Some "MPG"
  else if Str.any_in engine_keywords text
          && negb (Str.contains "Transmission" text)
  then Some "Engine"
  else if Str.contains "Transmission" text then Some "Transmission"
  else if Str.isdigit text then Some "Model Code"
  else None.

Definition parse_tags (car_dict : gmap string string) (car_tags : list slot)
  : gmap string string :=
  foldl parse_tag car_dict car_tags.

Definition parse_car_details (car_tags : list slot) : gmap string string :=
  parse_tags initial_dict car_tags.

(** *** Sample streams *)

(** A fragment without a span, and one whose span marks the interior
    colour. *)
Definition detail (s : string) : tag := Tag None s s.
Definition interior (s : string) : tag :=
  Tag (Some (Some "ddoa-interior-color")) s s.

(** A stream of two cars: the first has nine fragments, the second only
    two. *)
Definition nine_then_two : list tag :=
  [interior "Black"; detail "a"; detail "b"; detail "c"; detail "d";
   detail "e"; detail "f"; detail "g"; detail "h";
   interior "Gray"; detail "i"].

(** A stream of two drive-type fragments, and the group [fill_cars] makes
    of it. *)
Definition two_drives : list tag :=
  [detail "Front Wheel Drive"; detail "All Wheel Drive"].

Definition two_drive_types : list slot :=
  [Frag (detail "Front Wheel Drive"); Frag (detail "All Wheel Drive");
   NA; NA; NA; NA; NA].

End Toyota.

(** ** Honda_Official.py *)

(** The part of Python's [re] that the price patterns of [scrape_car_data]
    use: sequences of character classes, greedy [*] and [+] over a class,
    and one capturing group.  Matching backtracks as [re] does, and
    [search] returns group 1 of the leftmost match. *)
Module Re.

Inductive item :=
| One (c : ascii → bool)
| Rep (c : ascii → bool)
| GOpen
| GClose.

Definition pattern := list item.

(** The group being captured (last character first) and whether the group
    is open. *)
Record mstate := MState { captured : list ascii; recording : bool }.

Definition push (a : ascii) (st : mstate) : mstate :=
  if recording st then MState (a :: captured st) true else st.

Fixpoint run (p : pattern) (s : list ascii) (st : mstate)
  : option (list ascii) :=
  match p with
  | [] => Some (rev (captured st))
  | One c :: p' =>
      match s with
      | a :: s' => if c a then run p' s' (push a st) else None
      | [] => None
      end
  | Rep c :: p' =>
      (fix rep (s : list ascii) (st : mstate) : option (list ascii) :=
         match s with
         | a :: s' =>
             if c a
             then match rep s' (push a st) with
                  | Some g => Some g
                  | None => run p' s st
                  end
             else run p' s st
         | [] => run p' [] st
         end) s st
  | GOpen :: p' => run p' s (MState [] true)
  | GClose :: p' => run p' s (MState (captured st) false)
  end.

Fixpoint search_from (p : pattern) (s : list ascii) : option (list ascii) :=
  match run p s (MState [] false) with
  | Some g => Some g
  | None =>
      match s with
      | [] => None
      | _ :: s' => search_from p s'
      end
  end.

(** [re.search(pattern, text, re.IGNORECASE)], then [.group(1)]. *)
Definition search (p : pattern) (text : string) : option string :=
  string_of_list_ascii <$> search_from p (list_ascii_of_string text).

(** A literal character under [re.IGNORECASE]. *)
Definition chr (c : ascii) : ascii → bool :=
  fun a => bool_decide (Str.lower_ascii a = Str.lower_ascii c).

(** [\d]. *)
Definition digit : ascii → bool := Str.is_digit.

(** [\s]: the ASCII characters Python counts as white space. *)
Definition space : ascii → bool :=
  fun a => let n := nat_of_ascii a in
           ((9 <=? n) && (n <=? 13) || (28 <=? n) && (n <=? 32))%nat.

Definition either (c d : ascii → bool) : ascii → bool :=
  fun a => c a || d a.

Definition lit (s : string) : pattern :=
  (fun c => One (chr c)) <$> list_ascii_of_string s.

Definition plus (c : ascii → bool) : pattern := [One c; Rep c].

Definition group (p : pattern) : pattern := GOpen :: p ++ [GClose].

End Re.

Module Honda.

(** A value stored in [car_data]: a string, or the float that [float]
    makes of a string of digits (its value is the integer read). *)
Inductive value :=
| VStr (s : string)
| VFloat (z : Z).

(** The double quote character. *)
Definition quote : ascii := ascii_of_nat 34.

(** [[\d,]] and [[:\s]]. *)
Definition digit_or_comma : ascii → bool := Re.either Re.digit (Re.chr ",").
Definition colon_or_space : ascii → bool := Re.either (Re.chr ":") Re.space.

(** [price_patterns], in the order of the source:
    [PRICE[:\s]+\$\s*([\d,]+)], [\$\s*([\d,]+)\s*MSRP],
    ["price"[:\s]+(\d+)] and [>\s*\$\s*([\d,]+)\s*<]. *)
Definition price_patterns : list Re.pattern :=
  [ Re.lit "PRICE" ++ Re.plus colon_or_space ++ Re.lit "$"
      ++ [Re.Rep Re.space] ++ Re.group (Re.plus digit_or_comma);
    Re.lit "$" ++ [Re.Rep Re.space] ++ Re.group (Re.plus digit_or_comma)
      ++ [Re.Rep Re.space] ++ Re.lit "MSRP";
    [Re.One (Re.chr quote)] ++ Re.lit "price" ++ [Re.One (Re.chr quote)]
      ++ Re.plus colon_or_space ++ Re.group (Re.plus Re.digit);
    Re.lit ">" ++ [Re.Rep Re.space] ++ Re.lit "$" ++ [Re.Rep Re.space]
      ++ Re.group (Re.plus digit_or_comma) ++ [Re.Rep Re.space] ++ Re.lit "<" ].

(** [price_match.group(1).replace(',', '')]. *)
Fixpoint remove_commas (s : string) : string :=
  match s with
  | EmptyString => EmptyString
  | String a rest =>
      if Ascii.eqb a "," then remove_commas rest
      else String a (remove_commas rest)
  end.

Fixpoint digits_value (acc : Z) (s : string) : option Z :=
  match s with
  | EmptyString => Some acc
  | String a rest =>
      if Str.is_digit a
      then digits_value (10 * acc + (Z.of_nat (nat_of_ascii a) - 48)) rest
      else None
  end.

(** [float(price_str)] on what group 1 can hold once the commas are gone:
    a string of digits gives its value, and the empty string raises
    [ValueError] ([None]), which the loop catches. *)
Definition float (price_str : string) : option Z :=
  match price_str with
  | EmptyString => None
  | _ => digits_value 0 price_str
  end.

(** The price loop of [scrape_car_data]: [break] returns, every other path
    goes on with the remaining patterns. *)
Fixpoint price_loop (patterns : list Re.pattern) (page_text : string)
    (car_data : gmap string value) : gmap string value :=
  match patterns with
  | [] => car_data
  | pattern :: rest =>
      match Re.search pattern page_text with
      | Some group1 =>
          let price_str := remove_commas group1 in
          match float price_str with
          | Some price =>
              if (10000 <=? price)%Z && (price <=? 200000)%Z
              then <["Price" := VFloat price]> car_data
              else price_loop rest page_text car_data
          | None => price_loop rest page_text car_data
          end
      | None => price_loop rest page_text car_data
      end
  end.

(** The value the loop parses for one pattern, when the pattern matches and
    [float] succeeds. *)
Definition parsed_price (pattern : Re.pattern) (page_text : string)
  : option Z :=
  match Re.search pattern page_text with
  | Some group1 => float (remove_commas group1)
  | None => None
  end.

(** The plausibility bound of the price loop. *)
Definition plausible (price : Z) : Prop := (10000 ≤ price ≤ 200000)%Z.

(** *** Sample pages *)

(** A page on which the first pattern reads 5000 (rejected) and the second
    reads 31250 (accepted), and a page with an implausible price only. *)
Definition two_prices : string :=
  "<p>PRICE: $5,000 down</p><b>$ 31,250 MSRP</b>".
Definition low_price : string := "<span>Price: $ 9,999</span>".

End Honda.

(** ** pandas: float64 cells and Series *)

Module Pandas.

(** A float64 cell: [None] is NaN. *)
Abbreviation cell := (option Q) (only parsing).
Abbreviation NaN := (@None Q) (only parsing).

Definition lift1 (f : Q → Q) (x : cell) : cell := f <$> x.

Definition lift2 (f : Q → Q → Q) (x y : cell) : cell :=
  match x, y with
  | Some a, Some b => Some (f a b)
  | _, _ => NaN
  end.

Definition add : cell → cell → cell := lift2 Qplus.
Definition sub : cell → cell → cell := lift2 Qminus.
Definition mul : cell → cell → cell := lift2 Qmult.
Definition div : cell → cell → cell := lift2 Qdiv.

(** [x > 0]: false on NaN. *)
Definition gt0 (x : cell) : bool :=
  match x with
  | Some a => match (0 ?= a)%Q with Lt => true | _ => false end
  | None => false
  end.

(** Equality of cells as numbers. *)
Definition cell_eq (x y : cell) : Prop :=
  match x, y with
  | Some a, Some b => (a == b)%Q
  | None, None => True
  | _, _ => False
  end.

(** [abs(s)], [s - x], [s / x], [1 - s], [s * x], [s + t], [s + x] on a
    Series [s], a scalar [x] and a Series [t] on the same index. *)
Definition sabs (s : list cell) : list cell := lift1 Qabs <$> s.
Definition ssub_scalar (s : list cell) (x : cell) : list cell :=
  (fun c => sub c x) <$> s.
Definition sdiv_scalar (s : list cell) (x : cell) : list cell :=
  (fun c => div c x) <$> s.
Definition rsub_scalar (x : cell) (s : list cell) : list cell :=
  (fun c => sub x c) <$> s.
Definition smul_scalar (s : list cell) (x : cell) : list cell :=
  (fun c => mul c x) <$> s.
Definition sadd (s t : list cell) : list cell := zip_with add s t.
Definition sadd_scalar (s : list cell) (x : cell) : list cell :=
  (fun c => add c x) <$> s.

(** [s.max()], which skips NaN; NaN when no cell is present. *)
Definition max_skipna (acc x : cell) : cell :=
  match acc, x with
  | Some a, Some b => Some (Qmax a b)
  | None, _ => x
  | _, None => acc
  end.

Definition smax (s : list cell) : cell := foldl max_skipna NaN s.

(** The cells of a row that are present ([skipna=True]). *)
Definition present (cells : list cell) : list Q := omap id cells.

Definition qsum (l : list Q) : Q := foldl Qplus 0%Q l.

(** One row of [df[[...]].mean(axis=1)]: the mean of the cells that are
    present, NaN when none is. *)
Definition row_mean (cells : list cell) : cell :=
  match present cells with
  | [] => NaN
  | qs => Some (qsum qs / inject_Z (Z.of_nat (length qs)))%Q
  end.

End Pandas.

(** ** Rec_Generator.py *)

Module RecGenerator.
Import Pandas.

(** A row of [Honda.csv] or [Toyota.csv]; both have these columns. *)
Record listing := Listing {
  Model : option string;
  Brand : option string;
  Year : cell;
  Transmission : option string;
  Price : cell;
  Body_Type : option string;
  MPG : option string;
  Engine : option string
}.

(** [pd.concat(frames, ignore_index=True)] on frames with the same columns:
    the rows of the frames one after the other, renumbered from 0. *)
Definition pd_concat (frames : list (list listing)) : list listing :=
  concat frames.

Definition combined_df (Honda Toyota : list listing) : list listing :=
  pd_concat [Honda; Toyota].

Definition bodytype_to_seats : gmap string Z :=
  list_to_map
    [("Sedan", 5%Z); ("Sport Utility", 5%Z); ("Passenger Van", 12%Z);
     ("Crew Cab", 5%Z); ("Hatchback", 5%Z); ("4dr Car", 5%Z);
     ("Double Cab", 5%Z); ("XtraCab", 4%Z); ("CrewMax", 5%Z);
     ("Mini-van, Passenger", 7%Z); ("2dr Car", 4%Z)].

(** [Series.map(d)] for a dict [d]: a value that is not a key of [d]
    (a missing value included) maps to NaN. *)
Definition series_map (d : gmap string Z) (s : list (option string))
  : list cell :=
  (fun v => match v with
            | Some k => inject_Z <$> d !! k
            | None => NaN
            end) <$> s.

(** [combined_df["Size"] = combined_df["Body Type"].map(bodytype_to_seats)]:
    the new column. *)
Definition Size (df : list listing) : list cell :=
  series_map bodytype_to_seats (Body_Type <$> df).

(** *** Sample rows *)

Definition sedan : listing :=
  Listing (Some "Camry") (Some "Toyota") (Some 2025%Q) (Some "Automatic")
    (Some 29000%Q) (Some "Sedan") (Some "28 / 39") (Some "2.5L").
Definition coupe : listing :=
  Listing (Some "Civic") (Some "Honda") (Some 2025%Q) None
    (Some 27000%Q) (Some "2D Coupe") (Some "30 / 38") (Some "Gasoline").

End RecGenerator.

(** ** WheelFinder.py *)

Module WheelFinder.
Import Pandas.

(** A row of the inventory read from [Wheelfinder_Inventory.csv]. *)
Record car := Car {
  Model : option string;
  Brand : option string;
  Year : cell;
  Price : cell;
  CTY_MPG : cell;
  HWAY_MPG : cell;
  Size : cell
}.

(** A row of the working copy [df]: its index label (the position in the
    inventory), the inventory columns and ['Avg MPG']. *)
Record row := Row { label : nat; data : car; Avg_MPG : cell }.

(** A row together with its ['Score']. *)
Record scored := Scored { this : row; Score : cell }.

(** The result: its column labels and its rows, numbered from 0. *)
Record DataFrame := Frame { columns : list string; records : list car }.

(** [df = df.copy(); df['Avg MPG'] = df[['CTY MPG', 'HWAY MPG']].mean(axis=1)]. *)
Definition with_avg_mpg (df : list car) : list row :=
  imap (fun i r => Row i r (row_mean [CTY_MPG r; HWAY_MPG r])) df.

(** One cell of [df['Brand'].isin(brand_pref)]. *)
Definition isin (brand : option string) (brand_pref : list string) : bool :=
  match brand with
  | Some b => bool_decide (b ∈ brand_pref)
  | None => false
  end.

(** [if brand_pref: df = df[df['Brand'].isin(brand_pref)]]. *)
Definition filter_brand (brand_pref : list string) (df : list row)
  : list row :=
  match brand_pref with
  | [] => df
  | _ => List.filter (fun r => isin (Brand (data r)) brand_pref) df
  end.

Definition of_int (n : Z) : cell := Some (inject_Z n).

Definition price_step (df : list row) (price_pref : Q) (price_weight : Z)
    (Score : list cell) : list cell :=
  if (0 <? price_weight)%Z then
    let price_diff :=
      sabs (ssub_scalar (Price ∘ data <$> df) (Some price_pref)) in
    let max_diff := smax price_diff in
    if gt0 max_diff then
      let price_score := rsub_scalar (of_int 1) (sdiv_scalar price_diff max_diff) in
      sadd Score (smul_scalar price_score (of_int price_weight))
    else Score
  else Score.

Definition mpg_step (df : list row) (mpg_pref : Q) (mpg_weight : Z)
    (Score : list cell) : list cell :=
  if (0 <? mpg_weight)%Z then
    let mpg_diff := sabs (ssub_scalar (Avg_MPG <$> df) (Some mpg_pref)) in
    let max_diff := smax mpg_diff in
    if gt0 max_diff then
      let mpg_score := rsub_scalar (of_int 1) (sdiv_scalar mpg_diff max_diff) in
      sadd Score (smul_scalar mpg_score (of_int mpg_weight))
    else Score
  else Score.

Definition size_step (df : list row) (size_pref : Q) (size_weight : Z)
    (Score : list cell) : list cell :=
  if (0 <? size_weight)%Z then
    let size_diff :=
      sabs (ssub_scalar (Size ∘ data <$> df) (Some size_pref)) in
    let max_diff := smax size_diff in
    if gt0 max_diff then
      let size_score := rsub_scalar (of_int 1) (sdiv_scalar size_diff max_diff) in
      sadd Score (smul_scalar size_score (of_int size_weight))
    else sadd_scalar Score (of_int size_weight)
  else Score.

(** The ['Score'] column, from [df['Score'] = 0.0] through the three
    blocks. *)
Definition score_column (df : list row)
    (price_pref : Q) (price_weight : Z) (mpg_pref : Q) (mpg_weight : Z)
    (size_pref : Q) (size_weight : Z) : list cell :=
  size_step df size_pref size_weight
    (mpg_step df mpg_pref mpg_weight
       (price_step df price_pref price_weight
          (replicate (length df) (Some 0%Q)))).

Definition has_score (r : scored) : bool := bool_decide (is_Some (Score r)).

(** [x <= y] on scores; only used on rows that have a score. *)
Definition score_le (x y : cell) : bool :=
  match x, y with
  | Some a, Some b => Qle_bool a b
  | _, _ => false
  end.

(** Stable sort by ['Score'], largest first: a row goes in front of the
    first row whose score is not larger than its own, so rows with equal
    scores keep their order. *)
Fixpoint insert_desc (x : scored) (sorted : list scored) : list scored :=
  match sorted with
  | [] => [x]
  | y :: rest =>
      if score_le (Score y) (Score x) then x :: sorted
      else y :: insert_desc x rest
  end.

Definition sort_desc (l : list scored) : list scored :=
  foldr insert_desc [] l.

(** A second stable sort, by a key of the row labels, smallest key
    first. *)
Fixpoint insert_by (tie : nat → nat) (x : scored) (sorted : list scored)
  : list scored :=
  match sorted with
  | [] => [x]
  | y :: rest =>
      if (tie (label (this x)) <=? tie (label (this y)))%nat
      then x :: sorted
      else y :: insert_by tie x rest
  end.

Definition arrange (tie : nat → nat) (l : list scored) : list scored :=
  foldr (insert_by tie) [] l.

(** [Series.sort_values(ascending=False)] on rows that have a score.  The
    sort is made with pandas' default algorithm, quicksort, which is not
    stable: larger scores come first, and rows with equal scores come in
    an order that the algorithm is free to choose.  [tie] stands for that
    choice: of two rows with equal scores the one with the smaller
    [tie (label)] comes first, and the earlier one when these are equal
    too.  Every order of the rows that puts larger scores first is the
    result for some [tie] (lemma [sort_values_any]). *)
Definition sort_values (tie : nat → nat) (l : list scored) : list scored :=
  sort_desc (arrange tie l).

(** [df.nlargest(n, 'Score')] (pandas, [keep='first']), cut to [n] rows.
    When the frame has more than [n] rows, the rows that have a score come
    largest first and in their original order among equals.  When it has
    [n] rows or fewer, pandas takes [sort_values(ascending=False).head(n)]
    instead, where the order among equals is the choice [tie] of the
    sort.  Either way the rows whose score is NaN follow, in their original
    order. *)
Definition nlargest (tie : nat → nat) (n : nat) (df : list scored)
  : list scored :=
  let dropped := List.filter has_score df in
  let nan_index := List.filter (negb ∘ has_score) df in
  if (length df <=? n)%nat
  then take n (sort_values tie dropped ++ nan_index)
  else take n (sort_desc dropped ++ nan_index).

Definition out_columns : list string :=
  ["Model"; "Brand"; "Year"; "Price"; "CTY MPG"; "HWAY MPG"; "Size"].

(** [df] after the brand filter. *)
Definition filtered (df : list car) (brand_pref : list string) : list row :=
  filter_brand brand_pref (with_avg_mpg df).

(** [df] with its ['Score'] column, just before [nlargest]. *)
Definition scored_frame (df : list car) (brand_pref : list string)
    (price_pref : Q) (price_weight : Z) (mpg_pref : Q) (mpg_weight : Z)
    (size_pref : Q) (size_weight : Z) : list scored :=
  let df := filtered df brand_pref in
  zip_with Scored df
    (score_column df price_pref price_weight mpg_pref mpg_weight
       size_pref size_weight).

(** [df.nlargest(5, 'Score')], before the projection to the output
    columns. *)
Definition top_5 (tie : nat → nat) (df : list car)
    (brand_pref : list string)
    (price_pref : Q) (price_weight : Z) (mpg_pref : Q) (mpg_weight : Z)
    (size_pref : Q) (size_weight : Z) : list scored :=
  nlargest tie 5 (scored_frame df brand_pref price_pref price_weight
                mpg_pref mpg_weight size_pref size_weight).

(** [generate_recs(df, brand_pref, ...)]; [tie] is the choice that the
    sort inside [nlargest] makes among equal scores. *)
Definition generate_recs (tie : nat → nat) (df : list car)
    (brand_pref : list string)
    (price_pref : Q) (price_weight : Z) (mpg_pref : Q) (mpg_weight : Z)
    (size_pref : Q) (size_weight : Z) : DataFrame :=
  match filtered df brand_pref with
  | [] => Frame [] []
  | _ =>
      Frame out_columns
        (data ∘ this <$> top_5 tie df brand_pref price_pref price_weight
                           mpg_pref mpg_weight size_pref size_weight)
  end.

(** *** The three blocks, criterion by criterion *)

Inductive criterion := price | mpg | size.

(** The column a block reads. *)
Definition column (c : criterion) (r : row) : cell :=
  match c with
  | price => Price (data r)
  | mpg => Avg_MPG r
  | size => Size (data r)
  end.

(** The block of a criterion. *)
Definition step (c : criterion)
  : list row → Q → Z → list cell → list cell :=
  match c with
  | price => price_step
  | mpg => mpg_step
  | size => size_step
  end.

(** [abs(df[column] - pref)] and its [max()]. *)
Definition diffs (c : criterion) (df : list row) (pref : Q) : list cell :=
  sabs (ssub_scalar (column c <$> df) (Some pref)).

Definition max_diff (c : criterion) (df : list row) (pref : Q) : cell :=
  smax (diffs c df pref).

(** What a block does to the score [s] of the row [r] (the blocks are
    shown to act row by row in this way in [step_rowwise]). *)
Definition apply_step (c : criterion) (df : list row) (pref : Q)
    (weight : Z) (r : row) (s : cell) : cell :=
  if (0 <? weight)%Z then
    if gt0 (max_diff c df pref) then
      add s (mul (sub (of_int 1)
                    (div (lift1 Qabs (sub (column c r) (Some pref)))
                         (max_diff c df pref)))
               (of_int weight))
    else match c with
         | size => add s (of_int weight)
         | _ => s
         end
  else s.

(** The total score of a row of [df]. *)
Definition total (df : list row)
    (price_pref : Q) (price_weight : Z) (mpg_pref : Q) (mpg_weight : Z)
    (size_pref : Q) (size_weight : Z) (r : row) : cell :=
  apply_step size df size_pref size_weight r
    (apply_step mpg df mpg_pref mpg_weight r
       (apply_step price df price_pref price_weight r (Some 0%Q))).

(** The weight and the target of a criterion among the arguments of
    [generate_recs]. *)
Definition weight_of (price_weight mpg_weight size_weight : Z)
    (c : criterion) : Z :=
  match c with
  | price => price_weight
  | mpg => mpg_weight
  | size => size_weight
  end.

Definition pref_of (price_pref mpg_pref size_pref : Q) (c : criterion) : Q :=
  match c with
  | price => price_pref
  | mpg => mpg_pref
  | size => size_pref
  end.

(** *** Ranking order *)

(** Rows in the order of their index labels. *)
Definition label_lt (a b : row) : Prop := (label a < label b)%nat.

(** [a] is ranked before [b]: a larger score, or the same score and an
    earlier place in the inventory. *)
Definition ranks_before (a b : scored) : Prop :=
  match Score a, Score b with
  | Some x, Some y =>
      (y < x)%Q ∨ ((x == y)%Q ∧ (label (this a) < label (this b))%nat)
  | _, _ => False
  end.

(** The score of [a] is at least the score of [b]. *)
Definition score_ge (a b : scored) : Prop :=
  match Score a, Score b with
  | Some x, Some y => (y <= x)%Q
  | _, _ => False
  end.

(** Two choices of the sort among equal scores: the order of the
    inventory, and its reverse on the first four rows. *)
Definition keeps_order (label : nat) : nat := 0.
Definition later_first (label : nat) : nat := 3 - label.

(** *** Sample inventories *)

(** An inventory of one car whose highway figure is missing. *)
Definition city_only : list car :=
  [Car (Some "Civic") (Some "Honda") (Some 2025%Q) (Some 27000%Q)
     (Some 30%Q) NaN (Some 5%Q)].

(** An inventory of two brands. *)
Definition two_cars : list car :=
  [Car (Some "Civic") (Some "Honda") (Some 2025%Q) (Some 20000%Q)
     (Some 30%Q) (Some 38%Q) (Some 5%Q);
   Car (Some "Camry") (Some "Toyota") (Some 2025%Q) (Some 40000%Q)
     (Some 25%Q) (Some 35%Q) (Some 5%Q)].

(** Six cars that differ in model and price only; some prices occur
    twice. *)
Definition honda (model : string) (p : Q) : car :=
  Car (Some model) (Some "Honda") (Some 2025%Q) (Some p)
    (Some 30%Q) (Some 38%Q) (Some 5%Q).

Definition six_cars : list car :=
  [honda "Civic" 20000; honda "Accord" 25000; honda "CR-V" 30000;
   honda "HR-V" 25000; honda "Pilot" 40000; honda "Fit" 20000].

(** Four cars, two at each of two prices. *)
Definition four_cars : list car :=
  [honda "Civic" 20000; honda "Fit" 20000; honda "Accord" 25000;
   honda "HR-V" 25000].

(** The same inventory behind a car whose price is missing. *)
Definition unpriced_first : list car :=
  Car (Some "Prologue") (Some "Honda") (Some 2025%Q) NaN
    (Some 30%Q) (Some 38%Q) (Some 5%Q) :: six_cars.

End WheelFinder.

(** ** Toyota_Official.py: what is read off the output of [fill_cars] *)

Module ToyotaCars.
Import Toyota.

(** The fragments of a cleaned car, without the ['NA'] strings. *)
Definition fragments (car : list slot) : list tag :=
  omap (fun s => match s with Frag t => Some t | NA => None end) car.

(** The two tests of [is_start] on a fragment: the interior-colour span,
    and the body-type words of the second rule. *)
Definition interior_tag (tag : tag) : bool :=
  interior_color_span (find_span tag).

Definition body_word_tag (tag : tag) : bool :=
  Str.contains "Car" (text tag) || Str.contains "Utility" (text tag)
  || Str.contains "Mini-van" (text tag) || Str.contains "CrewMax" (text tag).

(** The seven keys of [car_dict]. *)
Definition car_keys : gset string :=
  {[ "Interior Color"; "Body Type"; "Drive Type"; "MPG"; "Engine";
     "Transmission"; "Model Code" ]}.

(** The main loop of the script:
    [for car in cars: car_table.append(parse_car_details(car))]. *)
Definition car_table (result_list : list tag) : list (gmap string string) :=
  parse_car_details <$> fill_cars result_list.

End ToyotaCars.

(** ** WheelFinder.py: what is read off the result of [generate_recs] *)

Module Ranking.
Import Pandas WheelFinder.

(** [abs(value - pref)] for one row and one criterion. *)
Definition distance (c : criterion) (pref : Q) (r : row) : cell :=
  lift1 Qabs (sub (column c r) (Some pref)).

(** The row of [a] is at most as far from the target as the row of [b]. *)
Definition not_farther (c : criterion) (pref : Q) (a b : scored) : Prop :=
  match distance c pref (this a), distance c pref (this b) with
  | Some x, Some y => (x <= y)%Q
  | _, _ => False
  end.

(** The weights that count: a weight that is not positive is skipped. *)
Definition weight_budget (price_weight mpg_weight size_weight : Z) : Z :=
  Z.max 0 price_weight + Z.max 0 mpg_weight + Z.max 0 size_weight.

End Ranking.

(** ** More of Python's [str] *)

Module Text.

(** The ASCII characters that [str.strip] and [\s] count as white space. *)
Definition is_space (a : ascii) : bool :=
  let n := nat_of_ascii a in
  ((9 <=? n) && (n <=? 13) || (28 <=? n) && (n <=? 32))%nat.

Fixpoint lstrip (s : string) : string :=
  match s with
  | String a rest => if is_space a then lstrip rest else s
  | EmptyString => EmptyString
  end.

(** [s.rstrip()]: a white-space character is dropped when nothing but
    white space follows it. *)
Fixpoint rstrip (s : string) : string :=
  match s with
  | String a rest =>
      match rstrip rest with
      | EmptyString => if is_space a then EmptyString else String a EmptyString
      | kept => String a kept
      end
  | EmptyString => EmptyString
  end.

(** [s.strip()]. *)
Definition strip (s : string) : string := rstrip (lstrip s).

(** [s.lower()]. *)
Fixpoint lower (s : string) : string :=
  match s with
  | EmptyString => EmptyString
  | String a rest => String (Str.lower_ascii a) (lower rest)
  end.

(** [s.replace(old, new)] for one-character [old] and [new]. *)
Fixpoint replace_char (old new : ascii) (s : string) : string :=
  match s with
  | EmptyString => EmptyString
  | String a rest =>
      String (if Ascii.eqb a old then new else a) (replace_char old new rest)
  end.

(** [s.split(sep)] for a one-character [sep]: never empty, one part more
    than there are separators. *)
Fixpoint split_char (sep : ascii) (s : string) : list string :=
  match s with
  | EmptyString => [EmptyString]
  | String a rest =>
      if Ascii.eqb a sep then EmptyString :: split_char sep rest
      else match split_char sep rest with
           | part :: parts => String a part :: parts
           | [] => [String a EmptyString]
           end
  end.

(** [s.split(sep)] for a separator of one character or more: the text is
    read from the left and cut at each occurrence of [sep]; [skip] counts
    the characters of an occurrence that are still to be passed over. *)
Fixpoint split_str (sep : string) (skip : nat) (s : string) : list string :=
  match s with
  | EmptyString => [EmptyString]
  | String a rest =>
      match skip with
      | S n => split_str sep n rest
      | O =>
          if String.prefix sep s
          then EmptyString :: split_str sep (String.length sep - 1) rest
          else match split_str sep 0 rest with
               | part :: parts => String a part :: parts
               | [] => [String a EmptyString]
               end
      end
  end.

(** [sep.join(parts)] for a one-character [sep]. *)
Fixpoint join_char (sep : ascii) (parts : list string) : string :=
  match parts with
  | [] => EmptyString
  | [part] => part
  | part :: rest => part ++ String sep (join_char sep rest)
  end.


(** The digit character of a number below ten. *)
Definition digit_char (d : N) : ascii := ascii_of_N (48 + d).

(** The decimal digits of [n], most significant first; [fuel] bounds the
    number of digits. *)
Fixpoint digits_of (fuel : nat) (n : N) : list ascii :=
  match fuel with
  | O => [digit_char (n mod 10)]
  | S fuel' =>
      if (n <? 10)%N then [digit_char n]
      else digits_of fuel' (n / 10) ++ [digit_char (n mod 10)]
  end.

(** [str(n)] for an [int] that is not negative. *)
Definition str_of_int (n : N) : string :=
  string_of_list_ascii (digits_of (N.to_nat (N.size n)) n).

(** The value of a string of digits read by [int] or [float]; [None] on a
    character that is not a digit. *)
Fixpoint read_digits (acc : N) (s : list ascii) : option N :=
  match s with
  | [] => Some acc
  | a :: rest =>
      if Str.is_digit a
      then read_digits (10 * acc + (N_of_ascii a - 48)) rest
      else None
  end.

End Text.

(** ** Python's [re]: a backtracking matcher *)

(** The regular expressions of the sources are built from character
    classes, sequence, alternation, greedy and lazy repetition of a class,
    numbered groups, [$] and [\b].  [go] tries the alternatives in the order
    in which [re] tries them and hands each way of matching to the
    continuation, so the first success is the match [re] finds. *)
Module Regex.

Inductive re :=
| Eps
| Chr (c : ascii → bool)
| Star (c : ascii → bool)
| Lazy (c : ascii → bool)
| Seq (r1 r2 : re)
| Alt (r1 r2 : re)
| Group (n : nat) (r : re)
| End_
| Boundary.

(** The character before the position, the text from the position on, and
    the groups matched so far. *)
Record state := State {
  before : option ascii;
  rest : list ascii;
  groups : gmap nat (list ascii)
}.

(** [\w] on ASCII text. *)
Definition is_word (a : option ascii) : bool :=
  match a with
  | Some a => Str.is_digit a || Str.is_lower a || Str.is_upper a
              || Ascii.eqb a "_"
  | None => false
  end.

(** The loop of a greedy repetition [c*]: as many characters of the class
    as the rest of the expression, [k], allows, the longest run first. *)
Definition star (c : ascii → bool) (g : gmap nat (list ascii))
    (k : state → option state) : option ascii → list ascii → option state :=
  fix star (p : option ascii) (l : list ascii) : option state :=
    match l with
    | a :: l' =>
        if c a
        then match star (Some a) l' with
             | Some found => Some found
             | None => k (State p l g)
             end
        else k (State p l g)
    | [] => k (State p [] g)
    end.

(** The loop of a lazy repetition [c*?]: the shortest run first. *)
Definition lazy (c : ascii → bool) (g : gmap nat (list ascii))
    (k : state → option state) : option ascii → list ascii → option state :=
  fix lazy (p : option ascii) (l : list ascii) : option state :=
    match k (State p l g) with
    | Some found => Some found
    | None =>
        match l with
        | a :: l' => if c a then lazy (Some a) l' else None
        | [] => None
        end
    end.

Fixpoint go (r : re) (s : state) (k : state → option state)
  : option state :=
  match r with
  | Eps => k s
  | Chr c =>
      match rest s with
      | a :: l => if c a then k (State (Some a) l (groups s)) else None
      | [] => None
      end
  | Star c => star c (groups s) k (before s) (rest s)
  | Lazy c => lazy c (groups s) k (before s) (rest s)
  | Seq r1 r2 => go r1 s (fun s' => go r2 s' k)
  | Alt r1 r2 =>
      match go r1 s k with
      | Some found => Some found
      | None => go r2 s k
      end
  | Group n r =>
      go r s (fun s' =>
        k (State (before s') (rest s')
             (<[n := take (length (rest s) - length (rest s')) (rest s)]>
                (groups s'))))
  | End_ =>
      match rest s with
      | [] => k s
      | [a] => if Ascii.eqb a "010" then k s else None
      | _ => None
      end
  | Boundary =>
      if xorb (is_word (before s)) (is_word (head (rest s)))
      then k s else None
  end.

(** The leftmost match: the first position from which [r] matches. *)
Fixpoint search_from (r : re) (p : option ascii) (l : list ascii)
  : option state :=
  match go r (State p l ∅) Some with
  | Some found => Some found
  | None =>
      match l with
      | [] => None
      | a :: l' => search_from r (Some a) l'
      end
  end.

(** [re.search(r, text)]: the groups of the match, if there is one. *)
Definition search (r : re) (text : string) : option (gmap nat string) :=
  (fun found => string_of_list_ascii <$> groups found)
  <$> search_from r None (list_ascii_of_string text).

(** [re.sub(r, repl, text)] from a position on.  A match that takes
    [S n] characters is replaced and the [n] characters after the first are
    passed over ([skip]).  An empty match is replaced as well; the search
    then goes on from the same position for a match that is not empty, and
    copies the character if there is none. *)
Fixpoint sub_from (r : re) (repl : list ascii) (skip : nat)
    (p : option ascii) (l : list ascii) : list ascii :=
  match skip, l with
  | S n, a :: l' => sub_from r repl n (Some a) l'
  | S n, [] => []
  | O, [] =>
      match go r (State p [] ∅) Some with
      | Some _ => repl
      | None => []
      end
  | O, a :: l' =>
      match go r (State p l ∅) Some with
      | Some found =>
          match length l - length (rest found) with
          | S n => repl ++ sub_from r repl n (Some a) l'
          | O =>
              repl ++
              match go r (State p l ∅)
                      (fun s => if (length (rest s) <? length l)%nat
                                then Some s else None) with
              | Some found' =>
                  repl ++
                  sub_from r repl (length l - length (rest found') - 1)
                    (Some a) l'
              | None => a :: sub_from r repl 0 (Some a) l'
              end
          end
      | None => a :: sub_from r repl 0 (Some a) l'
      end
  end.

Definition sub (r : re) (repl text : string) : string :=
  string_of_list_ascii
    (sub_from r (list_ascii_of_string repl) 0 None
       (list_ascii_of_string text)).

(** The character before the position once [run] has been read. *)
Definition after (p : option ascii) (run : list ascii) : option ascii :=
  match last run with
  | Some a => Some a
  | None => p
  end.

(** What [r] can match: [reach r s s'] holds when [r] matches the text
    between the positions of [s] and [s'] and leaves the groups of [s']. *)
Fixpoint reach (r : re) (s s' : state) : Prop :=
  match r with
  | Eps => s' = s
  | Chr c =>
      ∃ a, rest s = a :: rest s' ∧ c a = true
           ∧ before s' = Some a ∧ groups s' = groups s
  | Star c | Lazy c =>
      ∃ run, rest s = run ++ rest s' ∧ Forall (fun a => c a = true) run
             ∧ before s' = after (before s) run ∧ groups s' = groups s
  | Seq r1 r2 => ∃ m, reach r1 s m ∧ reach r2 m s'
  | Alt r1 r2 => reach r1 s s' ∨ reach r2 s s'
  | Group n r =>
      ∃ m, reach r s m
           ∧ s' = State (before m) (rest m)
                    (<[n := take (length (rest s) - length (rest m)) (rest s)]>
                       (groups m))
  | End_ => s' = s ∧ (rest s = [] ∨ rest s = ["010"%char])
  | Boundary =>
      s' = s ∧ xorb (is_word (before s)) (is_word (head (rest s))) = true
  end.


(** [match.group(n)] for a group that took part in the match. *)
Definition group (m : gmap nat string) (n : nat) : string :=
  default "" (m !! n).

(** Classes. *)
Definition exactly (c : ascii) : ascii → bool := fun a => Ascii.eqb a c.
Definition ignoring_case (c : ascii) : ascii → bool :=
  fun a => Ascii.eqb (Str.lower_ascii a) (Str.lower_ascii c).
Definition digit : ascii → bool := Str.is_digit.
Definition space : ascii → bool := Text.is_space.
Definition any : ascii → bool := fun _ => true.
Definition any_but_newline : ascii → bool :=
  fun a => negb (Ascii.eqb a "010").
Definition none_of (cs : list ascii) : ascii → bool :=
  fun a => negb (existsb (Ascii.eqb a) cs).
Definition one_of (c d : ascii → bool) : ascii → bool := fun a => c a || d a.

(** Shapes. *)
Fixpoint seq (rs : list re) : re :=
  match rs with
  | [] => Eps
  | [r] => r
  | r :: rs' => Seq r (seq rs')
  end.

Definition plus (c : ascii → bool) : re := Seq (Chr c) (Star c).

Definition times (n : nat) (c : ascii → bool) : re :=
  seq (replicate n (Chr c)).

(** A literal text, as written and under [re.IGNORECASE]. *)
Definition lit (s : string) : re :=
  seq ((fun c => Chr (exactly c)) <$> list_ascii_of_string s).
Definition lit_i (s : string) : re :=
  seq ((fun c => Chr (ignoring_case c)) <$> list_ascii_of_string s).

Fixpoint alt (rs : list re) : re :=
  match rs with
  | [] => Eps
  | [r] => r
  | r :: rs' => Alt r (alt rs')
  end.

End Regex.

(** ** Honda_Official.py: [find_unique_models] *)

Module HondaLinks.

(** [\d{4}-Honda-([^-]+-[^-]+|[^-]+)]. *)
Definition model_pattern : Regex.re :=
  Regex.seq
    [ Regex.times 4 Regex.digit; Regex.lit "-Honda-";
      Regex.Group 1
        (Regex.Alt
           (Regex.seq [ Regex.plus (Regex.none_of ["-"%char]);
                        Regex.lit "-";
                        Regex.plus (Regex.none_of ["-"%char]) ])
           (Regex.plus (Regex.none_of ["-"%char]))) ].

(** [match.group(1)] if the pattern is found, the link itself otherwise. *)
Definition model_key (url : string) : string :=
  match Regex.search model_pattern url with
  | Some m => Regex.group m 1
  | None => url
  end.

(** The loop over [links]; [first_instance] is the dict, its items in
    insertion order. *)
Fixpoint first_instances (links : list string)
    (first_instance : list (string * string)) : list (string * string) :=
  match links with
  | [] => first_instance
  | url :: rest =>
      if bool_decide (model_key url ∈ first_instance.*1)
      then first_instances rest first_instance
      else first_instances rest (first_instance ++ [(model_key url, url)])
  end.

(** [list(first_instance.values())]. *)
Definition find_unique_models (links : list string) : list string :=
  (first_instances links []).*2.

(** *** Sample links *)

Definition civic_sport_1 : string :=
  "https://www.hondaoflosangeles.com/new-Los+Angeles-2025-Honda-Civic-Sport-2HGFE2F50SH500001".
Definition civic_sport_2 : string :=
  "https://www.hondaoflosangeles.com/new-Los+Angeles-2025-Honda-Civic-Sport-2HGFE2F50SH500002".
Definition pilot_elite : string :=
  "https://www.hondaoflosangeles.com/new-Los+Angeles-2025-Honda-Pilot-Elite-5FNYG1H80SB000003".

End HondaLinks.

(** ** Honda_Official.py: [scrape_car_data] *)

Module HondaPage.
Import Honda.

(** [[:\s]], and the character classes of the patterns below. *)
Definition colon_or_space : ascii → bool :=
  Regex.one_of (Regex.exactly ":") Regex.space.
Definition letter : ascii → bool := Regex.one_of Str.is_upper Str.is_lower.
Definition newline : ascii := "010"%char.

(** [int(s)] on a group matched by [\d+]: the value of the digits.  Python
    refuses a string of more than 4300 digits with [ValueError]
    ([sys.get_int_max_str_digits()]). *)
Definition int (s : string) : option N :=
  if (4300 <? String.length s)%nat then None
  else match s with
       | EmptyString => None
       | _ => Text.read_digits 0 (list_ascii_of_string s)
       end.

(** ['cloudflare' in driver.title.lower()]. *)
Definition cloudflare (title : string) : bool :=
  Str.contains "cloudflare" (Text.lower title).

(** [/new-[^-]+-(\d{4})-([^-]+)-(.+)-([A-Z0-9]{17})$]. *)
Definition url_pattern : Regex.re :=
  Regex.seq
    [ Regex.lit "/new-"; Regex.plus (Regex.none_of ["-"%char]);
      Regex.lit "-"; Regex.Group 1 (Regex.times 4 Regex.digit);
      Regex.lit "-"; Regex.Group 2 (Regex.plus (Regex.none_of ["-"%char]));
      Regex.lit "-"; Regex.Group 3 (Regex.plus Regex.any_but_newline);
      Regex.lit "-";
      Regex.Group 4 (Regex.times 17 (Regex.one_of Str.is_upper Regex.digit));
      Regex.End_ ].

(** Year, Make, Model and Trim from the link. *)
Definition url_block (url : string) (car_data : gmap string value)
  : gmap string value :=
  match Regex.search url_pattern url with
  | Some m =>
      let car_data := <["Year" := VStr (Regex.group m 1)]> car_data in
      let car_data :=
        <["Make" := VStr (Text.replace_char "+" " " (Regex.group m 2))]>
          car_data in
      let model_and_trim := Regex.group m 3 in
      let model_and_trim := Text.replace_char "+" " " model_and_trim in
      let parts := Text.split_char "-" model_and_trim in
      if (2 <=? length parts)%nat then
        let car_data :=
          <["Trim" := VStr (Text.replace_char "+" " " (List.last parts ""))]>
            car_data in
        <["Model" :=
            VStr (Text.replace_char "+" " "
                    (Text.replace_char "-" " "
                       (Text.join_char "-" (removelast parts))))]> car_data
      else
        <["Model" := VStr (Text.replace_char "-" " " model_and_trim)]>
          car_data
  | None => car_data
  end.

(** A label, [\s+], a second label, [[:\s]+] and the rest of the line up to
    a tag: [BODY\s+STYLE[:\s]+([^\n<]+)] and the like. *)
Definition labelled_line (first second : string) : Regex.re :=
  Regex.seq
    [ Regex.lit_i first; Regex.plus Regex.space; Regex.lit_i second;
      Regex.plus colon_or_space;
      Regex.Group 1 (Regex.plus (Regex.none_of [newline; "<"%char])) ].

(** A quoted key, [[:\s]+] and a quoted value: with [Q] for the double
    quote, [QbodyStyleQ[:\s]+Q([^Q]+)Q] and the like. *)
Definition quoted_value (key : string) : Regex.re :=
  Regex.seq
    [ Regex.Chr (Regex.exactly quote); Regex.lit_i key;
      Regex.Chr (Regex.exactly quote); Regex.plus colon_or_space;
      Regex.Chr (Regex.exactly quote);
      Regex.Group 1 (Regex.plus (Regex.none_of [quote]));
      Regex.Chr (Regex.exactly quote) ].

(** [body_patterns], searched with [re.IGNORECASE]; the last two are
    [(4D\s+(?:Sedan|SUV|Sport Utility|Hatchback|Coupe))] and
    [(\d+D\s+[A-Za-z\s]+)]. *)
Definition body_patterns : list Regex.re :=
  [ labelled_line "BODY" "STYLE";
    labelled_line "Body" "Style";
    quoted_value "bodyStyle";
    Regex.Group 1
      (Regex.seq
         [ Regex.lit_i "4D"; Regex.plus Regex.space;
           Regex.alt
             [ Regex.lit_i "Sedan"; Regex.lit_i "SUV";
               Regex.lit_i "Sport Utility"; Regex.lit_i "Hatchback";
               Regex.lit_i "Coupe" ] ]);
    Regex.Group 1
      (Regex.seq
         [ Regex.plus Regex.digit; Regex.lit_i "D"; Regex.plus Regex.space;
           Regex.plus (Regex.one_of letter Regex.space) ]) ].

(** [fuel_patterns], searched with [re.IGNORECASE]; the last one is
    [\b(Gasoline|Diesel|Hybrid|Electric|Plug-in Hybrid|PHEV)\b]. *)
Definition fuel_patterns : list Regex.re :=
  [ labelled_line "FUEL" "TYPE";
    labelled_line "Fuel" "Type";
    quoted_value "fuelType";
    Regex.seq
      [ Regex.Boundary;
        Regex.Group 1
          (Regex.alt
             [ Regex.lit_i "Gasoline"; Regex.lit_i "Diesel";
               Regex.lit_i "Hybrid"; Regex.lit_i "Electric";
               Regex.lit_i "Plug-in Hybrid"; Regex.lit_i "PHEV" ]);
        Regex.Boundary ] ].

(** The loops over [body_patterns] and over [fuel_patterns]: the first
    pattern found stores its group, stripped, under [key] unless the key is
    there already, and ends the loop. *)
Fixpoint first_found (key : string) (patterns : list Regex.re)
    (page_text : string) (car_data : gmap string value)
  : gmap string value :=
  match patterns with
  | [] => car_data
  | pattern :: rest =>
      match Regex.search pattern page_text with
      | Some found =>
          if bool_decide (is_Some (car_data !! key))
          then first_found key rest page_text car_data
          else <[key := VStr (Text.strip (Regex.group found 1))]> car_data
      | None => first_found key rest page_text car_data
      end
  end.

(** Two numbers around a slash: [(\d+)\s*/\s*(\d+)]. *)
Definition slash_pair (after_city : Regex.re) : Regex.re :=
  Regex.seq
    [ Regex.Group 1 (Regex.plus Regex.digit); after_city;
      Regex.Star Regex.space; Regex.lit "/"; Regex.Star Regex.space;
      Regex.Group 2 (Regex.plus Regex.digit) ].

(** Two quoted keys with a number each: with [Q] for the double quote,
    [QcityMPGQ[:\s]+(\d+).*?QhighwayMPGQ[:\s]+(\d+)]; under [re.DOTALL] the
    dot matches every character. *)
Definition quoted_pair (city highway : string) : Regex.re :=
  Regex.seq
    [ Regex.Chr (Regex.exactly quote); Regex.lit_i city;
      Regex.Chr (Regex.exactly quote); Regex.plus colon_or_space;
      Regex.Group 1 (Regex.plus Regex.digit); Regex.Lazy Regex.any;
      Regex.Chr (Regex.exactly quote); Regex.lit_i highway;
      Regex.Chr (Regex.exactly quote); Regex.plus colon_or_space;
      Regex.Group 2 (Regex.plus Regex.digit) ].

(** [mpg_patterns], searched with [re.IGNORECASE | re.DOTALL]:
    [(\d+)\s+City\s*/\s*(\d+)\s+Highway], the same in lower case,
    [City/Highway[:\s]+(\d+)\s*/\s*(\d+)], [MPG[:\s]+(\d+)\s*/\s*(\d+)],
    [(\d+)\s*/\s*(\d+)\s+MPG] and the two quoted pairs. *)
Definition mpg_patterns : list Regex.re :=
  [ Regex.seq
      [ slash_pair (Regex.seq [Regex.plus Regex.space; Regex.lit_i "City"]);
        Regex.plus Regex.space; Regex.lit_i "Highway" ];
    Regex.seq
      [ slash_pair (Regex.seq [Regex.plus Regex.space; Regex.lit_i "city"]);
        Regex.plus Regex.space; Regex.lit_i "highway" ];
    Regex.seq
      [ Regex.lit_i "City/Highway"; Regex.plus colon_or_space;
        slash_pair Regex.Eps ];
    Regex.seq
      [ Regex.lit_i "MPG"; Regex.plus colon_or_space; slash_pair Regex.Eps ];
    Regex.seq
      [ slash_pair Regex.Eps; Regex.plus Regex.space; Regex.lit_i "MPG" ];
    quoted_pair "cityMPG" "highwayMPG";
    quoted_pair "mpgCity" "mpgHighway" ].

(** [f"{city} / {highway}"]. *)
Definition mpg_text (city highway : N) : string :=
  Text.str_of_int city ++ " / " ++ Text.str_of_int highway.

(** The loop over [mpg_patterns]; [None] when [int] raises, which ends
    [scrape_car_data] in its [except] branch. *)
Fixpoint mpg_loop (patterns : list Regex.re) (page_text : string)
    (car_data : gmap string value) : option (gmap string value) :=
  match patterns with
  | [] => Some car_data
  | pattern :: rest =>
      match Regex.search pattern page_text with
      | Some mpg_match =>
          city ← int (Regex.group mpg_match 1);
          highway ← int (Regex.group mpg_match 2);
          if ((10 <=? city) && (city <=? 150)
              && (10 <=? highway) && (highway <=? 150))%N
          then Some (<["MPG" := VStr (mpg_text city highway)]> car_data)
          else mpg_loop rest page_text car_data
      | None => mpg_loop rest page_text car_data
      end
  end.

(** The fallback after the loop over [fuel_patterns]. *)
Definition hybrid_fallback (car_data : gmap string value)
  : gmap string value :=
  match car_data !! "Fuel Type", car_data !! "Model" with
  | None, Some (VStr model) =>
      if Str.contains "hybrid" (Text.lower model)
      then <["Fuel Type" := VStr "Hybrid"]> car_data
      else car_data
  | _, _ => car_data
  end.

(** [scrape_car_data(driver, url)] as a function of what the driver shows:
    the title of the page when it is first read, the title ten seconds
    later, and the page source.  [None] is the [None] of the source, which
    it returns for a page that stays behind the Cloudflare check, for a
    dictionary of one entry, and from its [except] branch. *)
Definition scrape_car_data (title title_later url page_text : string)
  : option (gmap string value) :=
  if cloudflare title && cloudflare title_later then None
  else
    let car_data : gmap string value := {[ "url" := VStr url ]} in
    let car_data := url_block url car_data in
    let car_data := first_found "Body Style" body_patterns page_text car_data in
    let car_data := <["Transmission" := VStr "N/A"]> car_data in
    car_data ← mpg_loop mpg_patterns page_text car_data;
    let car_data := price_loop price_patterns page_text car_data in
    let car_data := first_found "Fuel Type" fuel_patterns page_text car_data in
    let car_data := hybrid_fallback car_data in
    if (1 <? size car_data)%nat then Some car_data else None.


(** The dictionaries [car_data] and [car_data'] hold the same under every
    key outside [keys]. *)
Definition same_outside (keys : list string)
    (car_data car_data' : gmap string value) : Prop :=
  ∀ k, k ∉ keys → car_data' !! k = car_data !! k.


(** *** A sample page *)

Definition accord_url : string :=
  "https://www.hondaoflosangeles.com/new-Los+Angeles-2025-Honda-Accord+Hybrid-Sport-L-1HGCY2F70SA000001".

Definition accord_page : string :=
  "<html><li>Body Style: 4D Sedan</li><li>MPG: 051 / 44</li><li>Price: $34,750</li></html>".

End HondaPage.

(** ** Rec_Generator.py: the MPG columns and the inventory *)

Module Inventory.
Import Pandas RecGenerator.

(** [(\d+\s*/\s*\d+)] and [\s*/\s*]. *)
Definition mpg_pattern : Regex.re :=
  Regex.Group 1
    (Regex.seq
       [ Regex.plus Regex.digit; Regex.Star Regex.space; Regex.lit "/";
         Regex.Star Regex.space; Regex.plus Regex.digit ]).

Definition slash : Regex.re :=
  Regex.seq [Regex.Star Regex.space; Regex.lit "/"; Regex.Star Regex.space].

(** One cell of [Series.str.extract(pat, expand=False)] for a pattern with
    one group: the group of the first match; a missing value stays missing,
    and a text without a match becomes missing. *)
Definition str_extract (pat : Regex.re) (v : option string) : option string :=
  text ← v; found ← Regex.search pat text; found !! 1%nat.

(** One cell of [Series.str.replace(pat, repl, regex=True)]. *)
Definition str_replace (pat : Regex.re) (repl : string) (v : option string)
  : option string :=
  Regex.sub pat repl <$> v.

(** One cell of [Series.str.split(sep)], for a separator without special
    characters. *)
Definition str_split (sep : string) (v : option string)
  : option (list string) :=
  Text.split_str sep 0 <$> v.

(** The number of columns of [str.split(sep, expand=True)]: the largest
    number of parts of a row, a missing value counting as one part, and no
    column for a frame without rows. *)
Definition width (parts : list (option (list string))) : nat :=
  foldr Nat.max 0%nat
    ((fun v => match v with Some l => length l | None => 1%nat end)
     <$> parts).

(** [df[['CTY MPG', 'HWAY MPG']] = ...str.split(' / ', expand=True)]: the
    two new columns.  The assignment raises ([None]) unless the split has
    two columns.  A row with a missing value is missing in both columns,
    and a row with one part only has no second part. *)
Definition first_two (v : option (list string))
  : option string * option string :=
  match v with
  | Some l => (l !! 0%nat, l !! 1%nat)
  | None => (None, None)
  end.

Definition two_columns (parts : list (option (list string)))
  : option (list (option string * option string)) :=
  if (width parts =? 2)%nat then Some (first_two <$> parts) else None.

(** [float(s)] on a part of the split, a string of digits: its value (exact
    below 2^53; float64 rounds what is larger).  The empty string raises
    [ValueError], and so does the model on a string with another
    character, although Python also reads signs, points, exponents and
    blanks: the parts hold digits only. *)
Definition to_float (s : string) : option Q :=
  match s with
  | EmptyString => None
  | _ => (fun n => inject_Z (Z.of_N n))
         <$> Text.read_digits 0 (list_ascii_of_string s)
  end.

(** One cell of [astype(float)]: a missing value is NaN; [None] when
    [float] raises. *)
Definition astype_float (v : option string) : option cell :=
  match v with
  | Some s => Some <$> to_float s
  | None => Some NaN
  end.

(** One row of [df[['CTY MPG', 'HWAY MPG']].astype(float)]. *)
Definition astype_pair (part : option string * option string)
  : option (cell * cell) :=
  cty ← astype_float part.1; hway ← astype_float part.2; Some (cty, hway).

(** Lines 9 to 18 of the script: the columns ['CTY MPG'] and ['HWAY MPG']
    of [combined_df], row by row; [None] when the script raises. *)
Definition mpg_columns (df : list listing) : option (list (cell * cell)) :=
  let extracted := str_extract mpg_pattern <$> (MPG <$> df) in
  let replaced := str_replace slash " / " <$> extracted in
  parts ← two_columns (str_split " / " <$> replaced);
  mapM astype_pair parts.

(** What the three steps on the MPG column make of one cell. *)
Definition mpg_parts (v : option string) : option (list string) :=
  str_split " / " (str_replace slash " / " (str_extract mpg_pattern v)).

(** The two new cells of a row, when the script does not raise. *)
Definition row_cells (v : option string) : cell * cell :=
  default (NaN, NaN) (astype_pair (first_two (mpg_parts v))).


(** A text in the shape that [mpg_pattern] matches: digits, blanks, a
    slash, blanks, digits. *)
Definition shape (ds1 ws1 ws2 ds2 : list ascii) : list ascii :=
  ds1 ++ ws1 ++ "/"%char :: ws2 ++ ds2.

(** *** Sample rows *)

Definition no_mpg : listing :=
  Listing (Some "Prologue") (Some "Honda") (Some 2025%Q) None
    (Some 48000%Q) (Some "Sport Utility") (Some "Electric") (Some "Electric").


End Inventory.

(** * Properties *)

Module ToyotaSpec.
Import Toyota.

(** *** [fill_cars] *)

Lemma clean_short (car : list tag) :
  (length car < 7)%nat →
  clean car = (Frag <$> car) ++ replicate (7 - length car) NA.
Proof.
  intros Hlt. unfold clean.
  destruct (Nat.ltb_spec (length car) 7) as [_|Hge]; [|lia].
  by rewrite firstn_all.
Qed.

Lemma clean_long (car : list tag) :
  (7 < length car)%nat → clean car = Frag <$> take 7 car.
Proof.
  intros Hgt. unfold clean.
  destruct (Nat.ltb_spec (length car) 7) as [Hlt|_]; [lia|].
  destruct (Nat.ltb_spec 7 (length car)) as [_|Hle]; [done|lia].
Qed.

Lemma clean_exact (car : list tag) :
  length car = 7%nat → clean car = Frag <$> car.
Proof.
  intros Heq. unfold clean.
  destruct (Nat.ltb_spec (length car) 7) as [Hlt|_]; [lia|].
  destruct (Nat.ltb_spec 7 (length car)) as [Hgt|_]; [lia|done].
Qed.

Lemma clean_length (car : list tag) : length (clean car) = 7%nat.
Proof.
  destruct (lt_eq_lt_dec (length car) 7) as [[Hlt|Heq]|Hgt].
  - rewrite clean_short by done.
    rewrite length_app, length_fmap, length_replicate. lia.
  - rewrite clean_exact by done. by rewrite length_fmap.
  - rewrite clean_long by done.
    rewrite length_fmap, length_take. lia.
Qed.

(** C4.  Every group that the first loop of [fill_cars] forms comes out of
    the second loop with exactly seven slots: a group that is [k > 0]
    fragments short keeps its fragments in order and is followed by exactly
    [k] ['NA'] markers, and a group of more than seven fragments is cut down
    to its first seven. *)
Theorem fill_cars_seven_slots (result_list : list tag) :
  Forall2
    (fun raw car =>
       length car = 7%nat
       ∧ (∀ k : nat, (0 < k)%nat → (length raw + k = 7)%nat →
            car = (Frag <$> raw) ++ replicate k NA)
       ∧ ((7 < length raw)%nat → car = Frag <$> take 7 raw))
    (group_tags result_list [] []) (fill_cars result_list).
Proof.
  unfold fill_cars.
  induction (group_tags result_list [] []) as [|raw cars IH]; simpl.
  - constructor.
  - constructor; [|exact IH].
    split; [apply clean_length|split].
    + intros k Hk Hlen. rewrite clean_short by lia.
      by replace (7 - length raw)%nat with k by lia.
    + apply clean_long.
Qed.

Example fill_cars_nine_then_two :
  fill_cars nine_then_two
  = [ Frag <$> [interior "Black"; detail "a"; detail "b"; detail "c";
                detail "d"; detail "e"; detail "f"];
      (Frag <$> [interior "Gray"; detail "i"]) ++ [NA; NA; NA; NA; NA] ].
Proof. vm_compute. reflexivity. Qed.

(** *** [parse_car_details] *)

Lemma parse_tag_field_of (car_dict : gmap string string) (tag : slot) :
  parse_tag car_dict tag =
  match field_of car_dict tag with
  | Some k => <[k := slot_text tag]> car_dict
  | None => car_dict
  end.
Proof.
  unfold parse_tag, field_of.
  repeat (match goal with |- context [if ?b then _ else _] => destruct b end;
          try reflexivity).
Qed.

Lemma parse_tag_body_type_kept (car_dict : gmap string string) (tag : slot)
    (v : string) :
  car_dict !! "Body Type" = Some v → v ≠ "NA" →
  parse_tag car_dict tag !! "Body Type" = Some v.
Proof.
  intros Hv Hna. rewrite parse_tag_field_of.
  destruct (field_of car_dict tag) as [k|] eqn:Hk; [|done].
  destruct (decide (k = "Body Type")) as [->|Hne].
  - exfalso. unfold field_of in Hk. rewrite Hv in Hk.
    rewrite (bool_decide_eq_false_2 (Some v = Some "NA")) in Hk by congruence.
    rewrite andb_false_r in Hk.
    repeat (match type of Hk with
            | (if ?b then _ else _) = _ => destruct b
            end; try discriminate).
  - by rewrite lookup_insert_ne.
Qed.

(** C3, as stated, fails: in this seven-slot group, which [fill_cars]
    produces, the first fragment populates [Drive Type] and the second
    fragment overwrites it. *)
Lemma drive_type_overwritten :
  fill_cars two_drives = [two_drive_types]
  ∧ length two_drive_types = 7%nat
  ∧ parse_tags initial_dict (take 1 two_drive_types) !! "Drive Type"
    = Some "Front Wheel Drive"
  ∧ parse_car_details two_drive_types !! "Drive Type"
    = Some "All Wheel Drive".
Proof. repeat split; vm_compute; reflexivity. Qed.

(** Fragments that are never classified into [k] leave the slot [k] as it
    is. *)
Lemma parse_tags_untouched (car_tags : list slot)
    (car_dict : gmap string string) (k : string) :
  Forall (fun tag => ∀ d, field_of d tag ≠ Some k) car_tags →
  parse_tags car_dict car_tags !! k = car_dict !! k.
Proof.
  intros Hnever. revert car_dict.
  induction Hnever as [|tag car_tags Htag _ IH]; intros car_dict; [done|].
  simpl. rewrite IH, parse_tag_field_of.
  destruct (field_of car_dict tag) as [k'|] eqn:Hk'; [|done].
  apply lookup_insert_ne. intros ->. by apply (Htag car_dict).
Qed.

(** C3, amended.  Only [Body Type] is guarded: once it holds a value other
    than ['NA'] no later fragment changes it.  For the other six fields the
    assignment is unconditional: a fragment classified into such a field
    stores its text there whatever the slot held before (the classification
    looks at no slot but [Body Type]), so the last fragment of the group
    that is classified into the field wins. *)
Theorem parse_car_details_only_body_type_guarded
    (car_dict : gmap string string) :
  (∀ (v : string) (car_tags : list slot),
      car_dict !! "Body Type" = Some v → v ≠ "NA" →
      parse_tags car_dict car_tags !! "Body Type" = Some v)
  ∧ (∀ (tag : slot) (k : string),
      field_of car_dict tag = Some k → k ≠ "Body Type" →
      parse_tag car_dict tag !! k = Some (slot_text tag))
  ∧ (∀ (tag : slot) (other : gmap string string),
      other !! "Body Type" = car_dict !! "Body Type" →
      field_of other tag = field_of car_dict tag)
  ∧ (∀ (earlier later : list slot) (tag : slot) (k : string),
      field_of (parse_tags car_dict earlier) tag = Some k →
      k ≠ "Body Type" →
      Forall (fun t => ∀ d, field_of d t ≠ Some k) later →
      parse_tags car_dict (earlier ++ tag :: later) !! k
      = Some (slot_text tag)).
Proof.
  split; [|split; [|split]].
  - intros v car_tags. revert car_dict.
    induction car_tags as [|tag car_tags IH]; intros car_dict Hv Hna.
    + exact Hv.
    + simpl. apply IH; [|done]. by apply parse_tag_body_type_kept.
  - intros tag k Hk _. rewrite parse_tag_field_of, Hk.
    apply lookup_insert_eq.
  - intros tag other Hsame. unfold field_of. by rewrite Hsame.
  - intros earlier later tag k Hk _ Hlater. unfold parse_tags.
    rewrite foldl_app. simpl. fold (parse_tags car_dict earlier).
    fold (parse_tags (parse_tag (parse_tags car_dict earlier) tag) later).
    rewrite parse_tags_untouched by done.
    rewrite parse_tag_field_of, Hk. apply lookup_insert_eq.
Qed.

(** The amended statement at the group of the counterexample: the second
    drive-type fragment is the last one, and its text is what the group
    ends with. *)
Lemma parse_car_details_only_body_type_guarded_witness :
  parse_tags initial_dict two_drive_types !! "Drive Type"
  = Some "All Wheel Drive".
Proof.
  apply (proj2 (proj2 (proj2
           (parse_car_details_only_body_type_guarded initial_dict)))
           [Frag (detail "Front Wheel Drive")] [NA; NA; NA; NA; NA]
           (Frag (detail "All Wheel Drive")) "Drive Type").
  - vm_compute. reflexivity.
  - discriminate.
  - repeat (constructor; [intros d; unfold field_of; simpl; discriminate|]).
    constructor.
Defined.

End ToyotaSpec.

Module HondaSpec.
Import Honda.

Lemma plausible_test (price : Z) :
  (10000 <=? price)%Z && (price <=? 200000)%Z = true ↔ plausible price.
Proof. unfold plausible. rewrite andb_true_iff, !Z.leb_le. tauto. Qed.

(** A pattern that does not match, whose group does not parse, or whose
    value is out of range leaves the loop running. *)
Lemma price_loop_skip (pattern : Re.pattern) (rest : list Re.pattern)
    (page_text : string) (car_data : gmap string value) :
  (∀ v, parsed_price pattern page_text = Some v → ¬ plausible v) →
  price_loop (pattern :: rest) page_text car_data
  = price_loop rest page_text car_data.
Proof.
  intros Hout. simpl. unfold parsed_price in Hout.
  destruct (Re.search pattern page_text) as [group1|]; [|done].
  destruct (float (remove_commas group1)) as [price|]; [|done].
  destruct ((10000 <=? price)%Z && (price <=? 200000)%Z) eqn:Hrange; [|done].
  exfalso. apply (Hout price); [done|]. by apply plausible_test.
Qed.

Lemma price_loop_accept (pattern : Re.pattern) (rest : list Re.pattern)
    (page_text : string) (car_data : gmap string value) (v : Z) :
  parsed_price pattern page_text = Some v → plausible v →
  price_loop (pattern :: rest) page_text car_data
  = <["Price" := VFloat v]> car_data.
Proof.
  intros Hparsed Hin. simpl. unfold parsed_price in Hparsed.
  destruct (Re.search pattern page_text) as [group1|]; [|done].
  rewrite Hparsed. apply plausible_test in Hin. by rewrite Hin.
Qed.

Lemma price_loop_all_rejected (patterns : list Re.pattern)
    (page_text : string) (car_data : gmap string value) :
  Forall (fun p => ∀ v, parsed_price p page_text = Some v → ¬ plausible v)
    patterns →
  price_loop patterns page_text car_data = car_data.
Proof.
  induction 1 as [|pattern rest Hout _ IH]; [done|].
  by rewrite price_loop_skip.
Qed.

Lemma price_loop_first_plausible (higher lower : list Re.pattern)
    (pattern : Re.pattern) (page_text : string)
    (car_data : gmap string value) (v : Z) :
  Forall (fun p => ∀ u, parsed_price p page_text = Some u → ¬ plausible u)
    higher →
  parsed_price pattern page_text = Some v → plausible v →
  price_loop (higher ++ pattern :: lower) page_text car_data
  = <["Price" := VFloat v]> car_data.
Proof.
  intros Hhigher Hparsed Hin.
  induction Hhigher as [|p rest Hout _ IH]; simpl app.
  - by apply price_loop_accept.
  - by rewrite price_loop_skip.
Qed.

(** C8.  In the price block of [scrape_car_data]: when every value parsed
    from a matching pattern is outside [10000, 200000], [car_data] is left
    as it was, so a [Price] that was absent stays absent; and when the
    patterns of higher priority only produced out-of-range values (or did
    not match), a later pattern whose value is in range is still tried and
    sets [Price] to that value. *)
Theorem price_set_by_first_plausible_pattern (page_text : string)
    (car_data : gmap string value) :
  car_data !! "Price" = None →
  (Forall (fun p => ∀ v, parsed_price p page_text = Some v → ¬ plausible v)
     price_patterns →
   price_loop price_patterns page_text car_data !! "Price" = None)
  ∧ (∀ (higher lower : list Re.pattern) (pattern : Re.pattern) (v : Z),
       price_patterns = higher ++ pattern :: lower →
       Forall (fun p => ∀ u, parsed_price p page_text = Some u → ¬ plausible u)
         higher →
       parsed_price pattern page_text = Some v → plausible v →
       price_loop price_patterns page_text car_data !! "Price"
       = Some (VFloat v)).
Proof.
  intros Habsent. split.
  - intros Hall. by rewrite price_loop_all_rejected.
  - intros higher lower pattern v -> Hhigher Hparsed Hin.
    rewrite (price_loop_first_plausible higher lower pattern _ _ v) by done.
    apply lookup_insert_eq.
Qed.

Lemma price_set_by_first_plausible_pattern_witness :
  price_loop price_patterns low_price ∅ !! "Price" = None
  ∧ price_loop price_patterns two_prices ∅ !! "Price" = Some (VFloat 31250).
Proof.
  split.
  - apply (proj1 (price_set_by_first_plausible_pattern low_price ∅
                    (lookup_empty _))).
    unfold plausible.
    repeat (constructor; [intros v Hv; vm_compute in Hv; simplify_eq; lia|]).
    constructor.
  - apply (proj2 (price_set_by_first_plausible_pattern two_prices ∅
                    (lookup_empty _))
             (take 1 price_patterns) (drop 2 price_patterns)
             (Re.lit "$" ++ [Re.Rep Re.space]
                ++ Re.group (Re.plus digit_or_comma)
                ++ [Re.Rep Re.space] ++ Re.lit "MSRP")).
    + reflexivity.
    + unfold plausible.
      repeat (constructor; [intros v Hv; vm_compute in Hv; simplify_eq; lia|]).
      constructor.
    + vm_compute. reflexivity.
    + unfold plausible. lia.
Defined.

End HondaSpec.

Module RecGeneratorSpec.
Import Pandas RecGenerator.

(** C6.  The merged table has [m + n] rows: the [m] rows of the first table
    in their order, then the [n] rows of the second in theirs. *)
Theorem combined_df_is_concatenation (Honda Toyota : list listing) :
  length (combined_df Honda Toyota) = (length Honda + length Toyota)%nat
  ∧ take (length Honda) (combined_df Honda Toyota) = Honda
  ∧ drop (length Honda) (combined_df Honda Toyota) = Toyota
  ∧ (∀ i r, Honda !! i = Some r → combined_df Honda Toyota !! i = Some r)
  ∧ (∀ j r, Toyota !! j = Some r →
       combined_df Honda Toyota !! (length Honda + j)%nat = Some r).
Proof.
  unfold combined_df, pd_concat. simpl. rewrite app_nil_r.
  repeat split.
  - apply length_app.
  - by rewrite take_app_length.
  - by rewrite drop_app_length.
  - intros i r Hi. by apply lookup_app_l_Some.
  - intros j r Hj. by rewrite lookup_app_r, Nat.add_comm, Nat.add_sub by lia.
Qed.

Lemma Size_lookup (df : list listing) (i : nat) (r : listing) :
  df !! i = Some r →
  Size df !! i
  = Some (match Body_Type r with
          | Some k => inject_Z <$> bodytype_to_seats !! k
          | None => NaN
          end).
Proof.
  intros Hi. unfold Size, series_map.
  by rewrite !list_lookup_fmap, Hi.
Qed.

(** C7.  In the [Size] column a row whose [Body Type] is ["Sedan"] gets 5,
    and a row whose [Body Type] is not a key of [bodytype_to_seats] gets
    NaN. *)
Theorem size_of_sedan_and_of_unmapped (df : list listing) (i : nat)
    (r : listing) :
  df !! i = Some r →
  (Body_Type r = Some "Sedan" → Size df !! i = Some (Some 5%Q))
  ∧ ((∀ k, Body_Type r = Some k → bodytype_to_seats !! k = None) →
     Size df !! i = Some NaN).
Proof.
  intros Hi. split.
  - intros Hsedan. rewrite (Size_lookup df i r Hi), Hsedan.
    vm_compute. reflexivity.
  - intros Hunmapped. rewrite (Size_lookup df i r Hi).
    destruct (Body_Type r) as [k|]; [|done].
    by rewrite (Hunmapped k).
Qed.

Lemma size_of_sedan_and_of_unmapped_witness :
  Size [sedan; coupe] !! 0%nat = Some (Some 5%Q)
  ∧ Size [sedan; coupe] !! 1%nat = Some NaN.
Proof.
  split.
  - apply (proj1 (size_of_sedan_and_of_unmapped [sedan; coupe] 0 sedan
                    eq_refl)).
    reflexivity.
  - apply (proj2 (size_of_sedan_and_of_unmapped [sedan; coupe] 1 coupe
                    eq_refl)).
    intros k Hk. simpl in Hk. simplify_eq. vm_compute. reflexivity.
Defined.

End RecGeneratorSpec.

Module WheelFinderSpec.
Import Pandas WheelFinder.

(** *** ['Avg MPG'] *)

Lemma with_avg_mpg_lookup (df : list car) (i : nat) (r : car) :
  df !! i = Some r →
  with_avg_mpg df !! i = Some (Row i r (row_mean [CTY_MPG r; HWAY_MPG r])).
Proof.
  intros Hi. unfold with_avg_mpg. by rewrite list_lookup_imap, Hi.
Qed.

(** C1, as stated, fails: the highway figure of this row is absent and its
    ['Avg MPG'] is the city figure, not NaN. *)
Lemma avg_mpg_of_city_only :
  HWAY_MPG <$> city_only = [NaN]
  ∧ Avg_MPG <$> with_avg_mpg city_only = [Some 30%Q].
Proof. split; vm_compute; reflexivity. Qed.

(** C1, amended.  ['Avg MPG'] is the mean of the figures that are present:
    the mean of the two when both are, the one that is present when the
    other is missing, and NaN only when both are missing. *)
Theorem avg_mpg_skips_missing (df : list car) (i : nat) (r : car) :
  df !! i = Some r →
  ∃ w : row,
    with_avg_mpg df !! i = Some w ∧ label w = i ∧ data w = r
    ∧ cell_eq (Avg_MPG w)
        match CTY_MPG r, HWAY_MPG r with
        | Some c, Some h => Some ((c + h) / 2)%Q
        | Some c, None => Some c
        | None, Some h => Some h
        | None, None => NaN
        end.
Proof.
  intros Hi. eexists. split; [by apply with_avg_mpg_lookup|].
  repeat split. unfold row_mean, present, qsum.
  destruct (CTY_MPG r) as [c|], (HWAY_MPG r) as [h|]; simpl; try done; field.
Qed.

Lemma avg_mpg_skips_missing_witness :
  ∃ w : row,
    with_avg_mpg city_only !! 0%nat = Some w ∧ label w = 0%nat
    ∧ data w = Car (Some "Civic") (Some "Honda") (Some 2025%Q)
                 (Some 27000%Q) (Some 30%Q) NaN (Some 5%Q)
    ∧ cell_eq (Avg_MPG w) (Some 30%Q).
Proof. exact (avg_mpg_skips_missing city_only 0 _ eq_refl). Defined.

(** *** The brand filter *)

Lemma filter_brand_no_match (brand_pref : list string) (df : list row) :
  brand_pref ≠ [] →
  Forall (fun r => isin (Brand (data r)) brand_pref = false) df →
  filter_brand brand_pref df = [].
Proof.
  intros Hpref Hnone. unfold filter_brand.
  destruct brand_pref as [|b brand_pref]; [done|].
  induction Hnone as [|r df Hr _ IH]; [done|].
  simpl. by rewrite Hr.
Qed.

Lemma with_avg_mpg_Forall (P : car → Prop) (df : list car) :
  Forall P df → Forall (fun w => P (data w)) (with_avg_mpg df).
Proof.
  intros HP. apply Forall_lookup. intros i w Hw.
  unfold with_avg_mpg in Hw.
  apply list_lookup_imap_Some in Hw as (r & Hr & ->).
  simpl. by eapply Forall_lookup_1.
Qed.

(** C5, as stated, fails: with an allow-list that matches no row the result
    has no columns at all, while a result with rows has the seven output
    columns. *)
Lemma no_match_has_no_columns :
  generate_recs keeps_order two_cars ["Tesla"] 20000 10 0 0 0 0
  = Frame [] []
  ∧ columns (generate_recs keeps_order two_cars ["Honda"] 20000 10 0 0 0 0)
    = ["Model"; "Brand"; "Year"; "Price"; "CTY MPG"; "HWAY MPG"; "Size"].
Proof. split; vm_compute; reflexivity. Qed.

(** C5, amended.  When the allow-list is not empty and matches no row of
    the inventory, [generate_recs] returns [pd.DataFrame()]: no rows and no
    columns, whatever the preferences and weights are (no score is
    computed). *)
Theorem generate_recs_no_brand_match (tie : nat → nat) (df : list car)
    (brand_pref : list string)
    (price_pref : Q) (price_weight : Z) (mpg_pref : Q) (mpg_weight : Z)
    (size_pref : Q) (size_weight : Z) :
  brand_pref ≠ [] →
  Forall (fun r => isin (Brand r) brand_pref = false) df →
  generate_recs tie df brand_pref price_pref price_weight mpg_pref
    mpg_weight size_pref size_weight
  = Frame [] [].
Proof.
  intros Hpref Hnone. unfold generate_recs, filtered.
  rewrite filter_brand_no_match; [done|done|].
  by apply (with_avg_mpg_Forall (fun r => isin (Brand r) brand_pref = false)).
Qed.

Lemma generate_recs_no_brand_match_witness :
  generate_recs later_first two_cars ["Tesla"] 20000 10 30 5 5 3
  = Frame [] [].
Proof.
  apply generate_recs_no_brand_match.
  - discriminate.
  - repeat constructor.
Defined.

(** *** The three scoring blocks *)

Lemma step_unfold (c : criterion) (df : list row) (pref : Q) (weight : Z)
    (Score : list cell) :
  step c df pref weight Score =
  if (0 <? weight)%Z then
    if gt0 (max_diff c df pref) then
      sadd Score
        (smul_scalar
           (rsub_scalar (of_int 1)
              (sdiv_scalar (diffs c df pref) (max_diff c df pref)))
           (of_int weight))
    else match c with
         | size => sadd_scalar Score (of_int weight)
         | _ => Score
         end
  else Score.
Proof. destruct c; reflexivity. Qed.

Lemma gt0_spec (x : cell) : gt0 x = true ↔ ∃ m, x = Some m ∧ (0 < m)%Q.
Proof.
  unfold gt0. destruct x as [a|].
  - pose proof (Qlt_alt 0 a) as Halt.
    destruct (0 ?= a)%Q; split; try discriminate; try done.
    + intros (m & [= <-] & Hm). apply Halt in Hm. discriminate.
    + intros _. exists a. split; [done|]. by apply Halt.
    + intros (m & [= <-] & Hm). apply Halt in Hm. discriminate.
  - split; [discriminate|]. by intros (m & [=] & _).
Qed.

Lemma gt0_zero (x : cell) : cell_eq x (Some 0%Q) → gt0 x = false.
Proof.
  intros Hx. destruct (gt0 x) eqn:Hgt; [|done].
  apply gt0_spec in Hgt as (m & -> & Hm). simpl in Hx. lra.
Qed.

(** [s.max()] is an upper bound of the cells that are present. *)
Lemma foldl_max_skipna_bound (s : list cell) (acc : cell) (m : Q) :
  foldl max_skipna acc s = Some m →
  (∀ a, acc = Some a → (a <= m)%Q)
  ∧ Forall (fun x => ∀ a, x = Some a → (a <= m)%Q) s.
Proof.
  revert acc. induction s as [|x s IH]; intros acc Hm; simpl in Hm.
  - split; [|constructor]. intros a ->. injection Hm as ->. lra.
  - apply IH in Hm as [Hacc Hs]. split.
    + intros a ->. destruct x as [b|]; simpl in Hacc.
      * specialize (Hacc _ eq_refl). pose proof (Q.le_max_l a b). lra.
      * by apply Hacc.
    + constructor; [|done]. intros b ->. destruct acc as [a|]; simpl in Hacc.
      * specialize (Hacc _ eq_refl). pose proof (Q.le_max_r a b). lra.
      * by apply Hacc.
Qed.

(** When the largest difference is 0, every difference that is present
    is 0. *)
Lemma diffs_zero_variance (c : criterion) (df : list row) (pref : Q) :
  cell_eq (max_diff c df pref) (Some 0%Q) →
  Forall (fun d => ∀ a, d = Some a → (a == 0)%Q) (diffs c df pref).
Proof.
  unfold max_diff, smax. intros Hmax.
  destruct (foldl max_skipna None (diffs c df pref)) as [m|] eqn:Hm; [|done].
  simpl in Hmax. apply foldl_max_skipna_bound in Hm as [_ Hm].
  unfold diffs, sabs, ssub_scalar in *. rewrite !Forall_fmap in *.
  eapply Forall_impl; [exact Hm|]. intros r Hr a Ha. unfold compose in *.
  specialize (Hr a Ha). destruct (column c r) as [x|]; [|done].
  change (Some (Qabs (x - pref)) = Some a) in Ha.
  assert (a = Qabs (x - pref)) as -> by congruence.
  pose proof (Qabs_nonneg (x - pref)). lra.
Qed.

(** C2.  For a criterion of positive weight: when the largest difference
    is 0 (every difference that is present is then 0, the same for all
    rows), the size block adds the full weight to the score of every row
    and the price and mpg blocks leave every score as it is; when the
    largest difference [m] is positive, the block adds
    [(1 - diff / m) * weight] to the score of each row. *)
Theorem criterion_contribution (c : criterion) (df : list row) (pref : Q)
    (weight : Z) (Score : list cell) :
  (0 < weight)%Z →
  (cell_eq (max_diff c df pref) (Some 0%Q) →
     Forall (fun d => ∀ a, d = Some a → (a == 0)%Q) (diffs c df pref)
     ∧ step c df pref weight Score
       = match c with
         | size => (fun s => add s (of_int weight)) <$> Score
         | _ => Score
         end)
  ∧ (∀ m : Q, max_diff c df pref = Some m → (0 < m)%Q →
       step c df pref weight Score
       = zip_with
           (fun s d =>
              add s (mul (sub (of_int 1) (div d (Some m))) (of_int weight)))
           Score (diffs c df pref)).
Proof.
  intros Hw. apply Z.ltb_lt in Hw. rewrite step_unfold, Hw. split.
  - intros Hzero. split; [by apply diffs_zero_variance|].
    by rewrite gt0_zero.
  - intros m Hm Hpos.
    rewrite (proj2 (gt0_spec _)) by eauto. rewrite Hm.
    unfold sadd, smul_scalar, rsub_scalar, sdiv_scalar.
    rewrite <- !list_fmap_compose. by rewrite zip_with_fmap_r.
Qed.

(** Two cars of five seats, a target of five seats: the largest size
    difference is 0; and a target price of 20000: the largest price
    difference is 20000. *)
Lemma criterion_contribution_witness :
  step size (with_avg_mpg two_cars) 5 3 [Some 0%Q; Some 0%Q]
  = [add (Some 0%Q) (of_int 3); add (Some 0%Q) (of_int 3)]
  ∧ step price (with_avg_mpg two_cars) 20000 10 [Some 0%Q; Some 0%Q]
    = zip_with
        (fun s d =>
           add s (mul (sub (of_int 1) (div d (Some 20000%Q))) (of_int 10)))
        [Some 0%Q; Some 0%Q] (diffs price (with_avg_mpg two_cars) 20000).
Proof.
  split.
  - apply (proj1 (criterion_contribution size (with_avg_mpg two_cars) 5 3
                    [Some 0%Q; Some 0%Q] eq_refl)).
    vm_compute. reflexivity.
  - apply (proj2 (criterion_contribution price (with_avg_mpg two_cars)
                    20000 10 [Some 0%Q; Some 0%Q] eq_refl)).
    + vm_compute. reflexivity.
    + reflexivity.
Defined.

(** Differences that are the same for all rows but not 0 are not the
    zero-variance case: with two cars of five seats and a target of seven
    seats the largest difference is 2, and the size block adds
    [(1 - 2 / 2) * 3], that is 0, to every score. *)
Example size_block_same_nonzero_difference :
  max_diff size (with_avg_mpg two_cars) 7 = Some 2%Q
  ∧ Forall2 cell_eq
      (step size (with_avg_mpg two_cars) 7 3 [Some 0%Q; Some 0%Q])
      [Some 0%Q; Some 0%Q].
Proof.
  split; [vm_compute; reflexivity|].
  vm_compute. repeat constructor.
Qed.

(** *** The score of a row *)

Lemma zip_with_fmap_same {A B C} (f : A → B → C) (g : A → B) (l : list A) :
  zip_with f l (g <$> l) = (fun x => f x (g x)) <$> l.
Proof. induction l as [|x l IH]; [done|]. csimpl. by rewrite IH. Qed.

Lemma sadd_rowwise (g : row → cell) (p m w one : cell) (rows : list row)
    (Score : list cell) :
  sadd Score
    (smul_scalar
       (rsub_scalar one (sdiv_scalar (sabs (ssub_scalar (g <$> rows) p)) m))
       w)
  = zip_with
      (fun r s => add s (mul (sub one (div (lift1 Qabs (sub (g r) p)) m)) w))
      rows Score.
Proof.
  unfold sadd, smul_scalar, rsub_scalar, sdiv_scalar, sabs, ssub_scalar.
  revert Score. induction rows as [|r rows IH]; intros [|s Score]; try done.
  csimpl. by rewrite IH.
Qed.

Lemma keep_rowwise (rows : list row) (Score : list cell) :
  length Score = length rows →
  Score = zip_with (fun (_ : row) s => s) rows Score.
Proof.
  revert Score. induction rows as [|r rows IH]; intros [|s Score] Hlen;
    try done.
  simpl. f_equal. apply IH. simpl in Hlen. lia.
Qed.

Lemma sadd_scalar_rowwise (w : cell) (rows : list row) (Score : list cell) :
  length Score = length rows →
  sadd_scalar Score w = zip_with (fun (_ : row) s => add s w) rows Score.
Proof.
  unfold sadd_scalar.
  revert Score. induction rows as [|r rows IH]; intros [|s Score] Hlen;
    try done.
  csimpl. f_equal. apply IH. simpl in Hlen. lia.
Qed.

Lemma step_rowwise (c : criterion) (df : list row) (pref : Q) (weight : Z)
    (Score : list cell) :
  length Score = length df →
  step c df pref weight Score
  = zip_with (apply_step c df pref weight) df Score.
Proof.
  intros Hlen. rewrite step_unfold. unfold apply_step, diffs.
  destruct (0 <? weight)%Z; [|by apply keep_rowwise].
  destruct (gt0 (max_diff c df pref)).
  - apply sadd_rowwise.
  - destruct c;
      [by apply keep_rowwise | by apply keep_rowwise
      | by apply sadd_scalar_rowwise].
Qed.

Lemma score_column_rowwise (df : list row)
    (price_pref : Q) (price_weight : Z) (mpg_pref : Q) (mpg_weight : Z)
    (size_pref : Q) (size_weight : Z) :
  score_column df price_pref price_weight mpg_pref mpg_weight
    size_pref size_weight
  = total df price_pref price_weight mpg_pref mpg_weight
      size_pref size_weight <$> df.
Proof.
  unfold score_column.
  change price_step with (step price).
  change mpg_step with (step mpg).
  change size_step with (step size).
  rewrite (step_rowwise price) by apply length_replicate.
  rewrite zip_with_replicate_r_eq by done.
  rewrite (step_rowwise mpg) by apply length_fmap.
  rewrite zip_with_fmap_same.
  rewrite (step_rowwise size) by apply length_fmap.
  by rewrite zip_with_fmap_same.
Qed.

Lemma scored_frame_rowwise (df : list car) (brand_pref : list string)
    (price_pref : Q) (price_weight : Z) (mpg_pref : Q) (mpg_weight : Z)
    (size_pref : Q) (size_weight : Z) :
  scored_frame df brand_pref price_pref price_weight mpg_pref mpg_weight
    size_pref size_weight
  = (fun r =>
       Scored r
         (total (filtered df brand_pref) price_pref price_weight
            mpg_pref mpg_weight size_pref size_weight r))
    <$> filtered df brand_pref.
Proof.
  unfold scored_frame. cbv zeta.
  by rewrite score_column_rowwise, zip_with_fmap_same.
Qed.

(** *** Index labels *)

Lemma imap_labels_sorted (f : car → cell) (df : list car) (k : nat) :
  StronglySorted label_lt (imap (fun i r => Row (k + i) r (f r)) df).
Proof.
  revert k. induction df as [|r df IH]; intros k; [constructor|].
  rewrite imap_cons. constructor.
  - rewrite (imap_ext _ (fun i r => Row (S k + i) r (f r))).
    + apply IH.
    + intros i x _. simpl. f_equal. lia.
  - apply Forall_lookup. intros i w Hw.
    apply list_lookup_imap_Some in Hw as (x & _ & ->).
    unfold label_lt. simpl. lia.
Qed.

Lemma with_avg_mpg_sorted (df : list car) :
  StronglySorted label_lt (with_avg_mpg df).
Proof.
  apply (imap_labels_sorted
           (fun r => row_mean [CTY_MPG r; HWAY_MPG r]) df 0).
Qed.

Lemma filter_StronglySorted {A} (R : relation A) (f : A → bool)
    (l : list A) :
  StronglySorted R l → StronglySorted R (List.filter f l).
Proof.
  induction 1 as [|x l _ IH Hx]; [constructor|].
  simpl. destruct (f x); [|done].
  constructor; [done|].
  apply Forall_forall. intros y Hy.
  apply list_elem_of_In, filter_In in Hy as [Hy _].
  rewrite Forall_forall in Hx. by apply Hx, list_elem_of_In.
Qed.

Lemma filtered_sorted (df : list car) (brand_pref : list string) :
  StronglySorted label_lt (filtered df brand_pref).
Proof.
  unfold filtered, filter_brand.
  destruct brand_pref; [apply with_avg_mpg_sorted|].
  apply filter_StronglySorted, with_avg_mpg_sorted.
Qed.

(** *** [nlargest] *)

Lemma insert_desc_perm (x : scored) (l : list scored) :
  insert_desc x l ≡ₚ x :: l.
Proof.
  induction l as [|y l IH]; [done|]. simpl.
  destruct (score_le (Score y) (Score x)); [done|].
  rewrite IH. apply Permutation_swap.
Qed.

Lemma sort_desc_perm (l : list scored) : sort_desc l ≡ₚ l.
Proof.
  induction l as [|x l IH]; [done|]. simpl.
  by rewrite insert_desc_perm, IH.
Qed.

Lemma insert_desc_sorted (x : scored) (l : list scored) :
  is_Some (Score x) →
  Forall (fun y => is_Some (Score y)) l →
  Forall (fun y => label_lt (this x) (this y)) l →
  StronglySorted ranks_before l →
  StronglySorted ranks_before (insert_desc x l).
Proof.
  intros [sx Hsx] Hscores Hlabels Hsorted.
  induction Hsorted as [|y l Hsorted IH Hy]; simpl.
  - repeat constructor.
  - apply Forall_cons in Hscores as [[sy Hsy] Hscores].
    apply Forall_cons in Hlabels as [Hxy Hlabels].
    rewrite Hsx, Hsy. simpl.
    destruct (Qle_bool sy sx) eqn:Hle.
    + apply Qle_bool_iff in Hle.
      constructor; [by constructor|].
      constructor.
      * unfold ranks_before. rewrite Hsx, Hsy.
        destruct (Qlt_le_dec sy sx); [by left|right].
        split; [lra|exact Hxy].
      * rewrite Forall_forall in Hy, Hlabels. apply Forall_forall.
        intros z Hz. specialize (Hy z Hz). specialize (Hlabels z Hz).
        unfold ranks_before in *. rewrite Hsx. rewrite Hsy in Hy.
        destruct (Score z) as [sz|]; [|done].
        destruct (Qlt_le_dec sz sx); [by left|right].
        split; [|exact Hlabels]. destruct Hy as [Hy|[Hy _]]; lra.
    + assert (sx < sy)%Q as Hlt.
      { apply Qnot_le_lt. intros Hle'. apply Qle_bool_iff in Hle'.
        congruence. }
      constructor; [by apply IH|].
      rewrite insert_desc_perm. constructor; [|done].
      unfold ranks_before. rewrite Hsx, Hsy. by left.
Qed.

Lemma sort_desc_sorted (l : list scored) :
  Forall (fun y => is_Some (Score y)) l →
  StronglySorted (fun a b => label_lt (this a) (this b)) l →
  StronglySorted ranks_before (sort_desc l).
Proof.
  intros Hscores Hlabels.
  induction Hlabels as [|x l _ IH Hx]; [constructor|].
  apply Forall_cons in Hscores as [Hsx Hscores]. simpl.
  apply insert_desc_sorted; [done| | |by apply IH].
  - by rewrite sort_desc_perm.
  - by rewrite sort_desc_perm.
Qed.

Lemma filter_all {A} (f : A → bool) (l : list A) :
  Forall (fun x => f x = true) l → List.filter f l = l.
Proof.
  induction 1 as [|x l Hx _ IH]; [done|]. simpl. by rewrite Hx, IH.
Qed.

Lemma filter_none {A} (f : A → bool) (l : list A) :
  Forall (fun x => f x = false) l → List.filter f l = [].
Proof.
  induction 1 as [|x l Hx _ IH]; [done|]. simpl. by rewrite Hx.
Qed.

Lemma filter_Forall {A} (f : A → bool) (l : list A) :
  Forall (fun x => f x = true) (List.filter f l).
Proof.
  apply Forall_forall. intros x Hx.
  by apply list_elem_of_In, filter_In in Hx as [_ Hx].
Qed.

Lemma has_score_true (r : scored) : has_score r = true ↔ is_Some (Score r).
Proof. unfold has_score. apply bool_decide_eq_true. Qed.

Lemma has_score_false (r : scored) : has_score r = false ↔ Score r = NaN.
Proof.
  unfold has_score. rewrite bool_decide_eq_false.
  destruct (Score r) as [q|].
  - split; [|done]. intros Hno. exfalso. apply Hno. by eexists.
  - split; [done|]. intros _ [q Hq]. discriminate.
Qed.

(** Rows that come with a score are labelled in increasing order. *)
Lemma scored_frame_sorted (df : list car) (brand_pref : list string)
    (price_pref : Q) (price_weight : Z) (mpg_pref : Q) (mpg_weight : Z)
    (size_pref : Q) (size_weight : Z) :
  StronglySorted (fun a b => label_lt (this a) (this b))
    (scored_frame df brand_pref price_pref price_weight mpg_pref mpg_weight
       size_pref size_weight).
Proof.
  rewrite scored_frame_rowwise.
  eapply StronglySorted_fmap; [|apply filtered_sorted]. done.
Qed.

Lemma StronglySorted_impl_elem {A} (R R' : relation A) (l : list A) :
  StronglySorted R l →
  (∀ a b, a ∈ l → b ∈ l → R a b → R' a b) →
  StronglySorted R' l.
Proof.
  induction 1 as [|x l _ IH Hx]; intros Himpl; constructor.
  - apply IH. intros a b Ha Hb. apply Himpl; by right.
  - apply Forall_forall. intros y Hy. rewrite Forall_forall in Hx.
    apply Himpl; [left|by right|by apply Hx].
Qed.

Lemma StronglySorted_impl {A} (R R' : relation A) (l : list A) :
  StronglySorted R l → (∀ a b, R a b → R' a b) → StronglySorted R' l.
Proof.
  intros Hsorted Himpl. eapply StronglySorted_impl_elem; [exact Hsorted|].
  intros a b _ _. apply Himpl.
Qed.

Lemma insert_by_perm (tie : nat → nat) (x : scored) (l : list scored) :
  insert_by tie x l ≡ₚ x :: l.
Proof.
  induction l as [|y l IH]; [done|]. simpl.
  destruct (_ <=? _)%nat; [done|].
  rewrite IH. apply Permutation_swap.
Qed.

Lemma arrange_perm (tie : nat → nat) (l : list scored) : arrange tie l ≡ₚ l.
Proof.
  induction l as [|x l IH]; [done|]. simpl.
  by rewrite insert_by_perm, IH.
Qed.

Lemma sort_values_perm (tie : nat → nat) (l : list scored) :
  sort_values tie l ≡ₚ l.
Proof. unfold sort_values. by rewrite sort_desc_perm, arrange_perm. Qed.

Lemma ranks_before_score_ge (a b : scored) :
  ranks_before a b → score_ge a b.
Proof.
  unfold ranks_before, score_ge.
  destruct (Score a), (Score b); try done. intros [?|[? _]]; lra.
Qed.

Lemma insert_desc_score_ge (x : scored) (l : list scored) :
  is_Some (Score x) →
  Forall (fun y => is_Some (Score y)) l →
  StronglySorted score_ge l →
  StronglySorted score_ge (insert_desc x l).
Proof.
  intros [sx Hsx] Hscores Hsorted.
  induction Hsorted as [|y l Hsorted IH Hy]; simpl.
  - repeat constructor.
  - apply Forall_cons in Hscores as [[sy Hsy] Hscores].
    rewrite Hsx, Hsy. simpl.
    destruct (Qle_bool sy sx) eqn:Hle.
    + apply Qle_bool_iff in Hle.
      constructor; [by constructor|].
      constructor.
      * unfold score_ge. by rewrite Hsx, Hsy.
      * rewrite Forall_forall in Hy. apply Forall_forall.
        intros z Hz. specialize (Hy z Hz).
        unfold score_ge in *. rewrite Hsx. rewrite Hsy in Hy.
        destruct (Score z) as [sz|]; [|done]. lra.
    + assert (sx < sy)%Q as Hlt.
      { apply Qnot_le_lt. intros Hle'. apply Qle_bool_iff in Hle'.
        congruence. }
      constructor; [by apply IH|].
      rewrite insert_desc_perm. constructor; [|done].
      unfold score_ge. rewrite Hsx, Hsy. lra.
Qed.

(** Whatever the order of the rows is, the sort puts larger scores
    first. *)
Lemma sort_desc_score_ge (l : list scored) :
  Forall (fun y => is_Some (Score y)) l →
  StronglySorted score_ge (sort_desc l).
Proof.
  induction 1 as [|x l Hx Hl IH]; [constructor|]. simpl.
  apply insert_desc_score_ge; [done| |done].
  by rewrite sort_desc_perm.
Qed.

(** A list that has larger scores first is left as it is. *)
Lemma sort_desc_sorted_id (l : list scored) :
  StronglySorted score_ge l → sort_desc l = l.
Proof.
  induction 1 as [|x l _ IH Hx]; [done|]. simpl. rewrite IH.
  destruct l as [|y l]; [done|]. simpl.
  apply Forall_cons in Hx as [Hxy _]. unfold score_ge in Hxy.
  destruct (Score x) as [sx|], (Score y) as [sy|]; try done. simpl.
  by rewrite (proj2 (Qle_bool_iff sy sx)).
Qed.

Lemma insert_by_sorted (tie : nat → nat) (x : scored) (l : list scored) :
  StronglySorted
    (fun a b => tie (label (this a)) ≤ tie (label (this b)))%nat l →
  StronglySorted
    (fun a b => tie (label (this a)) ≤ tie (label (this b)))%nat
    (insert_by tie x l).
Proof.
  induction 1 as [|y l Hsorted IH Hy]; simpl; [by repeat constructor|].
  destruct (Nat.leb_spec (tie (label (this x))) (tie (label (this y))))
    as [Hle|Hlt].
  - constructor; [by constructor|]. constructor; [done|].
    eapply Forall_impl; [exact Hy|]. intros z Hz. simpl in Hz. lia.
  - constructor; [done|]. rewrite insert_by_perm.
    constructor; [lia|done].
Qed.

Lemma arrange_sorted (tie : nat → nat) (l : list scored) :
  StronglySorted
    (fun a b => tie (label (this a)) ≤ tie (label (this b)))%nat
    (arrange tie l).
Proof.
  induction l as [|x l IH]; [constructor|]. simpl.
  by apply insert_by_sorted.
Qed.

(** Rows with different labels can be given keys that increase along the
    list. *)
Lemma increasing_keys (l : list scored) :
  NoDup (label ∘ this <$> l) →
  ∃ tie : nat → nat,
    StronglySorted
      (fun a b => tie (label (this a)) < tie (label (this b)))%nat l.
Proof.
  induction l as [|x l IH]; intros Hnodup; [exists id; constructor|].
  csimpl in Hnodup. apply NoDup_cons in Hnodup as [Hx Hnodup].
  destruct (IH Hnodup) as [tie Hsorted].
  assert (∀ z, z ∈ l → label (this z) ≠ label (this x)) as Hne.
  { intros z Hz Heq. apply Hx. rewrite <- Heq.
    by apply (list_elem_of_fmap_2 (label ∘ this)). }
  exists (fun n => if decide (n = label (this x)) then 0%nat else S (tie n)).
  constructor.
  - eapply StronglySorted_impl_elem; [exact Hsorted|].
    intros a b Ha Hb Hab. cbv beta in Hab |- *.
    destruct (decide (label (this a) = label (this x)));
      [by destruct (Hne a Ha)|].
    destruct (decide (label (this b) = label (this x)));
      [by destruct (Hne b Hb)|].
    lia.
  - apply Forall_forall. intros y Hy. cbv beta.
    destruct (decide (label (this x) = label (this x))); [|done].
    destruct (decide (label (this y) = label (this x)));
      [by destruct (Hne y Hy)|].
    lia.
Qed.

Lemma StronglySorted_trichotomy {A} (R : relation A) (l : list A) (x y : A) :
  StronglySorted R l → x ∈ l → y ∈ l → x = y ∨ R x y ∨ R y x.
Proof.
  induction 1 as [|z l _ IH Hz]; intros Hx Hy; [by apply elem_of_nil in Hx|].
  rewrite Forall_forall in Hz.
  apply elem_of_cons in Hx as [->|Hx], Hy as [->|Hy]; auto.
Qed.

(** Every order of the rows that puts larger scores first is the result of
    [sort_values] for some choice [tie]. *)
Lemma sort_values_any (l l' : list scored) :
  NoDup (label ∘ this <$> l) →
  l' ≡ₚ l →
  StronglySorted score_ge l' →
  ∃ tie, sort_values tie l = l'.
Proof.
  intros Hnodup Hperm Hsorted.
  destruct (increasing_keys l') as [tie Hkeys]; [by rewrite Hperm|].
  exists tie. unfold sort_values.
  rewrite <- (sort_desc_sorted_id l' Hsorted). f_equal.
  apply (StronglySorted_unique_strong
           (fun a b => tie (label (this a)) ≤ tie (label (this b)))%nat).
  - intros a b Ha Hb Hab Hba. rewrite arrange_perm, <- Hperm in Ha.
    destruct (StronglySorted_trichotomy _ _ a b Hkeys Ha Hb)
      as [?|[?|?]]; [done|lia|lia].
  - apply arrange_sorted.
  - eapply StronglySorted_impl; [exact Hkeys|]. intros a b. simpl. lia.
  - by rewrite arrange_perm.
Qed.

Lemma filter_partition_perm {A} (f : A → bool) (l : list A) :
  List.filter f l ++ List.filter (negb ∘ f) l ≡ₚ l.
Proof.
  induction l as [|x l IH]; [done|]. simpl. destruct (f x); simpl.
  - by rewrite IH.
  - by rewrite <- Permutation_middle, IH.
Qed.

(** What [nlargest] cuts to [n] rows: the rows that have a score, larger
    scores first, and behind them the rows that have none. *)
Lemma nlargest_ranked (tie : nat → nat) (n : nat) (l : list scored) :
  ∃ sorted,
    sorted ≡ₚ List.filter has_score l
    ∧ StronglySorted score_ge sorted
    ∧ nlargest tie n l
      = take n (sorted ++ List.filter (negb ∘ has_score) l).
Proof.
  assert (Forall (fun y => is_Some (Score y)) (List.filter has_score l))
    as Hscored.
  { eapply Forall_impl; [apply filter_Forall|].
    intros r Hr. by apply has_score_true. }
  unfold nlargest. cbv zeta. destruct (length l <=? n)%nat.
  - exists (sort_values tie (List.filter has_score l)).
    split; [apply sort_values_perm|]. split; [|done].
    apply sort_desc_score_ge. by rewrite arrange_perm.
  - exists (sort_desc (List.filter has_score l)).
    split; [apply sort_desc_perm|]. split; [|done].
    by apply sort_desc_score_ge.
Qed.

Lemma nlargest_sublist_perm (tie : nat → nat) (n : nat) (l : list scored) :
  ∃ ranked, ranked ≡ₚ l ∧ nlargest tie n l = take n ranked.
Proof.
  destruct (nlargest_ranked tie n l) as (sorted & Hperm & _ & ->).
  eexists. split; [|done]. by rewrite Hperm, filter_partition_perm.
Qed.

Lemma nlargest_subseteq (tie : nat → nat) (n : nat) (l : list scored) :
  nlargest tie n l ⊆ l.
Proof.
  destruct (nlargest_sublist_perm tie n l) as (ranked & Hperm & ->).
  intros x Hx. apply subseteq_take in Hx. by rewrite Hperm in Hx.
Qed.

Lemma nlargest_length (tie : nat → nat) (n : nat) (l : list scored) :
  length (nlargest tie n l) = min n (length l).
Proof.
  destruct (nlargest_sublist_perm tie n l) as (ranked & Hperm & ->).
  by rewrite length_take, Hperm.
Qed.

Lemma filter_has_score_all (l : list scored) :
  Forall (fun r => is_Some (Score r)) l →
  List.filter has_score l = l ∧ List.filter (negb ∘ has_score) l = [].
Proof.
  intros Hall. split.
  - apply filter_all. eapply Forall_impl; [exact Hall|].
    intros r Hr. by apply has_score_true.
  - apply filter_none. eapply Forall_impl; [exact Hall|]. intros r Hr.
    simpl. by rewrite (proj2 (has_score_true r)).
Qed.

(** With a score in every row and more than [n] rows, [nlargest] is the
    front of the stable sort. *)
Lemma nlargest_all_scored (tie : nat → nat) (n : nat) (l : list scored) :
  Forall (fun r => is_Some (Score r)) l →
  (n < length l)%nat →
  nlargest tie n l = take n (sort_desc l).
Proof.
  intros [Hyes Hno]%filter_has_score_all Hlen. unfold nlargest. cbv zeta.
  rewrite (proj2 (Nat.leb_gt (length l) n)) by done.
  by rewrite Hyes, Hno, app_nil_r.
Qed.

(** With a score in every row and [n] rows or fewer, it is the whole frame
    as the sort of pandas leaves it. *)
Lemma nlargest_all_scored_whole (tie : nat → nat) (n : nat)
    (l : list scored) :
  Forall (fun r => is_Some (Score r)) l →
  (length l ≤ n)%nat →
  nlargest tie n l = sort_values tie l.
Proof.
  intros [Hyes Hno]%filter_has_score_all Hlen. unfold nlargest. cbv zeta.
  rewrite (proj2 (Nat.leb_le (length l) n)) by done.
  rewrite Hyes, Hno, app_nil_r. apply take_ge.
  by rewrite sort_values_perm.
Qed.

Lemma sorted_labels_NoDup (l : list nat) :
  StronglySorted lt l → NoDup l.
Proof.
  induction 1 as [|x l _ IH Hx]; constructor; [|done].
  intros Hin. rewrite Forall_forall in Hx. specialize (Hx x Hin). lia.
Qed.

Section Ranking.

Variable (tie : nat → nat).
Variables (df : list car) (brand_pref : list string).
Variables (price_pref : Q) (price_weight : Z).
Variables (mpg_pref : Q) (mpg_weight : Z).
Variables (size_pref : Q) (size_weight : Z).

Local Abbreviation rows := (filtered df brand_pref).
Local Abbreviation frame :=
  (scored_frame df brand_pref price_pref price_weight mpg_pref mpg_weight
     size_pref size_weight).
Local Abbreviation top :=
  (top_5 tie df brand_pref price_pref price_weight mpg_pref mpg_weight
     size_pref size_weight).
Local Abbreviation recs :=
  (generate_recs tie df brand_pref price_pref price_weight mpg_pref
     mpg_weight size_pref size_weight).
Local Abbreviation score r :=
  (total rows price_pref price_weight mpg_pref mpg_weight
     size_pref size_weight r).
Local Abbreviation weight c :=
  (weight_of price_weight mpg_weight size_weight c).
Local Abbreviation pref c := (pref_of price_pref mpg_pref size_pref c).

Lemma generate_recs_records : records recs = data ∘ this <$> top.
Proof.
  unfold generate_recs, top_5, scored_frame. cbv zeta.
  by destruct (filtered df brand_pref).
Qed.

Lemma frame_rows : frame = (fun r => Scored r (score r)) <$> rows.
Proof. apply scored_frame_rowwise. Qed.

Lemma frame_elem (a : scored) :
  a ∈ frame ↔ this a ∈ rows ∧ Score a = score (this a).
Proof.
  rewrite frame_rows, list_elem_of_fmap. split.
  - by intros (r & -> & Hr).
  - intros [Hr Hs]. exists (this a). split; [|done].
    destruct a as [r s]. simpl in *. by rewrite Hs.
Qed.

(** A row that passes the brand filter is the inventory row at its label,
    and of an allowed brand when an allow-list is given. *)
Lemma rows_lookup (w : row) :
  w ∈ rows →
  df !! label w = Some (data w)
  ∧ (brand_pref ≠ [] → isin (Brand (data w)) brand_pref = true).
Proof.
  unfold filtered, filter_brand. intros Hw.
  assert (w ∈ with_avg_mpg df
          ∧ (brand_pref ≠ [] → isin (Brand (data w)) brand_pref = true))
    as [Hin Hbrand].
  { destruct brand_pref as [|b bs]; [done|].
    apply list_elem_of_In, filter_In in Hw as [Hw Hb].
    by apply list_elem_of_In in Hw. }
  split; [|done].
  apply list_elem_of_lookup in Hin as [i Hi]. unfold with_avg_mpg in Hi.
  by apply list_lookup_imap_Some in Hi as (r & Hr & ->).
Qed.

(** The result has five rows, or as many as pass the brand filter. *)
Lemma top_5_length : length top = min 5 (length rows).
Proof.
  unfold top_5. by rewrite nlargest_length, frame_rows, length_fmap.
Qed.

(** The rows of [top_5] are rows of the inventory, each one once. *)
Lemma top_5_rows :
  Forall
    (fun a =>
       this a ∈ rows ∧ Score a = score (this a)
       ∧ df !! label (this a) = Some (data (this a))
       ∧ (brand_pref ≠ [] → isin (Brand (data (this a))) brand_pref = true))
    top
  ∧ NoDup (label ∘ this <$> top).
Proof.
  split.
  - apply Forall_forall. intros a Ha.
    apply (nlargest_subseteq tie 5), frame_elem in Ha as [Ha Hs].
    split; [done|]. split; [done|]. by apply rows_lookup.
  - unfold top_5.
    destruct (nlargest_sublist_perm tie 5 frame) as (ranked & Hperm & ->).
    rewrite fmap_take. eapply sublist_NoDup; [|apply sublist_take].
    rewrite Hperm. apply sorted_labels_NoDup.
    apply (StronglySorted_fmap _ (fun a b => label_lt (this a) (this b)) lt);
      [done|].
    apply scored_frame_sorted.
Qed.

(** The order of [top_5] when every row has a score: larger scores first;
    a row left out ranks after every row selected; and with more than five
    rows, equal scores in the order of the inventory. *)
Lemma top_5_order :
  Forall (fun r => is_Some (Score r)) frame →
  StronglySorted score_ge top
  ∧ (∀ a b : scored, a ∈ top → b ∈ frame → b ∉ top → ranks_before a b)
  ∧ ((5 < length rows)%nat → StronglySorted ranks_before top).
Proof.
  intros Hall.
  assert (length frame = length rows) as Hlen
    by (by rewrite frame_rows, length_fmap).
  destruct (decide (5 < length rows)%nat) as [Hmany|Hfew].
  - pose proof (sort_desc_sorted frame Hall
                  (scored_frame_sorted _ _ _ _ _ _ _ _)) as Hsorted.
    rewrite <- (take_drop 5 (sort_desc frame)) in Hsorted.
    assert (top = take 5 (sort_desc frame)) as Htop
      by (apply nlargest_all_scored; [done|lia]).
    rewrite Htop.
    assert (StronglySorted ranks_before (take 5 (sort_desc frame)))
      as Hfront by (by eapply StronglySorted_app_1_l).
    split; [|split; [|done]].
    + eapply StronglySorted_impl; [exact Hfront|].
      apply ranks_before_score_ge.
    + intros a b Ha Hb Hnot.
      eapply StronglySorted_app_1_elem_of; [exact Hsorted|done|].
      rewrite <- sort_desc_perm, <- (take_drop 5 (sort_desc frame)) in Hb.
      by apply elem_of_app in Hb as [Hb|Hb].
  - assert (top = sort_values tie frame) as Htop
      by (apply nlargest_all_scored_whole; [done|lia]).
    rewrite Htop. split; [|split; [|lia]].
    + apply sort_desc_score_ge. by rewrite arrange_perm.
    + intros a b _ Hb Hnot. exfalso. apply Hnot.
      by rewrite sort_values_perm.
Qed.

(** C9, as stated, fails: these four rows all have a score, the rows 0 and
    1 have the same score and so have the rows 2 and 3, and with the sort
    leaving equal scores in reverse the later row of each pair comes
    first. *)
Lemma equal_scores_later_row_first :
  has_score <$> scored_frame four_cars [] 25000 10 0 0 0 0
  = [true; true; true; true]
  ∧ (fun a =>
       (fun b => score_le (Score a) (Score b))
       <$> scored_frame four_cars [] 25000 10 0 0 0 0)
    <$> scored_frame four_cars [] 25000 10 0 0 0 0
    = [ [true; true; true; true]; [true; true; true; true];
        [false; false; true; true]; [false; false; true; true] ]
  ∧ label ∘ this <$> top_5 later_first four_cars [] 25000 10 0 0 0 0
    = [3; 2; 1; 0]%nat
  ∧ label ∘ this <$> top_5 keeps_order four_cars [] 25000 10 0 0 0 0
    = [2; 3; 0; 1]%nat.
Proof. repeat split; vm_compute; reflexivity. Qed.

(** C9, amended.  When every row of the filtered inventory has a numeric
    score, the result holds the rows of [top_5] in their order, and
    [top_5] is: five rows, or all of them when five or fewer pass the brand
    filter; rows of the inventory with their total scores, none of them
    twice; in the order "larger score first"; and every row left out comes
    after every row selected in the order "larger score first, on equal
    scores the row that is earlier in the inventory first".  When more
    than five rows pass the filter the rows of [top_5] are in that second
    order too; with five rows or fewer the order among equal scores is the
    choice of the sort. *)
Theorem top_5_largest_scores_first :
  Forall (fun r => is_Some (Score r)) frame →
  records recs = data ∘ this <$> top
  ∧ length top = min 5 (length rows)
  ∧ Forall
      (fun a =>
         this a ∈ rows ∧ Score a = score (this a)
         ∧ df !! label (this a) = Some (data (this a))
         ∧ (brand_pref ≠ [] →
            isin (Brand (data (this a))) brand_pref = true))
      top
  ∧ NoDup (label ∘ this <$> top)
  ∧ StronglySorted score_ge top
  ∧ (∀ a b : scored, a ∈ top → b ∈ frame → b ∉ top → ranks_before a b)
  ∧ ((5 < length rows)%nat → StronglySorted ranks_before top).
Proof.
  intros Hall.
  split; [apply generate_recs_records|].
  split; [apply top_5_length|].
  split; [apply top_5_rows|]. split; [apply top_5_rows|].
  by apply top_5_order.
Qed.

Lemma apply_step_nan (c : criterion) (rows : list row) (pref : Q)
    (weight : Z) (r : row) :
  apply_step c rows pref weight r NaN = NaN.
Proof.
  unfold apply_step.
  by destruct (0 <? weight)%Z, (gt0 (max_diff c rows pref)), c.
Qed.

Lemma apply_step_missing (c : criterion) (rows : list row) (pref : Q)
    (weight : Z) (r : row) (s : cell) :
  (0 < weight)%Z → gt0 (max_diff c rows pref) = true →
  column c r = NaN →
  apply_step c rows pref weight r s = NaN.
Proof.
  intros Hw%Z.ltb_lt Hgt Hcol. unfold apply_step.
  rewrite Hw, Hgt, Hcol. by destruct s, (max_diff c rows pref).
Qed.

Lemma total_missing (c : criterion) (r : row) :
  (0 < weight c)%Z →
  gt0 (max_diff c (filtered df brand_pref) (pref c)) = true →
  column c r = NaN →
  total (filtered df brand_pref) price_pref price_weight mpg_pref
    mpg_weight size_pref size_weight r = NaN.
Proof.
  intros Hw Hgt Hcol. unfold total. destruct c; simpl in Hw, Hgt.
  - rewrite (apply_step_missing price) by done.
    by rewrite !apply_step_nan.
  - rewrite (apply_step_missing mpg) by done.
    by rewrite apply_step_nan.
  - by rewrite (apply_step_missing size).
Qed.

Lemma frame_Score (r : scored) :
  r ∈ frame →
  Score r
  = total (filtered df brand_pref) price_pref price_weight mpg_pref
      mpg_weight size_pref size_weight (this r).
Proof.
  rewrite scored_frame_rowwise. intros Hr.
  by apply list_elem_of_fmap in Hr as (r0 & -> & _).
Qed.

(** In a list of rows with a score followed by rows without, nothing with
    a score comes after a row without. *)
Lemma nan_rows_last (scored_rows nan_rows before after : list scored)
    (a : scored) :
  Forall (fun r => is_Some (Score r)) scored_rows →
  Forall (fun r => Score r = NaN) nan_rows →
  scored_rows ++ nan_rows = before ++ a :: after →
  Score a = NaN →
  Forall (fun r => Score r = NaN) after.
Proof.
  intros Hscored Hnan. revert before.
  induction Hscored as [|x l [sx Hx] _ IH]; intros before Heq Ha.
  - simpl in Heq. rewrite Heq in Hnan.
    by apply Forall_app in Hnan as [_ [_ Hnan]%Forall_cons].
  - destruct before as [|y before]; simplify_eq/=.
    by eapply IH.
Qed.

(** C10.  For a criterion of positive weight whose largest difference is
    positive: a row of the filtered inventory whose value for the criterion
    is missing gets the score NaN; in [top_5] such a row is followed by
    rows without a score only, so it is never ahead of a row with a numeric
    score; and when at least five rows have a numeric score no such row is
    in [top_5]. *)
Theorem missing_value_ranks_last (c : criterion) :
  (0 < weight c)%Z →
  gt0 (max_diff c (filtered df brand_pref) (pref c)) = true →
  (∀ r : scored, r ∈ frame → column c (this r) = NaN → Score r = NaN)
  ∧ (∀ (before after : list scored) (a : scored),
       top = before ++ a :: after → column c (this a) = NaN →
       Forall (fun b => Score b = NaN) after)
  ∧ ((5 ≤ length (List.filter has_score frame))%nat →
     Forall (fun a => column c (this a) ≠ NaN) top).
Proof.
  intros Hw Hgt.
  assert (∀ r : scored, r ∈ frame → column c (this r) = NaN → Score r = NaN)
    as Hnan.
  { intros r Hr Hcol. rewrite (frame_Score r Hr).
    by apply (total_missing c). }
  split; [exact Hnan|]. split.
  - intros before after a Htop Hcol.
    assert (a ∈ frame) as Ha.
    { apply (nlargest_subseteq tie 5). fold top. rewrite Htop.
      apply elem_of_app. right. by left. }
    unfold top_5 in Htop.
    destruct (nlargest_ranked tie 5 frame) as (sorted & Hperm & _ & Heq).
    rewrite Heq in Htop. clear Heq.
    set (ranked := sorted ++ List.filter (negb ∘ has_score) frame) in *.
    assert (ranked = before ++ a :: (after ++ drop 5 ranked)) as Hranked.
    { rewrite <- (take_drop 5 ranked) at 1. rewrite Htop.
      by rewrite <- app_assoc. }
    cut (Forall (fun b => Score b = NaN) (after ++ drop 5 ranked));
      [by intros [? _]%Forall_app|].
    eapply (nan_rows_last _ _ before (after ++ drop 5 ranked) a);
      [| |exact Hranked|by apply Hnan].
    + rewrite Hperm. eapply Forall_impl; [apply filter_Forall|].
      intros r Hr. by apply has_score_true.
    + eapply Forall_impl; [apply filter_Forall|].
      intros r Hr. simpl in Hr. apply has_score_false.
      by destruct (has_score r).
  - intros Hfive. unfold top_5.
    destruct (nlargest_ranked tie 5 frame) as (sorted & Hperm & _ & ->).
    rewrite take_app_le by (by rewrite Hperm).
    apply Forall_forall. intros a Ha Hcol.
    apply subseteq_take in Ha. rewrite Hperm in Ha.
    apply list_elem_of_In, filter_In in Ha as [Ha%list_elem_of_In Hscore].
    apply has_score_true in Hscore as [sa Hsa].
    rewrite (Hnan a Ha Hcol) in Hsa. discriminate.
Qed.

End Ranking.

(** With a target price of 25000 the two cars at 25000 come first, then the
    three cars that are 5000 away, each group in inventory order, whatever
    the sort would choose: six rows are more than five. *)
Example top_5_of_six_cars :
  label ∘ this <$> top_5 later_first six_cars [] 25000 10 0 0 0 0
  = [1; 3; 0; 2; 5]%nat.
Proof. vm_compute. reflexivity. Qed.

(** With all weights 0 the first five rows come out in their order. *)
Example top_5_all_weights_zero :
  label ∘ this <$> top_5 later_first six_cars [] 25000 0 30 0 5 0
  = [0; 1; 2; 3; 4]%nat.
Proof. vm_compute. reflexivity. Qed.

(** The car without a price is left out although it is the first row. *)
Example top_5_of_unpriced_first :
  label ∘ this <$> top_5 keeps_order unpriced_first [] 25000 10 0 0 0 0
  = [2; 4; 1; 3; 6]%nat.
Proof. vm_compute. reflexivity. Qed.

Lemma top_5_largest_scores_first_witness :
  records (generate_recs later_first six_cars [] 25000 10 0 0 0 0)
  = data ∘ this <$> top_5 later_first six_cars [] 25000 10 0 0 0 0
  ∧ length (top_5 later_first six_cars [] 25000 10 0 0 0 0)
    = min 5 (length (filtered six_cars []))
  ∧ Forall
      (fun a =>
         this a ∈ filtered six_cars []
         ∧ Score a
           = total (filtered six_cars []) 25000 10 0 0 0 0 (this a)
         ∧ six_cars !! label (this a) = Some (data (this a))
         ∧ (@nil string ≠ [] → isin (Brand (data (this a))) [] = true))
      (top_5 later_first six_cars [] 25000 10 0 0 0 0)
  ∧ NoDup (label ∘ this <$> top_5 later_first six_cars [] 25000 10 0 0 0 0)
  ∧ StronglySorted score_ge (top_5 later_first six_cars [] 25000 10 0 0 0 0)
  ∧ (∀ a b : scored,
       a ∈ top_5 later_first six_cars [] 25000 10 0 0 0 0 →
       b ∈ scored_frame six_cars [] 25000 10 0 0 0 0 →
       b ∉ top_5 later_first six_cars [] 25000 10 0 0 0 0 →
       ranks_before a b)
  ∧ ((5 < length (filtered six_cars []))%nat →
     StronglySorted ranks_before
       (top_5 later_first six_cars [] 25000 10 0 0 0 0)).
Proof.
  apply top_5_largest_scores_first.
  vm_compute. repeat (constructor; [eexists; reflexivity|]). constructor.
Defined.

Lemma missing_value_ranks_last_witness :
  (∀ r : scored,
     r ∈ scored_frame unpriced_first [] 25000 10 0 0 0 0 →
     column price (this r) = NaN → Score r = NaN)
  ∧ (∀ (before after : list scored) (a : scored),
       top_5 keeps_order unpriced_first [] 25000 10 0 0 0 0
       = before ++ a :: after →
       column price (this a) = NaN →
       Forall (fun b => Score b = NaN) after)
  ∧ ((5 ≤ length (List.filter has_score
                    (scored_frame unpriced_first [] 25000 10 0 0 0 0)))%nat →
     Forall (fun a => column price (this a) ≠ NaN)
       (top_5 keeps_order unpriced_first [] 25000 10 0 0 0 0)).
Proof.
  apply (missing_value_ranks_last keeps_order unpriced_first [] 25000 10 0 0
           0 0 price).
  - reflexivity.
  - vm_compute. reflexivity.
Defined.

End WheelFinderSpec.

(** * Further properties *)

Module ToyotaCarsSpec.
Import Toyota ToyotaCars.

Lemma flush_concat (cars : list (list tag)) (current_car : list tag) :
  concat (flush cars current_car) = concat cars ++ current_car.
Proof.
  destruct current_car as [|t current_car]; simpl.
  - by rewrite app_nil_r.
  - by rewrite concat_app; simpl; rewrite app_nil_r.
Qed.

Lemma group_tags_concat (result_list : list tag) (cars : list (list tag))
    (current_car : list tag) :
  concat (group_tags result_list cars current_car)
  = concat cars ++ current_car ++ result_list.
Proof.
  revert cars current_car.
  induction result_list as [|tag rest IH]; intros cars current_car; simpl.
  - by rewrite flush_concat, app_nil_r.
  - destruct (is_start current_car tag); rewrite IH.
    + rewrite flush_concat. by rewrite <- app_assoc.
    + by rewrite <- (app_assoc current_car).
Qed.

Lemma fragments_clean (car : list tag) : fragments (clean car) = take 7 car.
Proof.
  assert (∀ l : list tag, fragments (Frag <$> l) = l) as Hfrag.
  { induction l as [|t l IH]; [done|]. unfold fragments in *. csimpl.
    by rewrite IH. }
  unfold clean.
  destruct (Nat.ltb_spec (length car) 7) as [Hlt|Hge].
  - unfold fragments. rewrite omap_app. fold (fragments (Frag <$> take (length car) car)).
    rewrite Hfrag, firstn_all, take_ge by lia.
    replace (omap _ (replicate _ NA)) with (@nil tag); [by rewrite app_nil_r|].
    induction (7 - length car)%nat as [|n IH]; [done|]. by csimpl.
  - destruct (Nat.ltb_spec 7 (length car)) as [Hgt|Hle].
    + apply Hfrag.
    + rewrite Hfrag, take_ge; [done|lia].
Qed.

Lemma fragments_concat_clean (cars : list (list tag)) :
  fragments (concat (clean <$> cars)) = concat (take 7 <$> cars).
Proof.
  induction cars as [|car cars IH]; [done|]. csimpl.
  unfold fragments in *. rewrite omap_app, IH.
  f_equal. apply fragments_clean.
Qed.

Lemma concat_take_sublist (cars : list (list tag)) :
  concat (take 7 <$> cars) `sublist_of` concat cars.
Proof.
  induction cars as [|raw cars IH]; [done|].
  csimpl. apply sublist_app; [apply sublist_take|apply IH].
Qed.

Lemma concat_take_short (cars : list (list tag)) :
  Forall (fun raw => (length raw ≤ 7)%nat) cars →
  concat (take 7 <$> cars) = concat cars.
Proof.
  induction 1 as [|raw cars Hraw _ IH]; [done|].
  csimpl. by rewrite take_ge, IH.
Qed.

(** X1.  The fragments of the cars that [fill_cars] returns, read car by
    car, are fragments of the stream in the order of the stream: nothing is
    invented, repeated or moved.  When no group has more than seven
    fragments they are the whole stream. *)
Theorem fill_cars_keeps_stream_order (result_list : list tag) :
  fragments (concat (fill_cars result_list)) `sublist_of` result_list
  ∧ (Forall (fun raw => (length raw ≤ 7)%nat) (group_tags result_list [] []) →
     fragments (concat (fill_cars result_list)) = result_list).
Proof.
  unfold fill_cars. rewrite fragments_concat_clean.
  pose proof (group_tags_concat result_list [] []) as Hconcat.
  simpl in Hconcat. split.
  - rewrite <- Hconcat at 2. apply concat_take_sublist.
  - intros Hshort. rewrite <- Hconcat at 2. by apply concat_take_short.
Qed.

(** An invariant of the groups: it holds of a group of one fragment and is
    kept when a fragment that is not a start is appended to a group. *)
Lemma group_tags_Forall (P : list tag → Prop) (result_list : list tag)
    (cars : list (list tag)) (current_car : list tag) :
  (∀ tag, P [tag]) →
  (∀ car tag, car ≠ [] → P car → is_start car tag = false →
     P (car ++ [tag])) →
  Forall P cars → (current_car ≠ [] → P current_car) →
  Forall P (group_tags result_list cars current_car).
Proof.
  intros Hone Hsnoc. revert cars current_car.
  induction result_list as [|tag rest IH]; intros cars current_car Hcars Hcur;
    simpl.
  - destruct current_car as [|t current_car]; [done|].
    apply Forall_app. split; [done|]. constructor; [by apply Hcur|done].
  - assert (Forall P (flush cars current_car)) as Hflush.
    { destruct current_car as [|t current_car]; [done|].
      apply Forall_app. split; [done|]. constructor; [by apply Hcur|done]. }
    destruct (is_start current_car tag) eqn:Hstart.
    + apply IH; [done|]. intros _. apply Hone.
    + apply IH; [done|]. intros _.
      destruct current_car as [|t current_car]; [apply Hone|].
      apply Hsnoc; [done| |done]. by apply Hcur.
Qed.

Lemma is_start_false (car : list tag) (tag : tag) :
  is_start car tag = false →
  interior_tag tag = false
  ∧ (car ≠ [] → (7 ≤ length car)%nat → body_word_tag tag = false).
Proof.
  unfold is_start, interior_tag, body_word_tag, EXPECTED_FIELDS_PER_CAR.
  destruct (interior_color_span (find_span tag)); [done|].
  intros Hstart. split; [done|]. intros Hcar Hlen.
  rewrite bool_decide_eq_false_2 in Hstart by done.
  by rewrite (proj2 (Nat.leb_le _ _) Hlen) in Hstart.
Qed.

(** X2.  Every car that [fill_cars] returns begins with a fragment of the
    stream, never with ['NA'], and there are at most as many cars as
    fragments (none for the empty stream). *)
Theorem fill_cars_cars_start_with_fragment (result_list : list tag) :
  Forall (fun car => ∃ t rest, car = Frag t :: rest) (fill_cars result_list)
  ∧ (length (fill_cars result_list) ≤ length result_list)%nat.
Proof.
  assert (Forall (fun raw => raw ≠ []) (group_tags result_list [] []))
    as Hne.
  { apply group_tags_Forall; [done| |done|done].
    intros car tag _ _ _. by destruct car. }
  split.
  - unfold fill_cars. apply Forall_fmap.
    eapply Forall_impl; [exact Hne|]. intros [|t raw] Hraw; [done|].
    simpl. unfold clean.
    destruct (length (t :: raw) <? 7)%nat;
      [|destruct (7 <? length (t :: raw))%nat]; csimpl; eauto.
  - unfold fill_cars. rewrite length_fmap.
    rewrite <- (group_tags_concat result_list [] []) at 2. simpl.
    induction Hne as [|raw cars Hraw _ IH]; [done|].
    csimpl. rewrite length_app. destruct raw; [done|]. simpl. lia.
Qed.

Lemma filter_nil_false {A} (f : A → bool) (l : list A) :
  Forall (fun x => f x = false) l → List.filter f l = [].
Proof. induction 1 as [|x l Hx _ IH]; [done|]. simpl. by rewrite Hx. Qed.

(** X3.  An interior-colour fragment is always the first fragment of its
    car: the later fragments of a car are never interior-colour fragments.
    So there are at least as many cars as interior-colour fragments. *)
Theorem interior_colour_starts_a_car (result_list : list tag) :
  Forall (fun car => Forall (fun t => interior_tag t = false)
                       (tail (fragments car)))
    (fill_cars result_list)
  ∧ (length (List.filter interior_tag result_list)
     ≤ length (fill_cars result_list))%nat.
Proof.
  assert (Forall (fun raw => Forall (fun t => interior_tag t = false)
                               (tail raw))
            (group_tags result_list [] [])) as Htail.
  { apply group_tags_Forall; [| |done|done].
    - intros tag. constructor.
    - intros [|t car] tag _ Hcar Hstart; [done|]. simpl in *.
      apply Forall_app. split; [done|].
      constructor; [|done]. by apply is_start_false in Hstart as [? _]. }
  split.
  - unfold fill_cars. apply Forall_fmap.
    eapply Forall_impl; [exact Htail|]. intros raw Hraw. simpl.
    rewrite fragments_clean. destruct raw as [|t raw]; [constructor|].
    simpl in *. by apply Forall_take.
  - unfold fill_cars. rewrite length_fmap.
    rewrite <- (group_tags_concat result_list [] []) at 1. simpl.
    induction Htail as [|raw cars Hraw _ IH]; [done|].
    csimpl. rewrite List.filter_app, length_app.
    destruct raw as [|t raw]; simpl in *; [lia|].
    rewrite (filter_nil_false _ raw) by done.
    destruct (interior_tag t); simpl; lia.
Qed.

(** X4.  What the cut to seven slots discards (the fragments after the
    seventh of a group) is never a boundary: neither an interior-colour
    fragment nor a fragment with one of the body-type words of the second
    rule. *)
Theorem truncation_discards_no_boundary (result_list : list tag) :
  Forall
    (fun raw =>
       Forall (fun t => interior_tag t = false ∧ body_word_tag t = false)
         (drop 7 raw))
    (group_tags result_list [] []).
Proof.
  apply group_tags_Forall; [| |done|done].
  - intros tag. constructor.
  - intros car tag Hne Hcar Hstart. rewrite drop_app.
    apply Forall_app. split; [done|].
    apply is_start_false in Hstart as [Hint Hbody].
    destruct (le_lt_dec 7 (length car)) as [Hlen|Hlen].
    + replace (7 - length car)%nat with 0%nat by lia. simpl.
      constructor; [|done]. split; [done|]. by apply Hbody.
    + destruct (7 - length car)%nat as [|n] eqn:Hn; [lia|].
      simpl. rewrite drop_nil. constructor.
Qed.

(** *** [parse_car_details] on the cars of [fill_cars] *)

Lemma field_of_car_key (car_dict : gmap string string) (tag : slot)
    (k : string) :
  field_of car_dict tag = Some k → k ∈ car_keys.
Proof.
  unfold field_of, car_keys.
  repeat (match goal with
          | |- (if ?b then _ else _) = _ → _ => destruct b
          end; [intros [= <-]; set_solver|]).
  done.
Qed.

Lemma initial_dict_dom : dom initial_dict = car_keys.
Proof.
  unfold initial_dict, car_keys. rewrite !dom_insert_L, dom_empty_L.
  set_solver.
Qed.

(** X5.  Whatever the fragments are, [parse_car_details] returns a
    dictionary with exactly the seven keys it starts from: no key is ever
    added or removed. *)
Theorem parse_car_details_seven_keys (car_tags : list slot) :
  dom (parse_car_details car_tags) = car_keys.
Proof.
  unfold parse_car_details, parse_tags.
  generalize initial_dict_dom. generalize initial_dict.
  induction car_tags as [|tag car_tags IH]; intros car_dict Hdom; [done|].
  simpl. apply IH. rewrite ToyotaSpec.parse_tag_field_of.
  destruct (field_of car_dict tag) as [k|] eqn:Hk; [|done].
  apply field_of_car_key in Hk. rewrite dom_insert_L, Hdom.
  apply subseteq_union_1_L. by apply singleton_subseteq_l.
Qed.

Lemma parse_tag_NA (car_dict : gmap string string) :
  parse_tag car_dict NA = car_dict.
Proof. reflexivity. Qed.

Lemma parse_tags_padding (car_dict : gmap string string)
    (car_tags : list slot) (k : nat) :
  parse_tags car_dict (car_tags ++ replicate k NA)
  = parse_tags car_dict car_tags.
Proof.
  unfold parse_tags. rewrite foldl_app.
  generalize (foldl parse_tag car_dict car_tags). intros d.
  induction k as [|k IH]; [done|]. simpl. by rewrite parse_tag_NA.
Qed.

(** X6.  The ['NA'] strings that [fill_cars] pads a car with leave the
    dictionary as it is, so each row of [car_table] is the parse of the
    first seven fragments of its group and of nothing else. *)
Theorem car_table_parses_first_seven (result_list : list tag) :
  car_table result_list
  = (fun raw => parse_tags initial_dict (Frag <$> take 7 raw))
    <$> group_tags result_list [] [].
Proof.
  unfold car_table, fill_cars. rewrite <- list_fmap_compose.
  apply list_fmap_ext. intros _ raw _. simpl.
  unfold parse_car_details, clean.
  destruct (Nat.ltb_spec (length raw) 7) as [Hlt|Hge].
  - rewrite parse_tags_padding, firstn_all. by rewrite take_ge by lia.
  - destruct (Nat.ltb_spec 7 (length raw)) as [Hgt|Hle]; [done|].
    by rewrite take_ge by lia.
Qed.

Lemma initial_dict_values (k v : string) :
  initial_dict !! k = Some v → v = "NA".
Proof.
  unfold initial_dict. intros Hk.
  repeat (apply lookup_insert_Some in Hk as [[_ <-]|[_ Hk]]; [done|]).
  by rewrite lookup_empty in Hk.
Qed.

Lemma parse_tags_values (car_tags : list slot)
    (car_dict : gmap string string) (k v : string) :
  parse_tags car_dict car_tags !! k = Some v →
  car_dict !! k = Some v ∨ ∃ tag, tag ∈ car_tags ∧ v = slot_text tag.
Proof.
  revert car_dict. induction car_tags as [|tag car_tags IH];
    intros car_dict Hv; [by left|].
  simpl in Hv. apply IH in Hv as [Hv|(t & Ht & ->)].
  - rewrite ToyotaSpec.parse_tag_field_of in Hv.
    destruct (field_of car_dict tag) as [k'|]; [|by left].
    apply lookup_insert_Some in Hv as [[_ <-]|[_ Hv]]; [|by left].
    right. exists tag. split; [left|done].
  - right. exists t. split; [by right|done].
Qed.

(** X7.  Every value of the dictionary that [parse_car_details] returns is
    ['NA'] or the text of one of the elements it was given. *)
Theorem parse_car_details_values_come_from_tags (car_tags : list slot)
    (k v : string) :
  parse_car_details car_tags !! k = Some v →
  v = "NA" ∨ ∃ tag, tag ∈ car_tags ∧ v = slot_text tag.
Proof.
  intros Hv. apply parse_tags_values in Hv as [Hv|Hv]; [left|by right].
  by apply (initial_dict_values k).
Qed.

Lemma parse_car_details_values_come_from_tags_witness :
  "All Wheel Drive" = "NA"
  ∨ ∃ tag, tag ∈ two_drive_types ∧ "All Wheel Drive" = slot_text tag.
Proof.
  apply (parse_car_details_values_come_from_tags two_drive_types
           "Drive Type").
  vm_compute. reflexivity.
Defined.

Lemma parse_tags_body_type_kept (car_tags : list slot)
    (car_dict : gmap string string) (v : string) :
  car_dict !! "Body Type" = Some v → v ≠ "NA" →
  parse_tags car_dict car_tags !! "Body Type" = Some v.
Proof.
  revert car_dict. induction car_tags as [|tag car_tags IH];
    intros car_dict Hv Hna; [done|].
  simpl. apply IH; [|done]. by apply ToyotaSpec.parse_tag_body_type_kept.
Qed.

(** X8.  [Body Type] is the text of the first fragment that has one of the
    body-type words and is not the interior-colour fragment, whatever comes
    after it. *)
Theorem body_type_is_first_body_fragment (earlier later : list slot)
    (tag : slot) :
  Forall (fun t => slot_interior_color t = true
                   ∨ Str.any_in body_keywords (slot_text t) = false)
    earlier →
  slot_interior_color tag = false →
  Str.any_in body_keywords (slot_text tag) = true →
  parse_car_details (earlier ++ tag :: later) !! "Body Type"
  = Some (slot_text tag).
Proof.
  intros Hearlier Hint Hbody.
  unfold parse_car_details, parse_tags. rewrite foldl_app. simpl.
  fold (parse_tags initial_dict earlier).
  set (d := parse_tags initial_dict earlier).
  assert (d !! "Body Type" = Some "NA") as Hd.
  { unfold d. rewrite ToyotaSpec.parse_tags_untouched; [done|].
    eapply Forall_impl; [exact Hearlier|]. intros t Ht d'.
    unfold field_of. destruct Ht as [Ht | Ht]; rewrite Ht; [done|]. simpl.
    repeat (match goal with
            | |- (if ?b then _ else _) ≠ _ => destruct b
            end; [done|]).
    done. }
  fold (parse_tags (parse_tag d tag) later).
  apply parse_tags_body_type_kept.
  - rewrite ToyotaSpec.parse_tag_field_of. unfold field_of.
    rewrite Hint, Hbody, Hd. simpl. apply lookup_insert_eq.
  - intros Hna. rewrite Hna in Hbody. discriminate.
Qed.

Lemma body_type_is_first_body_fragment_witness :
  parse_car_details
    ([Frag (interior "Black")] ++ Frag (detail "4dr Car")
       :: [Frag (detail "Sport Utility"); NA; NA; NA; NA])
    !! "Body Type"
  = Some "4dr Car".
Proof.
  apply (body_type_is_first_body_fragment [Frag (interior "Black")]
           [Frag (detail "Sport Utility"); NA; NA; NA; NA]
           (Frag (detail "4dr Car"))).
  - repeat constructor.
  - reflexivity.
  - reflexivity.
Defined.

End ToyotaCarsSpec.

Module RankingSpec.
Import Pandas WheelFinder Ranking.

Section Recs.

Variable (tie : nat → nat).
Variables (df : list car) (brand_pref : list string).
Variables (price_pref : Q) (price_weight : Z).
Variables (mpg_pref : Q) (mpg_weight : Z).
Variables (size_pref : Q) (size_weight : Z).

Local Abbreviation rows := (filtered df brand_pref).
Local Abbreviation frame :=
  (scored_frame df brand_pref price_pref price_weight mpg_pref mpg_weight
     size_pref size_weight).
Local Abbreviation top :=
  (top_5 tie df brand_pref price_pref price_weight mpg_pref mpg_weight
     size_pref size_weight).
Local Abbreviation recs :=
  (generate_recs tie df brand_pref price_pref price_weight mpg_pref
     mpg_weight size_pref size_weight).
Local Abbreviation score r :=
  (total rows price_pref price_weight mpg_pref mpg_weight
     size_pref size_weight r).
Local Abbreviation weight c :=
  (weight_of price_weight mpg_weight size_weight c).
Local Abbreviation pref c := (pref_of price_pref mpg_pref size_pref c).

(** X9.  The result has [min 5 n] rows, for [n] the number of inventory
    rows that pass the brand filter, whether or not the rows have a
    score: never more than five, and fewer only when fewer rows pass. *)
Theorem generate_recs_row_count :
  length (records recs) = min 5 (length (filtered df brand_pref)).
Proof.
  rewrite WheelFinderSpec.generate_recs_records, length_fmap.
  apply WheelFinderSpec.top_5_length.
Qed.

(** X10.  Whether or not the rows have a score, every row of the result
    is the inventory row at its label, of an allowed brand when an
    allow-list is given, and no inventory row is selected twice. *)
Theorem top_5_rows_come_from_inventory :
  Forall
    (fun a =>
       df !! label (this a) = Some (data (this a))
       ∧ (brand_pref ≠ [] → isin (Brand (data (this a))) brand_pref = true))
    top
  ∧ NoDup (label ∘ this <$> top).
Proof.
  destruct (WheelFinderSpec.top_5_rows tie df brand_pref price_pref
              price_weight mpg_pref mpg_weight size_pref size_weight)
    as [Hrows Hnodup].
  split; [|done]. eapply Forall_impl; [exact Hrows|].
  by intros a (_ & _ & ? & ?).
Qed.

Lemma apply_step_skipped (c : criterion) (l : list row) (p : Q) (w : Z)
    (r : row) (s : cell) :
  (w ≤ 0)%Z → apply_step c l p w r s = s.
Proof.
  intros Hw. unfold apply_step.
  by rewrite (proj2 (Z.ltb_ge 0 w) Hw).
Qed.

Lemma sort_desc_equal_scores (l : list scored) (s : Q) :
  Forall (fun a => Score a = Some s) l → sort_desc l = l.
Proof.
  induction 1 as [|x l Hx Hl IH]; [done|]. simpl. rewrite IH.
  destruct Hl as [|y l Hy _]; [done|]. simpl.
  rewrite Hx, Hy. simpl.
  by rewrite (proj2 (Qle_bool_iff s s)) by apply Qle_refl.
Qed.

(** X11.  When no weight is positive, every score is 0.  The result is
    then the first five rows that pass the brand filter, in inventory
    order, when more than five rows pass; when five or fewer pass it holds
    all of them, in the order in which the sort leaves equal scores. *)
Theorem no_positive_weight_keeps_inventory_order :
  (price_weight ≤ 0)%Z → (mpg_weight ≤ 0)%Z → (size_weight ≤ 0)%Z →
  Forall (fun a => Score a = Some 0%Q) frame
  ∧ ((5 < length (filtered df brand_pref))%nat →
     records recs = data <$> take 5 (filtered df brand_pref))
  ∧ ((length (filtered df brand_pref) ≤ 5)%nat →
     records recs ≡ₚ data <$> filtered df brand_pref).
Proof.
  intros Hp Hm Hs.
  assert (Forall (fun a => Score a = Some 0%Q) frame) as Hzero.
  { apply Forall_forall. intros a [_ ->]%WheelFinderSpec.frame_elem.
    unfold total. by rewrite !apply_step_skipped. }
  assert (Forall (fun a => is_Some (Score a)) frame) as Hall.
  { eapply Forall_impl; [exact Hzero|]. intros a ->. by eexists. }
  assert (length frame = length rows) as Hlen
    by (by rewrite WheelFinderSpec.frame_rows, length_fmap).
  split; [done|].
  rewrite WheelFinderSpec.generate_recs_records. unfold top_5. split.
  - intros Hmany.
    rewrite WheelFinderSpec.nlargest_all_scored by (done || lia).
    rewrite (sort_desc_equal_scores _ 0) by done.
    rewrite WheelFinderSpec.frame_rows, <- fmap_take, <- list_fmap_compose.
    by apply list_fmap_ext.
  - intros Hfew.
    rewrite WheelFinderSpec.nlargest_all_scored_whole by (done || lia).
    rewrite WheelFinderSpec.sort_values_perm.
    rewrite WheelFinderSpec.frame_rows, <- list_fmap_compose.
    by erewrite list_fmap_ext.
Qed.

Lemma smax_bound (s : list cell) (m : Q) :
  smax s = Some m → Forall (fun x => ∀ a, x = Some a → (a <= m)%Q) s.
Proof.
  intros Hm. by apply WheelFinderSpec.foldl_max_skipna_bound in Hm as [_ ?].
Qed.

(** The difference of a row of the frame is between 0 and the largest
    difference. *)
Lemma distance_bound (c : criterion) (l : list row) (p m d : Q) (r : row) :
  r ∈ l → max_diff c l p = Some m → distance c p r = Some d →
  (0 <= d <= m)%Q.
Proof.
  intros Hr Hm Hd. split.
  - unfold distance in Hd. destruct (column c r) as [x|]; [|done].
    change (Some (Qabs (x - p)) = Some d) in Hd.
    assert (d = Qabs (x - p)) as -> by congruence. apply Qabs_nonneg.
  - apply smax_bound in Hm. rewrite Forall_forall in Hm.
    apply (Hm (distance c p r)); [|done].
    unfold diffs, sabs, ssub_scalar. rewrite <- !list_fmap_compose.
    apply list_elem_of_fmap. by exists r.
Qed.

Lemma normalised_bound (d m : Q) (w : Z) :
  (0 <= d <= m)%Q → (0 < m)%Q → (0 < w)%Z →
  (0 <= (inject_Z 1 - d / m) * inject_Z w <= inject_Z w)%Q.
Proof.
  intros [Hd Hdm] Hm Hw.
  assert (0 < inject_Z w)%Q as Hw'.
  { change 0%Q with (inject_Z 0). by rewrite <- Zlt_Qlt. }
  assert (0 <= d / m <= 1)%Q as [H0 H1].
  { split.
    - apply Qle_shift_div_l; [done|]. lra.
    - apply Qle_shift_div_r; [done|]. lra. }
  change (inject_Z 1) with 1%Q. generalize dependent (d / m)%Q.
  intros q H0 H1. split.
  - apply Qmult_le_0_compat; lra.
  - assert ((1 - q) * inject_Z w <= 1 * inject_Z w)%Q
      by (apply Qmult_le_compat_r; lra).
    lra.
Qed.

(** A block raises a numeric score by at most the weight, and never lowers
    it. *)
Lemma apply_step_bound (c : criterion) (l : list row) (p : Q) (w : Z)
    (r : row) (s : cell) (b : Q) :
  r ∈ l → apply_step c l p w r s = Some b →
  ∃ a, s = Some a ∧ (a <= b <= a + inject_Z (Z.max 0 w))%Q.
Proof.
  intros Hr. unfold apply_step.
  destruct (Z.ltb_spec 0 w) as [Hw|Hw].
  - rewrite Z.max_r by lia.
    assert (0 < inject_Z w)%Q as Hw'.
    { change 0%Q with (inject_Z 0). by rewrite <- Zlt_Qlt. }
    destruct (gt0 (max_diff c l p)) eqn:Hgt.
    + apply WheelFinderSpec.gt0_spec in Hgt as (m & Hm & Hpos).
      rewrite Hm. fold (distance c p r).
      destruct s as [a|]; [|done].
      destruct (distance c p r) as [d|] eqn:Hd; [|done].
      intros Hb. exists a. split; [done|].
      change (Some (a + (inject_Z 1 - d / m) * inject_Z w)%Q = Some b) in Hb.
      assert (b = (a + (inject_Z 1 - d / m) * inject_Z w)%Q) as ->
        by congruence.
      pose proof (distance_bound c l p m d r Hr Hm Hd) as Hdm.
      pose proof (normalised_bound d m w Hdm Hpos Hw). lra.
    + destruct s as [a|]; [|by destruct c].
      destruct c; intros Hb.
      * exists a. split; [done|]. assert (b = a) as -> by congruence. lra.
      * exists a. split; [done|]. assert (b = a) as -> by congruence. lra.
      * exists a. split; [done|].
        change (Some (a + inject_Z w)%Q = Some b) in Hb.
        assert (b = (a + inject_Z w)%Q) as -> by congruence. lra.
  - rewrite Z.max_l by lia. intros ->. exists b. split; [done|].
    change (inject_Z 0) with 0%Q. lra.
Qed.

(** X12.  A numeric score is never negative and never more than the sum
    of the positive weights. *)
Theorem score_within_weight_budget :
  Forall
    (fun a =>
       ∀ s : Q, Score a = Some s →
         (0 <= s
          <= inject_Z (weight_budget price_weight mpg_weight size_weight))%Q)
    frame.
Proof.
  apply Forall_forall. intros a [Hr ->]%WheelFinderSpec.frame_elem s Hs. unfold total in Hs.
  apply apply_step_bound in Hs as (s2 & Hs2 & Hb3); [|done].
  apply apply_step_bound in Hs2 as (s1 & Hs1 & Hb2); [|done].
  apply apply_step_bound in Hs1 as (s0 & [= <-] & Hb1); [|done].
  unfold weight_budget. rewrite !inject_Z_plus. lra.
Qed.

Lemma apply_step_nan_inv (c : criterion) (l : list row) (p : Q) (w : Z)
    (r : row) (s : cell) :
  apply_step c l p w r s = NaN →
  s = NaN
  ∨ ((0 < w)%Z ∧ gt0 (max_diff c l p) = true ∧ column c r = NaN).
Proof.
  unfold apply_step. destruct (Z.ltb_spec 0 w) as [Hw|Hw]; [|by left].
  destruct (gt0 (max_diff c l p)) eqn:Hgt.
  - pose proof Hgt as (m & Hm & _)%WheelFinderSpec.gt0_spec. rewrite Hm.
    destruct s as [a|]; [|by left].
    destruct (column c r) as [x|]; [discriminate|]. by right.
  - destruct s as [a|]; [|by left]. by destruct c.
Qed.

(** X13.  A row of the frame has no score exactly when some criterion of
    positive weight, whose largest difference is positive, has no value in
    that row.  In particular a missing value costs a row its score only if
    the values that are present differ from the target. *)
Theorem score_missing_iff_weighted_value_missing :
  Forall
    (fun a =>
       Score a = NaN
       ↔ ∃ c : criterion,
           (0 < weight c)%Z
           ∧ gt0 (max_diff c rows (pref c)) = true
           ∧ column c (this a) = NaN)
    frame.
Proof.
  apply Forall_forall. intros a [Hr ->]%WheelFinderSpec.frame_elem. split.
  - unfold total. intros Hs.
    apply apply_step_nan_inv in Hs as [Hs|Hs]; [|by exists size].
    apply apply_step_nan_inv in Hs as [Hs|Hs]; [|by exists mpg].
    apply apply_step_nan_inv in Hs as [Hs|Hs]; [done|by exists price].
  - intros (c & Hw & Hgt & Hcol).
    by apply (WheelFinderSpec.total_missing df brand_pref price_pref
                price_weight mpg_pref mpg_weight size_pref size_weight c).
Qed.

Lemma foldl_max_skipna_None (s : list cell) (acc : cell) :
  foldl max_skipna acc s = NaN → acc = NaN ∧ Forall (fun x => x = NaN) s.
Proof.
  revert acc. induction s as [|x s IH]; intros acc Hnone; [done|].
  simpl in Hnone. apply IH in Hnone as [Hacc Hs].
  destruct acc as [a|], x as [b|]; try done. split; [done|]. by constructor.
Qed.

Lemma max_diff_present (c : criterion) (l : list row) (p d : Q) (r : row) :
  r ∈ l → distance c p r = Some d → ∃ m, max_diff c l p = Some m.
Proof.
  intros Hr Hd. destruct (max_diff c l p) as [m|] eqn:Hm; [by exists m|].
  apply foldl_max_skipna_None in Hm as [_ Hm]. rewrite Forall_forall in Hm.
  rewrite (Hm (distance c p r)) in Hd; [done|].
  unfold diffs, sabs, ssub_scalar. rewrite <- !list_fmap_compose.
  apply list_elem_of_fmap. by exists r.
Qed.

Section Single.

Variable (c : criterion).
Hypothesis (Hweight : (0 < weight c)%Z).
Hypothesis (Hothers : ∀ c' : criterion, c' ≠ c → (weight c' ≤ 0)%Z).
Hypothesis (Hpresent : Forall (fun r => is_Some (column c r)) rows).

Lemma score_single (r : row) :
  score r = apply_step c rows (pref c) (weight c) r (Some 0%Q).
Proof.
  clear Hweight Hpresent. unfold total.
  destruct c; simpl;
    repeat (first
      [ rewrite (apply_step_skipped price)
          by (by apply (Hothers price))
      | rewrite (apply_step_skipped mpg)
          by (by apply (Hothers mpg))
      | rewrite (apply_step_skipped size)
          by (by apply (Hothers size)) ]);
    done.
Qed.

(** The score of a row under the one criterion that counts. *)
Lemma score_single_cases (r : row) :
  r ∈ rows →
  ∃ d m : Q,
    distance c (pref c) r = Some d
    ∧ max_diff c rows (pref c) = Some m
    ∧ (0 <= d <= m)%Q
    ∧ ((0 < m)%Q
       ∧ score r
         = Some (0 + (inject_Z 1 - d / m) * inject_Z (weight c))%Q
       ∨ (m <= 0)%Q).
Proof.
  intros Hr. pose proof Hpresent as Hall. rewrite Forall_forall in Hall.
  destruct (Hall r Hr) as [x Hx].
  assert (distance c (pref c) r = Some (Qabs (x - pref c))) as Hd
    by (unfold distance; by rewrite Hx).
  destruct (max_diff_present c rows _ _ r Hr Hd) as [m Hm].
  exists (Qabs (x - pref c)), m. split; [done|]. split; [done|].
  split; [by apply (distance_bound c rows (pref c) m _ r)|].
  destruct (Qlt_le_dec 0 m) as [Hpos|Hnpos]; [left|by right].
  split; [done|]. rewrite score_single. unfold apply_step.
  rewrite (proj2 (Z.ltb_lt _ _) Hweight).
  rewrite (proj2 (WheelFinderSpec.gt0_spec _)) by eauto.
  by rewrite Hm, Hx.
Qed.

Lemma score_ge_not_farther (a b : scored) :
  a ∈ frame → b ∈ frame → score_ge a b → not_farther c (pref c) a b.
Proof.
  intros [Ha Hsa]%WheelFinderSpec.frame_elem [Hb Hsb]%WheelFinderSpec.frame_elem Hrank.
  destruct (score_single_cases _ Ha) as (da & m & Hda & Hm & Hdam & Hcase).
  destruct (score_single_cases _ Hb) as (db & m' & Hdb & Hm' & Hdbm & Hcase').
  assert (m' = m) as -> by congruence.
  unfold not_farther. rewrite Hda, Hdb.
  destruct Hcase as [[Hpos Hscore]|Hzero]; [|lra].
  destruct Hcase' as [[_ Hscore']|Hzero]; [|lra].
  unfold score_ge in Hrank.
  rewrite Hsa, Hsb, Hscore, Hscore' in Hrank.
  assert (0 < inject_Z (weight c))%Q as Hw.
  { change 0%Q with (inject_Z 0). by rewrite <- Zlt_Qlt. }
  assert ((inject_Z 1 - db / m) * inject_Z (weight c)
          <= (inject_Z 1 - da / m) * inject_Z (weight c))%Q as Hle by lra.
  apply Qmult_le_r in Hle; [|done].
  assert (da / m <= db / m)%Q as Hdiv by lra.
  unfold Qdiv in Hdiv. apply Qmult_le_r in Hdiv; [done|].
  by apply Qinv_lt_0_compat.
Qed.

(** X14.  When one criterion alone has a positive weight and every row has
    a value for it, [top_5] lists rows by their distance to the target,
    nearest first, and every row left out is at least as far from the
    target as every row selected. *)
Theorem single_criterion_ranks_by_distance :
  StronglySorted (not_farther c (pref c)) top
  ∧ (∀ a b : scored,
       a ∈ top → b ∈ frame → b ∉ top → not_farther c (pref c) a b).
Proof.
  assert (Forall (fun a => is_Some (Score a)) frame) as Hall.
  { apply Forall_forall. intros a [Ha ->]%WheelFinderSpec.frame_elem.
    destruct (score_single_cases _ Ha) as (d & m & Hd & Hm & _ & Hcase).
    destruct Hcase as [[_ ->]|Hzero]; [by eexists|].
    rewrite score_single. unfold apply_step.
    rewrite (proj2 (Z.ltb_lt _ _) Hweight).
    destruct (gt0 (max_diff c rows (pref c))) eqn:Hgt.
    - apply WheelFinderSpec.gt0_spec in Hgt as (m' & Hm' & Hpos).
      assert (m' = m) as -> by congruence. lra.
    - destruct c; by eexists. }
  destruct (WheelFinderSpec.top_5_order tie df brand_pref price_pref
              price_weight mpg_pref mpg_weight size_pref size_weight Hall)
    as (Hsorted & Hout & _).
  assert (top ⊆ frame) as Hsub by apply WheelFinderSpec.nlargest_subseteq.
  split.
  - eapply WheelFinderSpec.StronglySorted_impl_elem; [exact Hsorted|].
    intros a b Ha Hb. apply score_ge_not_farther; by apply Hsub.
  - intros a b Ha Hb Hnot. apply score_ge_not_farther; [by apply Hsub|done|].
    by apply WheelFinderSpec.ranks_before_score_ge, Hout.
Qed.

End Single.

End Recs.

Lemma no_positive_weight_keeps_inventory_order_witness :
  Forall (fun a => Score a = Some 0%Q)
    (scored_frame six_cars [] 25000 0 30 0 5 0)
  ∧ ((5 < length (filtered six_cars []))%nat →
     records (generate_recs later_first six_cars [] 25000 0 30 0 5 0)
     = data <$> take 5 (filtered six_cars []))
  ∧ ((length (filtered six_cars []) ≤ 5)%nat →
     records (generate_recs later_first six_cars [] 25000 0 30 0 5 0)
     ≡ₚ data <$> filtered six_cars []).
Proof.
  apply (no_positive_weight_keeps_inventory_order later_first six_cars []
           25000 0 30 0 5 0); lia.
Defined.

Lemma single_criterion_ranks_by_distance_witness :
  StronglySorted (not_farther price 25000)
    (top_5 later_first four_cars [] 25000 10 0 0 0 0)
  ∧ (∀ a b : scored,
       a ∈ top_5 later_first four_cars [] 25000 10 0 0 0 0 →
       b ∈ scored_frame four_cars [] 25000 10 0 0 0 0 →
       b ∉ top_5 later_first four_cars [] 25000 10 0 0 0 0 →
       not_farther price 25000 a b).
Proof.
  apply (single_criterion_ranks_by_distance later_first four_cars [] 25000
           10 0 0 0 0 price).
  - reflexivity.
  - intros [] Hc; simpl; [done|lia|lia].
  - vm_compute. repeat (constructor; [eexists; reflexivity|]). constructor.
Defined.

End RankingSpec.

Module RegexSpec.
Import Regex.

Lemma after_nil (p : option ascii) : after p [] = p.
Proof. done. Qed.

Lemma after_cons (p : option ascii) (a : ascii) (run : list ascii) :
  after p (a :: run) = after (Some a) run.
Proof.
  unfold after. destruct run as [|b run]; [done|].
  change (last (a :: b :: run)) with (last (b :: run)).
  destruct (last (b :: run)) eqn:Hlast; [done|].
  by apply last_None in Hlast.
Qed.

Lemma after_app (p : option ascii) (run1 run2 : list ascii) :
  after p (run1 ++ run2) = after (after p run1) run2.
Proof.
  revert p. induction run1 as [|a run1 IH]; intros p; [done|].
  simpl. by rewrite !after_cons, IH.
Qed.

Lemma star_sound (c : ascii → bool) (g : gmap nat (list ascii))
    (k : state → option state) (l : list ascii) (p : option ascii)
    (found : state) :
  star c g k p l = Some found →
  ∃ run l', l = run ++ l' ∧ Forall (fun a => c a = true) run
            ∧ k (State (after p run) l' g) = Some found.
Proof.
  revert p. induction l as [|a l IH]; intros p Hstar; simpl in Hstar.
  - by exists [], [].
  - destruct (c a) eqn:Hc; [|by exists [], (a :: l)].
    destruct (star c g k (Some a) l) as [found'|] eqn:Hrec;
      [|by exists [], (a :: l)].
    simplify_eq. destruct (IH _ Hrec) as (run & l' & -> & Hrun & Hk).
    exists (a :: run), l'. rewrite after_cons.
    split; [done|]. split; [by constructor|]. congruence.
Qed.

Lemma lazy_sound (c : ascii → bool) (g : gmap nat (list ascii))
    (k : state → option state) (l : list ascii) (p : option ascii)
    (found : state) :
  lazy c g k p l = Some found →
  ∃ run l', l = run ++ l' ∧ Forall (fun a => c a = true) run
            ∧ k (State (after p run) l' g) = Some found.
Proof.
  revert p. induction l as [|a l IH]; intros p Hlazy; simpl in Hlazy.
  - destruct (k (State p [] g)) eqn:Hk; [|done].
    simplify_eq. by exists [], [].
  - destruct (k (State p (a :: l) g)) eqn:Hk;
      [simplify_eq; by exists [], (a :: l)|].
    destruct (c a) eqn:Hc; [|done].
    destruct (IH _ Hlazy) as (run & l' & -> & Hrun & Hk').
    exists (a :: run), l'. rewrite after_cons.
    split; [done|]. split; [by constructor|done].
Qed.

(** Every answer of the matcher is an answer of the continuation at a
    state that the expression reaches. *)
Lemma go_sound (r : re) (s : state) (k : state → option state)
    (found : state) :
  go r s k = Some found → ∃ s', reach r s s' ∧ k s' = Some found.
Proof.
  revert s k. induction r as [|c|c|c|r1 IH1 r2 IH2|r1 IH1 r2 IH2|n r IH| |];
    intros s k Hgo.
  - by exists s.
  - simpl in Hgo. destruct (rest s) as [|a l] eqn:Hrest; [done|].
    destruct (c a) eqn:Hc; [|done].
    exists (State (Some a) l (groups s)). split; [|done]. by exists a.
  - simpl in Hgo.
    apply star_sound in Hgo as (run & l' & Hrest & Hrun & Hk).
    exists (State (after (before s) run) l' (groups s)).
    split; [|done]. by exists run.
  - simpl in Hgo.
    apply lazy_sound in Hgo as (run & l' & Hrest & Hrun & Hk).
    exists (State (after (before s) run) l' (groups s)).
    split; [|done]. by exists run.
  - simpl in Hgo. apply IH1 in Hgo as (m & Hm & Hgo).
    apply IH2 in Hgo as (s' & Hs' & Hk).
    exists s'. split; [by exists m|done].
  - simpl in Hgo. destruct (go r1 s k) as [found'|] eqn:Hfirst.
    + simplify_eq. apply IH1 in Hfirst as (s' & Hs' & Hk).
      exists s'. split; [by left|done].
    + apply IH2 in Hgo as (s' & Hs' & Hk).
      exists s'. split; [by right|done].
  - simpl in Hgo. apply IH in Hgo as (m & Hm & Hk).
    eexists. split; [|exact Hk]. by exists m.
  - simpl in Hgo. exists s. simpl.
    destruct (rest s) as [|a [|b l]] eqn:Hrest; [by auto| |done].
    destruct (Ascii.eqb_spec a "010"); [|done]. subst. by auto.
  - simpl in Hgo.
    destruct (xorb (is_word (before s)) (is_word (head (rest s)))) eqn:Hb;
      [|done].
    by exists s.
Qed.


(** A match found by [search_from] starts at some position of the text. *)
Lemma search_from_sound (r : re) (l : list ascii) (p : option ascii)
    (found : state) :
  search_from r p l = Some found →
  ∃ pre post, l = pre ++ post
              ∧ reach r (State (after p pre) post ∅) found.
Proof.
  revert p. induction l as [|a l IH]; intros p Hsearch; simpl in Hsearch.
  - destruct (go r (State p [] ∅) Some) eqn:Hgo; [|done].
    apply go_sound in Hgo as (s' & Hs' & ?). exists [], []. by simplify_eq.
  - destruct (go r (State p (a :: l) ∅) Some) eqn:Hgo.
    + apply go_sound in Hgo as (s' & Hs' & ?).
      exists [], (a :: l). by simplify_eq.
    + apply IH in Hsearch as (pre & post & -> & Hreach).
      exists (a :: pre), post. by rewrite after_cons.
Qed.

(** The match at the first position is the one [search_from] returns. *)
Lemma search_from_here (r : re) (l : list ascii) (p : option ascii)
    (found : state) :
  go r (State p l ∅) Some = Some found → search_from r p l = Some found.
Proof. intros Hgo. destruct l; simpl; by rewrite Hgo. Qed.

(** No match at the first character: the search goes on behind it. *)
Lemma search_from_next (r : re) (a : ascii) (l : list ascii)
    (p : option ascii) :
  go r (State p (a :: l) ∅) Some = None →
  search_from r p (a :: l) = search_from r (Some a) l.
Proof. intros Hgo. simpl. by rewrite Hgo. Qed.

(** A [Star] that meets a run of its class up to the end of the text, or up
    to a character outside the class, takes the whole run if the rest of the
    expression matches behind it. *)
Lemma star_run (c : ascii → bool) (g : gmap nat (list ascii))
    (k : state → option state) (run l : list ascii) (p : option ascii)
    (found : state) :
  Forall (fun a => c a = true) run →
  (∀ b, head l = Some b → c b = false) →
  k (State (after p run) l g) = Some found →
  star c g k p (run ++ l) = Some found.
Proof.
  intros Hrun Hl. revert p. induction Hrun as [|a run Ha Hrun IH]; intros p Hk.
  - destruct l as [|b l]; simpl; [done|]. by rewrite (Hl b).
  - simpl. rewrite Ha, (IH (Some a)); [done|].
    by rewrite <- (after_cons p).
Qed.

Lemma star_run_end (c : ascii → bool) (g : gmap nat (list ascii))
    (k : state → option state) (run : list ascii) (p : option ascii)
    (found : state) :
  Forall (fun a => c a = true) run →
  k (State (after p run) [] g) = Some found →
  star c g k p run = Some found.
Proof.
  intros Hrun Hk. pose proof (star_run c g k run [] p found Hrun) as Hstar.
  rewrite app_nil_r in Hstar. by apply Hstar.
Qed.

(** A [Star] in front of a character outside its class matches nothing. *)
Lemma star_none (c : ascii → bool) (g : gmap nat (list ascii))
    (k : state → option state) (l : list ascii) (p : option ascii) :
  (∀ b, head l = Some b → c b = false) →
  star c g k p l = k (State p l g).
Proof. intros Hl. destruct l as [|b l]; simpl; [done|]. by rewrite (Hl b). Qed.

(** *** [sub_from] *)

(** No match at the first character: it is copied. *)
Lemma sub_from_copy (r : re) (repl : list ascii) (p : option ascii)
    (a : ascii) (l : list ascii) :
  go r (State p (a :: l) ∅) Some = None →
  sub_from r repl 0 p (a :: l) = a :: sub_from r repl 0 (Some a) l.
Proof. intros Hgo. cbn [sub_from]. by rewrite Hgo. Qed.

(** The characters of a match are passed over. *)
Lemma sub_from_skip (r : re) (repl : list ascii) (p : option ascii)
    (taken l : list ascii) :
  sub_from r repl (length taken) p (taken ++ l)
  = sub_from r repl 0 (after p taken) l.
Proof.
  revert p. induction taken as [|a taken IH]; intros p; [done|].
  cbn [length app sub_from]. by rewrite IH, (after_cons p).
Qed.

(** A match at the first character: it is replaced, and the search goes on
    behind it. *)
Lemma sub_from_match (r : re) (repl : list ascii) (p : option ascii)
    (a : ascii) (taken l : list ascii) (found : state) :
  go r (State p (a :: taken ++ l) ∅) Some = Some found →
  rest found = l →
  sub_from r repl 0 p (a :: taken ++ l)
  = repl ++ sub_from r repl 0 (after (Some a) taken) l.
Proof.
  intros Hgo Hrest. cbn [sub_from]. rewrite Hgo, Hrest.
  replace (length (a :: taken ++ l) - length l)%nat with (S (length taken))
    by (cbn [length]; rewrite length_app; lia).
  by rewrite sub_from_skip.
Qed.

End RegexSpec.

Module TextSpec.
Import Text.
Local Open Scope string_scope.













(** *** Numbers and their digits *)

Lemma digit_char_digit (d : N) :
  (d < 10)%N →
  Str.is_digit (digit_char d) = true
  ∧ (N_of_ascii (digit_char d) - 48)%N = d.
Proof.
  intros Hd. assert (∃ n : nat, (n < 10)%nat ∧ d = N.of_nat n) as (n & Hn & ->).
  { exists (N.to_nat d). split; lia. }
  do 10 (destruct n as [|n]; [by vm_compute|]). lia.
Qed.

Lemma read_digits_snoc (acc d : N) (l : list ascii) :
  (d < 10)%N →
  read_digits acc (l ++ [digit_char d])%list
  = (fun v => 10 * v + d)%N <$> read_digits acc l.
Proof.
  intros Hd. destruct (digit_char_digit d Hd) as [Hdigit Hvalue].
  revert acc. induction l as [|a l IH]; intros acc; simpl.
  - by rewrite Hdigit, Hvalue.
  - destruct (Str.is_digit a); [apply IH|done].
Qed.

(** The digits of a number: at least one, all of them digits, and read
    back they give the number. *)
Lemma digits_of_spec (fuel : nat) (n : N) :
  (n < 2 ^ N.of_nat fuel)%N →
  digits_of fuel n ≠ []
  ∧ Forall (fun a => Str.is_digit a = true) (digits_of fuel n)
  ∧ read_digits 0 (digits_of fuel n) = Some n.
Proof.
  revert n. induction fuel as [|fuel IH]; intros n Hn.
  - assert (n = 0%N) as -> by (simpl in Hn; lia).
    split; [done|]. split; [|by vm_compute].
    constructor; [by vm_compute|constructor].
  - cbn [digits_of]. destruct (N.ltb_spec n 10) as [Hsmall|Hbig].
    + destruct (digit_char_digit n Hsmall) as [Hdigit Hvalue].
      split; [done|]. split; [by repeat constructor|].
      simpl. rewrite Hdigit, Hvalue. f_equal; lia.
    + assert (n / 10 < 2 ^ N.of_nat fuel)%N as Hdiv.
      { apply N.Div0.div_lt_upper_bound.
        replace (N.of_nat (S fuel)) with (N.succ (N.of_nat fuel)) in Hn
          by lia.
        rewrite N.pow_succ_r' in Hn. lia. }
      destruct (IH _ Hdiv) as (Hne & Hall & Hread).
      assert (n mod 10 < 10)%N as Hmod by (by apply N.mod_lt).
      split; [by destruct (digits_of fuel (n / 10))|].
      split.
      * apply Forall_app. split; [done|]. repeat constructor.
        by apply digit_char_digit.
      * rewrite read_digits_snoc, Hread by done. simpl. f_equal.
        rewrite (N.div_mod n 10) at 3 by done. lia.
Qed.

Lemma str_of_int_digits (n : N) :
  ∃ digits,
    str_of_int n = string_of_list_ascii digits
    ∧ digits ≠ []
    ∧ Forall (fun a => Str.is_digit a = true) digits
    ∧ read_digits 0 digits = Some n.
Proof.
  exists (digits_of (N.to_nat (N.size n)) n). split; [done|].
  apply digits_of_spec. rewrite N2Nat.id. apply N.size_gt.
Qed.

Lemma read_digits_Some (acc : N) (l : list ascii) :
  Forall (fun a => Str.is_digit a = true) l →
  ∃ n, read_digits acc l = Some n.
Proof.
  intros Hl. revert acc. induction Hl as [|a l Ha _ IH]; intros acc; simpl.
  - by exists acc.
  - rewrite Ha. apply IH.
Qed.

(** *** [split_str] *)

Lemma prefix_head (a b : ascii) (s1 s2 : string) :
  String.prefix (String a s1) (String b s2) = true → a = b.
Proof. simpl. by destruct (ascii_dec a b). Qed.

(** A text without the first character of the separator is one part. *)
Lemma split_str_one_part (c : ascii) (sep : string) (l : list ascii) :
  Forall (fun a => a ≠ c) l →
  split_str (String c sep) 0 (string_of_list_ascii l)
  = [string_of_list_ascii l].
Proof.
  induction 1 as [|a l Ha _ IH]; [done|].
  cbn [string_of_list_ascii split_str].
  destruct (String.prefix _ _) eqn:Hprefix.
  - apply prefix_head in Hprefix. by subst.
  - by rewrite IH.
Qed.

(** A text with the separator once, behind characters that are not its
    first character, is two parts. *)
Lemma split_str_two_parts (c : ascii) (sep : string) (l1 l2 : list ascii) :
  Forall (fun a => a ≠ c) l1 → Forall (fun a => a ≠ c) l2 →
  split_str (String c sep) 0
    (string_of_list_ascii (l1 ++ c :: list_ascii_of_string sep ++ l2)%list)
  = [string_of_list_ascii l1; string_of_list_ascii l2].
Proof.
  intros Hl1 Hl2. induction Hl1 as [|a l1 Ha _ IH].
  - cbn [app string_of_list_ascii split_str].
    assert (String.prefix (String c sep)
              (String c (string_of_list_ascii
                           (list_ascii_of_string sep ++ l2)%list)) = true)
      as ->.
    { simpl. destruct (ascii_dec c c); [|done]. clear.
      induction sep as [|b sep IH]; [by destruct l2|].
      simpl. by destruct (ascii_dec b b). }
    f_equal. cbn [String.length Nat.sub]. rewrite Nat.sub_0_r.
    assert (∀ s : string,
              split_str (String c sep) (String.length s)
                (string_of_list_ascii (list_ascii_of_string s ++ l2)%list)
              = [string_of_list_ascii l2]) as Hskip.
    { induction s as [|b s IHs]; [by apply split_str_one_part|].
      simpl. apply IHs. }
    apply Hskip.
  - cbn [app string_of_list_ascii split_str].
    destruct (String.prefix _ _) eqn:Hprefix.
    + apply prefix_head in Hprefix. by subst.
    + by rewrite IH.
Qed.

End TextSpec.

Module HondaLinksSpec.
Import HondaLinks.

(** What the loop adds to the dict are links of the list, in their order,
    each under its own key. *)
Lemma first_instances_picks (links : list string)
    (first_instance : list (string * string)) :
  ∃ picked : list string,
    first_instances links first_instance
    = first_instance ++ ((fun u => (model_key u, u)) <$> picked)
    ∧ picked `sublist_of` links.
Proof.
  revert first_instance.
  induction links as [|url rest IH]; intros first_instance; simpl.
  - exists []. by rewrite app_nil_r.
  - destruct (bool_decide (model_key url ∈ first_instance.*1)).
    + destruct (IH first_instance) as (picked & -> & Hsub).
      exists picked. split; [done|]. by apply sublist_cons.
    + destruct (IH (first_instance ++ [(model_key url, url)]))
        as (picked & -> & Hsub).
      exists (url :: picked). split; [by rewrite <- app_assoc|].
      by apply sublist_skip.
Qed.

Lemma first_instances_NoDup (links : list string)
    (first_instance : list (string * string)) :
  NoDup first_instance.*1 → NoDup (first_instances links first_instance).*1.
Proof.
  revert first_instance.
  induction links as [|url rest IH]; intros first_instance Hnd; [done|].
  simpl. case_bool_decide as Hin; [by apply IH|].
  apply IH. rewrite fmap_app. apply NoDup_app. split; [done|].
  split; [|apply NoDup_singleton].
  intros k Hk [->|[]%elem_of_nil]%elem_of_cons. done.
Qed.

Lemma find_unique_models_keys (links : list string) :
  (first_instances links []).*1 = model_key <$> find_unique_models links.
Proof.
  unfold find_unique_models.
  destruct (first_instances_picks links []) as (picked & -> & _).
  simpl. by rewrite <- !list_fmap_compose.
Qed.

(** X15.  [find_unique_models] returns links of its argument, in the order
    of the argument and without repeating one, and no two of them have the
    same model key. *)
Theorem find_unique_models_sublist_distinct_keys (links : list string) :
  find_unique_models links `sublist_of` links
  ∧ NoDup (model_key <$> find_unique_models links).
Proof.
  split.
  - unfold find_unique_models.
    destruct (first_instances_picks links []) as (picked & -> & Hsub).
    simpl. rewrite <- list_fmap_compose.
    rewrite (list_fmap_ext _ id picked) by done. by rewrite list_fmap_id.
  - rewrite <- find_unique_models_keys. apply first_instances_NoDup.
    constructor.
Qed.

Lemma first_instances_elem (links : list string)
    (first_instance : list (string * string)) (k u : string) :
  (k, u) ∈ first_instances links first_instance
  ↔ (k, u) ∈ first_instance
    ∨ (k = model_key u
       ∧ (model_key u ∉ first_instance.*1)
       ∧ (∃ earlier later,
            links = earlier ++ u :: later
            ∧ Forall (fun x => model_key x ≠ model_key u) earlier)).
Proof.
  revert first_instance.
  induction links as [|url rest IH]; intros first_instance; simpl.
  - split; [by left|]. intros [?|(_ & _ & earlier & later & Heq & _)]; [done|].
    by destruct earlier.
  - case_bool_decide as Hin; rewrite IH; clear IH.
    + split.
      * intros [?|(-> & Hnew & earlier & later & -> & Hearlier)]; [by left|].
        right. split; [done|]. split; [done|].
        exists (url :: earlier), later. split; [done|].
        constructor; [|done]. intros Heq. by rewrite Heq in Hin.
      * intros [?|(-> & Hnew & earlier & later & Heq & Hearlier)]; [by left|].
        right. split; [done|]. split; [done|].
        destruct earlier as [|x earlier]; simplify_eq/=; [done|].
        exists earlier, later. split; [done|]. by inv Hearlier.
    + rewrite elem_of_app, list_elem_of_singleton, fmap_app, not_elem_of_app.
      simpl. rewrite not_elem_of_cons. split.
      * intros [[?|[= -> ->]]|(-> & (Hnew & Hne & _) & earlier & later & ->
                                 & Hearlier)].
        -- by left.
        -- right. split; [done|]. split; [done|].
           exists [], rest. by split.
        -- right. split; [done|]. split; [done|].
           exists (url :: earlier), later. split; [done|].
           constructor; [|done]. congruence.
      * intros [?|(-> & Hnew & earlier & later & Heq & Hearlier)];
          [by left; left|].
        destruct earlier as [|x earlier]; simplify_eq/=.
        -- left. by right.
        -- right. inv Hearlier. split; [done|].
           split; [split; [done|split; [congruence|apply not_elem_of_nil]]|].
           by exists earlier, later.
Qed.

(** X16.  The links that [find_unique_models] returns are exactly the first
    links of each model key: a link is returned if and only if no link
    before it in the list has the same key. *)
Theorem find_unique_models_first_of_each_key (links : list string)
    (u : string) :
  u ∈ find_unique_models links
  ↔ ∃ earlier later,
      links = earlier ++ u :: later
      ∧ Forall (fun x => model_key x ≠ model_key u) earlier.
Proof.
  unfold find_unique_models. rewrite list_elem_of_fmap. split.
  - intros ([k u'] & -> & Hin). simpl.
    apply first_instances_elem in Hin
      as [[]%elem_of_nil|(_ & _ & Hfirst)]. done.
  - intros Hfirst. exists (model_key u, u). split; [done|].
    apply first_instances_elem. right. split; [done|].
    split; [apply not_elem_of_nil|done].
Qed.

Lemma first_instances_distinct (links : list string)
    (first_instance : list (string * string)) :
  NoDup (model_key <$> links) →
  (∀ u, u ∈ links → model_key u ∉ first_instance.*1) →
  first_instances links first_instance
  = first_instance ++ ((fun u => (model_key u, u)) <$> links).
Proof.
  revert first_instance.
  induction links as [|url rest IH]; intros first_instance Hnd Hnew; simpl.
  - by rewrite app_nil_r.
  - csimpl in Hnd. apply NoDup_cons in Hnd as [Hurl Hnd].
    rewrite bool_decide_eq_false_2 by (apply Hnew; left).
    rewrite IH; [by rewrite <- app_assoc|done|].
    intros u Hu. rewrite fmap_app, not_elem_of_app. split.
    + apply Hnew. by right.
    + simpl. rewrite not_elem_of_cons. split; [|apply not_elem_of_nil].
      intros Heq. apply Hurl. rewrite <- Heq.
      by apply list_elem_of_fmap_2.
Qed.

(** X17.  A list whose links have different keys is returned as it is; so
    [find_unique_models] applied to its own result changes nothing. *)
Theorem find_unique_models_idempotent (links : list string) :
  (NoDup (model_key <$> links) → find_unique_models links = links)
  ∧ find_unique_models (find_unique_models links)
    = find_unique_models links.
Proof.
  assert (∀ l, NoDup (model_key <$> l) → find_unique_models l = l) as Hid.
  { intros l Hnd. unfold find_unique_models.
    rewrite first_instances_distinct; [|done|].
    - simpl. rewrite <- list_fmap_compose.
      rewrite (list_fmap_ext _ id l) by done. by rewrite list_fmap_id.
    - intros u _. apply not_elem_of_nil. }
  split; [apply Hid|].
  apply Hid. rewrite <- find_unique_models_keys.
  apply first_instances_NoDup. constructor.
Qed.

(** Two links for the Civic Sport and one for the Pilot Elite. *)
Example find_unique_models_sample :
  find_unique_models [civic_sport_1; pilot_elite; civic_sport_2]
  = [civic_sport_1; pilot_elite].
Proof. vm_compute. reflexivity. Qed.

End HondaLinksSpec.

Module HondaPageSpec.
Import Honda HondaPage.

(** Membership and inclusion for lists of keys that are written out. *)
Ltac keys := compute_done.

Lemma same_outside_refl (keys : list string) (m : gmap string value) :
  same_outside keys m m.
Proof. by intros k _. Qed.

Lemma same_outside_trans (keys1 keys2 keys : list string)
    (m1 m2 m3 : gmap string value) :
  same_outside keys1 m1 m2 → same_outside keys2 m2 m3 →
  keys1 ⊆ keys → keys2 ⊆ keys →
  same_outside keys m1 m3.
Proof.
  intros H12 H23 Hk1 Hk2 k Hk.
  rewrite H23, H12; [done| |]; intros ?; apply Hk; auto.
Qed.

Lemma same_outside_insert (key : string) (v : value)
    (m : gmap string value) :
  same_outside [key] m (<[key := v]> m).
Proof.
  intros k Hk. apply lookup_insert_ne. intros ->. apply Hk. by left.
Qed.

Lemma same_outside_dom (keys : list string) (m m' : gmap string value) :
  same_outside keys m m' → dom m' ⊆ dom m ∪ list_to_set keys.
Proof.
  intros Hsame k Hk. apply elem_of_union.
  destruct (decide (k ∈ keys)) as [Hin|Hout].
  - right. by apply elem_of_list_to_set.
  - left. apply elem_of_dom. rewrite <- (Hsame k Hout). by apply elem_of_dom.
Qed.

Lemma url_block_same (url : string) (m : gmap string value) :
  same_outside ["Year"; "Make"; "Model"; "Trim"] m (url_block url m).
Proof.
  intros k Hk. unfold url_block.
  destruct (Regex.search url_pattern url) as [found|]; [|done].
  assert (k ≠ "Year" ∧ k ≠ "Make" ∧ k ≠ "Model" ∧ k ≠ "Trim")
    as (? & ? & ? & ?).
  { repeat split; intros ->; apply Hk; keys. }
  case_match; by rewrite !lookup_insert_ne.
Qed.

Lemma first_found_same (key : string) (patterns : list Regex.re)
    (page_text : string) (m : gmap string value) :
  same_outside [key] m (first_found key patterns page_text m).
Proof.
  induction patterns as [|pattern rest IH]; simpl; [apply same_outside_refl|].
  destruct (Regex.search pattern page_text); [|done].
  case_bool_decide; [done|]. apply same_outside_insert.
Qed.

Lemma mpg_loop_same (patterns : list Regex.re) (page_text : string)
    (m m' : gmap string value) :
  mpg_loop patterns page_text m = Some m' → same_outside ["MPG"] m m'.
Proof.
  induction patterns as [|pattern rest IH]; simpl; intros Hloop.
  - simplify_eq. apply same_outside_refl.
  - destruct (Regex.search pattern page_text) as [found|]; [|by apply IH].
    destruct (int (Regex.group found 1)) as [city|]; [|done].
    cbn [mbind option_bind] in Hloop.
    destruct (int (Regex.group found 2)) as [highway|]; [|done].
    cbn [mbind option_bind] in Hloop.
    case_match; [|by apply IH]. simplify_eq. apply same_outside_insert.
Qed.

Lemma price_loop_same (patterns : list Re.pattern) (page_text : string)
    (m : gmap string value) :
  same_outside ["Price"] m (price_loop patterns page_text m).
Proof.
  induction patterns as [|pattern rest IH]; simpl; [apply same_outside_refl|].
  repeat case_match; try done. apply same_outside_insert.
Qed.

Lemma hybrid_fallback_same (m : gmap string value) :
  same_outside ["Fuel Type"] m (hybrid_fallback m).
Proof.
  unfold hybrid_fallback.
  repeat case_match; try apply same_outside_refl. apply same_outside_insert.
Qed.

(** The MPG entry after the loop: the one from before, or a text made of
    two numbers between 10 and 150. *)
Lemma mpg_loop_lookup (patterns : list Regex.re) (page_text : string)
    (m m' : gmap string value) :
  mpg_loop patterns page_text m = Some m' →
  m' !! "MPG" = m !! "MPG"
  ∨ ∃ city highway,
      m' !! "MPG" = Some (VStr (mpg_text city highway))
      ∧ (10 ≤ city ≤ 150)%N ∧ (10 ≤ highway ≤ 150)%N.
Proof.
  induction patterns as [|pattern rest IH]; simpl; intros Hloop.
  - simplify_eq. by left.
  - destruct (Regex.search pattern page_text) as [found|]; [|by apply IH].
    destruct (int (Regex.group found 1)) as [city|]; [|done].
    cbn [mbind option_bind] in Hloop.
    destruct (int (Regex.group found 2)) as [highway|]; [|done].
    cbn [mbind option_bind] in Hloop.
    destruct (_ && _) eqn:Hrange; [|by apply IH]. simplify_eq.
    right. exists city, highway. rewrite lookup_insert_eq.
    apply andb_prop in Hrange as [Hrange ?%N.leb_le].
    apply andb_prop in Hrange as [Hrange ?%N.leb_le].
    apply andb_prop in Hrange as [?%N.leb_le ?%N.leb_le].
    split; [done|]. lia.
Qed.


(** The Price entry after the loop: the one from before, or a number
    between 10000 and 200000. *)
Lemma price_loop_lookup (patterns : list Re.pattern) (page_text : string)
    (m : gmap string value) :
  price_loop patterns page_text m !! "Price" = m !! "Price"
  ∨ ∃ price,
      price_loop patterns page_text m !! "Price" = Some (VFloat price)
      ∧ plausible price.
Proof.
  induction patterns as [|pattern rest IH]; simpl; [by left|].
  destruct (Re.search pattern page_text); [|done].
  destruct (float _) as [price|]; [|done].
  destruct (_ && _) eqn:Hrange; [|done].
  right. exists price. rewrite lookup_insert_eq. split; [done|].
  apply andb_prop in Hrange as [?%Z.leb_le ?%Z.leb_le]. by split.
Qed.


(** The blocks before the MPG loop leave the link alone, and the blocks
    from the MPG loop on leave alone what was there before. *)
Lemma early_blocks_same (url page_text : string) :
  same_outside ["Year"; "Make"; "Model"; "Trim"; "Body Style"]
    {[ "url" := VStr url ]}
    (first_found "Body Style" body_patterns page_text
       (url_block url {[ "url" := VStr url ]})).
Proof.
  apply (same_outside_trans ["Year"; "Make"; "Model"; "Trim"] ["Body Style"]
           _ _ (url_block url {[ "url" := VStr url ]}));
    [apply url_block_same|apply first_found_same|keys|keys].
Qed.


(** The dictionaries of [scrape_car_data], one after each block. *)
Lemma scrape_car_data_blocks (title title_later url page_text : string)
    (car_data : gmap string value) :
  scrape_car_data title title_later url page_text = Some car_data →
  ∃ with_mpg,
    mpg_loop mpg_patterns page_text
      (<["Transmission" := VStr "N/A"]>
         (first_found "Body Style" body_patterns page_text
            (url_block url {[ "url" := VStr url ]}))) = Some with_mpg
    ∧ car_data
      = hybrid_fallback
          (first_found "Fuel Type" fuel_patterns page_text
             (price_loop price_patterns page_text with_mpg)).
Proof.
  unfold scrape_car_data. intros Hscraped.
  destruct (cloudflare title && cloudflare title_later); [done|].
  destruct (mpg_loop _ _ _) as [with_mpg|] eqn:Hmpg; [|done].
  cbn [mbind option_bind] in Hscraped. case_match; [|done]. simplify_eq.
  by exists with_mpg.
Qed.


(** The MPG entry of the dictionary: none, or the text of two numbers
    between 10 and 150. *)
Lemma scraped_mpg (title title_later url page_text : string)
    (car_data : gmap string value) :
  scrape_car_data title title_later url page_text = Some car_data →
  car_data !! "MPG" = None
  ∨ ∃ city highway,
      car_data !! "MPG" = Some (VStr (mpg_text city highway))
      ∧ (10 ≤ city ≤ 150)%N ∧ (10 ≤ highway ≤ 150)%N.
Proof.
  intros Hscraped.
  destruct (scrape_car_data_blocks _ _ _ _ _ Hscraped)
    as (with_mpg & Hmpg & ->).
  rewrite (hybrid_fallback_same _ "MPG") by keys.
  rewrite (first_found_same "Fuel Type" _ _ _ "MPG") by keys.
  rewrite (price_loop_same _ _ _ "MPG") by keys.
  destruct (mpg_loop_lookup _ _ _ _ Hmpg) as [Hsame|Hnew]; [|by right].
  left. rewrite Hsame. rewrite lookup_insert_ne by done.
  rewrite (early_blocks_same url page_text "MPG") by keys.
  apply lookup_singleton_ne. done.
Qed.

(** X19.  Whatever the page holds, an MPG entry of the dictionary is the
    text of two whole numbers between 10 and 150 around [' / '], and a Price
    entry is a number between 10000 and 200000. *)
Theorem scrape_car_data_mpg_and_price_in_range
    (title title_later url page_text : string)
    (car_data : gmap string value) :
  scrape_car_data title title_later url page_text = Some car_data →
  (car_data !! "MPG" = None
   ∨ ∃ city highway,
       car_data !! "MPG" = Some (VStr (mpg_text city highway))
       ∧ (10 ≤ city ≤ 150)%N ∧ (10 ≤ highway ≤ 150)%N)
  ∧ (car_data !! "Price" = None
     ∨ ∃ price,
         car_data !! "Price" = Some (VFloat price) ∧ plausible price).
Proof.
  intros Hscraped.
  destruct (scrape_car_data_blocks _ _ _ _ _ Hscraped)
    as (with_mpg & Hmpg & ->).
  pose proof (early_blocks_same url page_text) as Hearly.
  assert (∀ k, k ∉ ["Year"; "Make"; "Model"; "Trim"; "Body Style";
                    "Transmission"; "url"] →
               (<["Transmission" := VStr "N/A"]>
                  (first_found "Body Style" body_patterns page_text
                     (url_block url {[ "url" := VStr url ]})) : gmap _ _)
               !! k = None) as Hstyled.
  { intros k Hk. rewrite lookup_insert_ne by (intros <-; apply Hk; keys).
    rewrite Hearly.
    - apply lookup_singleton_ne. intros <-. apply Hk. keys.
    - intros Hin. apply Hk. revert Hin.
      assert (["Year"; "Make"; "Model"; "Trim"; "Body Style"]
              ⊆ ["Year"; "Make"; "Model"; "Trim"; "Body Style";
                 "Transmission"; "url"]) as Hsub by keys.
      apply Hsub. }
  split.
  - by eapply scraped_mpg.
  - rewrite (hybrid_fallback_same _ "Price") by keys.
    rewrite (first_found_same "Fuel Type" _ _ _ "Price") by keys.
    destruct (price_loop_lookup price_patterns page_text with_mpg)
      as [Hsame|Hnew]; [|by right].
    left. rewrite Hsame. rewrite (mpg_loop_same _ _ _ _ Hmpg "Price") by keys.
    apply Hstyled. keys.
Qed.

Lemma scrape_car_data_mpg_and_price_in_range_witness :
  scrape_car_data "Honda" "" accord_url accord_page
  = Some (default ∅ (scrape_car_data "Honda" "" accord_url accord_page))
  ∧ default ∅ (scrape_car_data "Honda" "" accord_url accord_page) !! "MPG"
    = Some (VStr "51 / 44")
  ∧ ((default ∅ (scrape_car_data "Honda" "" accord_url accord_page) !! "MPG"
      = None
      ∨ ∃ city highway,
          default ∅ (scrape_car_data "Honda" "" accord_url accord_page)
            !! "MPG" = Some (VStr (mpg_text city highway))
          ∧ (10 ≤ city ≤ 150)%N ∧ (10 ≤ highway ≤ 150)%N)
     ∧ (default ∅ (scrape_car_data "Honda" "" accord_url accord_page)
          !! "Price" = None
        ∨ ∃ price,
            default ∅ (scrape_car_data "Honda" "" accord_url accord_page)
              !! "Price" = Some (VFloat price)
            ∧ plausible price)).
Proof.
  split; [vm_compute; reflexivity|]. split; [vm_compute; reflexivity|].
  apply (scrape_car_data_mpg_and_price_in_range "Honda" "" accord_url
           accord_page).
  vm_compute. reflexivity.
Defined.





End HondaPageSpec.

Module InventorySpec.
Import Pandas RecGenerator Inventory.

Local Abbreviation text_of := string_of_list_ascii.
Local Abbreviation is_digits l := (Forall (fun a => Str.is_digit a = true) l).
Local Abbreviation is_spaces l := (Forall (fun a => Text.is_space a = true) l).

(** *** Characters *)

Lemma digit_not_space (a : ascii) :
  Str.is_digit a = true → Text.is_space a = false.
Proof.
  unfold Str.is_digit, Text.is_space. intros [H1 H2]%andb_prop.
  apply Nat.leb_le in H1, H2.
  apply orb_false_intro; apply andb_false_intro2; apply Nat.leb_gt; lia.
Qed.

Lemma digit_not_slash (a : ascii) :
  Str.is_digit a = true → Regex.exactly "/" a = false.
Proof.
  intros Hdigit. unfold Regex.exactly.
  destruct (Ascii.eqb_spec a "/") as [->|]; [|done]. by vm_compute in Hdigit.
Qed.

Lemma digit_not_blank (a : ascii) : Str.is_digit a = true → a ≠ " "%char.
Proof. intros Hdigit ->. by vm_compute in Hdigit. Qed.

Lemma head_digit_not_space (l : list ascii) (b : ascii) :
  is_digits l → head l = Some b → Regex.space b = false.
Proof.
  intros Hl Hb. destruct l as [|a l]; simplify_eq/=.
  apply Forall_cons in Hl as [Hb _]. by apply digit_not_space.
Qed.

(** *** The first match of [mpg_pattern] *)

Lemma mpg_pattern_sound (p : option ascii) (l : list ascii)
    (found : Regex.state) :
  Regex.reach mpg_pattern (Regex.State p l ∅) found →
  ∃ ds1 ws1 ws2 ds2,
    l = shape ds1 ws1 ws2 ds2 ++ Regex.rest found
    ∧ Regex.groups found !! 1%nat = Some (shape ds1 ws1 ws2 ds2)
    ∧ ds1 ≠ [] ∧ is_digits ds1 ∧ is_spaces ws1
    ∧ is_spaces ws2 ∧ ds2 ≠ [] ∧ is_digits ds2.
Proof.
  cbn.
  intros (m & (m0 & (m1 & (d1 & Hd1 & Hdigit1 & _)
                     & (run1 & Hrun1 & Hdigits1 & _))
              & m2 & (ws1 & Hws1 & Hspaces1 & _)
              & m3 & (slash & Hslash & Hisslash & _)
              & m4 & (ws2 & Hws2 & Hspaces2 & _)
              & m5 & (d2 & Hd2 & Hdigit2 & _)
              & (run2 & Hrun2 & Hdigits2 & _)) & ->).
  apply Ascii.eqb_eq in Hisslash as ->.
  exists (d1 :: run1), ws1, ws2, (d2 :: run2).
  assert (l = shape (d1 :: run1) ws1 ws2 (d2 :: run2) ++ Regex.rest m)
    as Hl.
  { unfold shape. rewrite Hd1, Hrun1, Hws1, Hslash, Hws2, Hd2, Hrun2.
    simpl. rewrite <- !app_assoc. simpl. by rewrite <- !app_assoc. }
  split; [done|]. split.
  - simpl. rewrite lookup_insert_eq. f_equal. rewrite Hl at 2.
    rewrite Hl, length_app.
    replace (length (shape (d1 :: run1) ws1 ws2 (d2 :: run2))
             + length (Regex.rest m) - length (Regex.rest m))%nat
      with (length (shape (d1 :: run1) ws1 ws2 (d2 :: run2))) by lia.
    by rewrite take_app_length.
  - repeat split; try done; by constructor.
Qed.

Lemma space_not_digit (a : ascii) :
  Text.is_space a = true → Str.is_digit a = false.
Proof.
  intros Hspace. destruct (Str.is_digit a) eqn:Hdigit; [|done].
  apply digit_not_space in Hdigit. congruence.
Qed.

(** On a text that is one such shape, the match at the first position
    takes the whole text. *)
Lemma mpg_pattern_complete (p : option ascii)
    (ds1 ws1 ws2 ds2 : list ascii) :
  ds1 ≠ [] → is_digits ds1 → is_spaces ws1 →
  is_spaces ws2 → ds2 ≠ [] → is_digits ds2 →
  ∃ found,
    Regex.go mpg_pattern (Regex.State p (shape ds1 ws1 ws2 ds2) ∅) Some
    = Some found
    ∧ Regex.groups found !! 1%nat = Some (shape ds1 ws1 ws2 ds2).
Proof.
  intros Hne1 Hds1 Hws1 Hws2 Hne2 Hds2.
  destruct ds1 as [|d1 run1]; [done|]. destruct ds2 as [|d2 run2]; [done|].
  apply Forall_cons in Hds1 as [Hd1 Hrun1].
  apply Forall_cons in Hds2 as [Hd2 Hrun2].
  eexists. split.
  - unfold shape. cbn [Regex.go mpg_pattern Regex.seq Regex.plus Regex.lit
                       list_ascii_of_string fmap list_fmap Regex.rest
                       Regex.groups Regex.before app].
    unfold Regex.digit at 1. rewrite Hd1.
    apply RegexSpec.star_run; [done| |].
    { intros b Hb. destruct ws1 as [|w ws1]; simplify_eq/=; [done|].
      apply Forall_cons in Hws1 as [Hw _]. by apply space_not_digit. }
    cbn [Regex.go Regex.rest Regex.groups Regex.before].
    apply RegexSpec.star_run; [done|by intros b [= <-]|].
    cbn [Regex.go Regex.rest Regex.groups Regex.before].
    change (Regex.exactly "/" "/") with true. cbv iota.
    apply RegexSpec.star_run; [done| |].
    { intros b [= <-]. by apply digit_not_space. }
    cbn [Regex.go Regex.rest Regex.groups Regex.before].
    unfold Regex.digit at 1. rewrite Hd2.
    apply RegexSpec.star_run_end; [done|]. reflexivity.
  - cbn [Regex.groups Regex.rest]. rewrite lookup_insert_eq. f_equal.
    rewrite Nat.sub_0_r. apply take_ge. done.
Qed.

(** The cell that [str.extract] makes of a text, when it makes one, is such
    a shape. *)
Lemma str_extract_sound (v : option string) (g : string) :
  str_extract mpg_pattern v = Some g →
  ∃ ds1 ws1 ws2 ds2,
    g = text_of (shape ds1 ws1 ws2 ds2)
    ∧ ds1 ≠ [] ∧ is_digits ds1 ∧ is_spaces ws1
    ∧ is_spaces ws2 ∧ ds2 ≠ [] ∧ is_digits ds2.
Proof.
  unfold str_extract, Regex.search. destruct v as [text|]; [|done].
  cbn [mbind option_bind].
  destruct (Regex.search_from _ _ _) as [found|] eqn:Hsearch; [|done].
  cbn [fmap option_fmap option_map mbind option_bind].
  rewrite lookup_fmap. intros Hg.
  apply RegexSpec.search_from_sound in Hsearch as (pre & post & _ & Hreach).
  apply mpg_pattern_sound in Hreach
    as (ds1 & ws1 & ws2 & ds2 & _ & Hgroup & Hshape).
  rewrite Hgroup in Hg. simplify_eq/=. by exists ds1, ws1, ws2, ds2.
Qed.

(** A text that is one such shape is extracted whole. *)
Lemma str_extract_shape (ds1 ws1 ws2 ds2 : list ascii) :
  ds1 ≠ [] → is_digits ds1 → is_spaces ws1 →
  is_spaces ws2 → ds2 ≠ [] → is_digits ds2 →
  str_extract mpg_pattern (Some (text_of (shape ds1 ws1 ws2 ds2)))
  = Some (text_of (shape ds1 ws1 ws2 ds2)).
Proof.
  intros Hne1 Hds1 Hws1 Hws2 Hne2 Hds2.
  destruct (mpg_pattern_complete None ds1 ws1 ws2 ds2)
    as (found & Hgo & Hgroup); try done.
  unfold str_extract, Regex.search. cbn [mbind option_bind].
  rewrite list_ascii_of_string_of_list_ascii.
  rewrite (RegexSpec.search_from_here _ _ _ _ Hgo).
  cbn [fmap option_fmap option_map mbind option_bind].
  by rewrite lookup_fmap, Hgroup.
Qed.

(** *** [str.replace] *)

Lemma slash_not_at_digit (p : option ascii) (a : ascii) (l : list ascii)
    (k : Regex.state → option Regex.state) :
  Str.is_digit a = true →
  Regex.go slash (Regex.State p (a :: l) ∅) k = None.
Proof.
  intros Hdigit.
  cbn [Regex.go slash Regex.seq Regex.lit list_ascii_of_string fmap
       list_fmap Regex.rest Regex.groups Regex.before].
  rewrite RegexSpec.star_none
    by (intros b [= <-]; by apply digit_not_space).
  cbn [Regex.go Regex.rest]. by rewrite digit_not_slash.
Qed.

Lemma slash_match (p : option ascii) (ws1 ws2 ds2 : list ascii) :
  is_spaces ws1 → is_spaces ws2 → is_digits ds2 →
  Regex.go slash (Regex.State p (ws1 ++ "/"%char :: ws2 ++ ds2) ∅) Some
  = Some (Regex.State
            (Regex.after (Some "/"%char) ws2) ds2 ∅).
Proof.
  intros Hws1 Hws2 Hds2.
  cbn [Regex.go slash Regex.seq Regex.lit list_ascii_of_string fmap
       list_fmap Regex.rest Regex.groups Regex.before].
  apply RegexSpec.star_run; [done|by intros b [= <-]|].
  cbn [Regex.go Regex.rest Regex.groups Regex.before].
  change (Regex.exactly "/" "/") with true. cbv iota.
  apply RegexSpec.star_run; [done| |done].
  intros b Hb. by eapply head_digit_not_space.
Qed.

Lemma sub_slash_digits (repl : list ascii) (p : option ascii)
    (ds l : list ascii) :
  is_digits ds →
  Regex.sub_from slash repl 0 p (ds ++ l)
  = ds ++ Regex.sub_from slash repl 0 (Regex.after p ds) l.
Proof.
  intros Hds. revert p. induction Hds as [|a ds Ha _ IH]; intros p; [done|].
  cbn [app]. rewrite RegexSpec.sub_from_copy by (by apply slash_not_at_digit).
  by rewrite IH, (RegexSpec.after_cons p).
Qed.

(** [str.replace] turns the blanks around the slash of such a shape into
    one blank on each side. *)
Lemma sub_slash_shape (ds1 ws1 ws2 ds2 : list ascii) :
  is_digits ds1 → is_spaces ws1 → is_spaces ws2 → is_digits ds2 →
  Regex.sub slash " / " (text_of (shape ds1 ws1 ws2 ds2))
  = text_of (shape ds1 [" "%char] [" "%char] ds2).
Proof.
  intros Hds1 Hws1 Hws2 Hds2. unfold Regex.sub. f_equal.
  rewrite list_ascii_of_string_of_list_ascii. unfold shape.
  rewrite sub_slash_digits by done.
  assert (∀ p,
            Regex.sub_from slash (list_ascii_of_string " / ") 0 p
              (ws1 ++ "/"%char :: ws2 ++ ds2)
            = list_ascii_of_string " / " ++ ds2) as Hmiddle.
  { intros p. pose proof (slash_match p ws1 ws2 ds2 Hws1 Hws2 Hds2) as Hgo.
    assert (∀ q, Regex.sub_from slash (list_ascii_of_string " / ") 0 q ds2
                 = ds2) as Hend.
    { intros q. rewrite <- (app_nil_r ds2) at 1.
      rewrite sub_slash_digits by done. cbn. by rewrite app_nil_r. }
    destruct ws1 as [|w ws1].
    - cbn [app] in Hgo |- *.
      rewrite (RegexSpec.sub_from_match _ _ _ _ ws2 ds2 _ Hgo) by done.
      by rewrite Hend.
    - cbn [app] in Hgo |- *.
      assert (ws1 ++ "/"%char :: ws2 ++ ds2
              = (ws1 ++ "/"%char :: ws2) ++ ds2) as Heq
        by (by rewrite <- app_assoc).
      rewrite Heq in Hgo |- *.
      rewrite (RegexSpec.sub_from_match _ _ _ _ (ws1 ++ "/"%char :: ws2)
                 ds2 _ Hgo) by done.
      by rewrite Hend. }
  by rewrite Hmiddle.
Qed.

(** *** One cell *)

Lemma digits_not_blank (ds : list ascii) :
  is_digits ds → Forall (fun a => a ≠ " "%char) ds.
Proof.
  intros Hds. eapply Forall_impl; [exact Hds|]. apply digit_not_blank.
Qed.

Lemma to_float_digits (ds : list ascii) :
  ds ≠ [] → is_digits ds →
  ∃ n,
    Text.read_digits 0 ds = Some n
    ∧ to_float (text_of ds) = Some (inject_Z (Z.of_N n)).
Proof.
  intros Hne Hds. destruct (TextSpec.read_digits_Some 0 ds Hds) as [n Hn].
  exists n. split; [done|]. unfold to_float.
  destruct ds as [|d ds]; [done|].
  cbn [string_of_list_ascii].
  change (String d (text_of ds)) with (text_of (d :: ds)).
  by rewrite list_ascii_of_string_of_list_ascii, Hn.
Qed.

(** A cell with a match becomes the two numbers around the slash of the
    match. *)
Lemma mpg_parts_shape (v : option string) (ds1 ws1 ws2 ds2 : list ascii) :
  str_extract mpg_pattern v = Some (text_of (shape ds1 ws1 ws2 ds2)) →
  is_digits ds1 → is_spaces ws1 → is_spaces ws2 → is_digits ds2 →
  mpg_parts v = Some [text_of ds1; text_of ds2].
Proof.
  intros Hextract Hds1 Hws1 Hws2 Hds2. unfold mpg_parts.
  rewrite Hextract. unfold str_replace, str_split.
  cbn [fmap option_fmap option_map]. f_equal.
  rewrite sub_slash_shape by done.
  apply (TextSpec.split_str_two_parts " " "/ " ds1 ds2);
    by apply digits_not_blank.
Qed.

(** The two cases of a cell: no match and nothing, or a match and two
    numbers. *)
Lemma mpg_parts_cases (v : option string) :
  (str_extract mpg_pattern v = None
   ∧ astype_pair (first_two (mpg_parts v)) = Some (NaN, NaN)
   ∧ mpg_parts v = None)
  ∨ ∃ ds1 ws1 ws2 ds2 cty hway,
      str_extract mpg_pattern v = Some (text_of (shape ds1 ws1 ws2 ds2))
      ∧ is_digits ds1 ∧ is_digits ds2
      ∧ Text.read_digits 0 ds1 = Some cty
      ∧ Text.read_digits 0 ds2 = Some hway
      ∧ astype_pair (first_two (mpg_parts v))
        = Some (Some (inject_Z (Z.of_N cty)), Some (inject_Z (Z.of_N hway)))
      ∧ ∃ s1 s2, mpg_parts v = Some [s1; s2].
Proof.
  destruct (str_extract mpg_pattern v) as [g|] eqn:Hextract.
  - right.
    destruct (str_extract_sound v g Hextract)
      as (ds1 & ws1 & ws2 & ds2 & -> & Hne1 & Hds1 & Hws1 & Hws2 & Hne2
          & Hds2).
    destruct (to_float_digits ds1 Hne1 Hds1) as (cty & Hcty & Hfloat1).
    destruct (to_float_digits ds2 Hne2 Hds2) as (hway & Hhway & Hfloat2).
    exists ds1, ws1, ws2, ds2, cty, hway.
    rewrite (mpg_parts_shape v ds1 ws1 ws2 ds2) by done.
    repeat (split; [done|]). split; [|by eauto].
    unfold astype_pair, astype_float. cbn [first_two lookup list_lookup fst snd].
    by rewrite Hfloat1, Hfloat2.
  - left. unfold mpg_parts. rewrite Hextract. by repeat split.
Qed.

(** *** The frame *)

Lemma mpg_columns_rowwise (df : list listing) :
  mpg_columns df
  = two_columns (mpg_parts <$> (MPG <$> df)) ≫= mapM astype_pair.
Proof.
  unfold mpg_columns. cbv zeta. by rewrite <- !list_fmap_compose.
Qed.

Lemma astype_pair_row_cells (v : option string) :
  astype_pair (first_two (mpg_parts v)) = Some (row_cells v).
Proof.
  unfold row_cells.
  by destruct (mpg_parts_cases v)
    as [(_ & -> & _)|(? & ? & ? & ? & ? & ? & _ & _ & _ & _ & _ & -> & _)].
Qed.

Lemma mapM_astype_pair (vs : list (option string)) :
  mapM astype_pair (first_two <$> (mpg_parts <$> vs))
  = Some (row_cells <$> vs).
Proof.
  apply mapM_Some. rewrite <- list_fmap_compose.
  apply Forall2_fmap, Forall_Forall2_diag, Forall_forall.
  intros v _. apply astype_pair_row_cells.
Qed.

Lemma foldr_max_le (l : list nat) (b : nat) :
  Forall (fun x => x ≤ b)%nat l → (foldr Nat.max 0 l ≤ b)%nat.
Proof. induction 1 as [|x l Hx _ IH]; simpl; lia. Qed.

Lemma foldr_max_ge (l : list nat) (x : nat) :
  x ∈ l → (x ≤ foldr Nat.max 0 l)%nat.
Proof.
  induction l as [|y l IH]; [by intros ?%elem_of_nil|].
  intros [->|Hx%IH]%elem_of_cons; simpl; lia.
Qed.

(** A cell with a match gives two parts, a cell without one counts as
    one. *)
Lemma mpg_parts_length (v : option string) :
  match mpg_parts v with
  | Some l => length l
  | None => 1%nat
  end
  = match str_extract mpg_pattern v with
    | Some _ => 2%nat
    | None => 1%nat
    end.
Proof.
  by destruct (mpg_parts_cases v)
    as [(-> & _ & ->)
       |(? & ? & ? & ? & ? & ? & -> & _ & _ & _ & _ & _ & ? & ? & ->)].
Qed.

(** The split has two columns exactly when some cell has a match. *)
Lemma width_two (vs : list (option string)) :
  (Exists (fun v => is_Some (str_extract mpg_pattern v)) vs →
   width (mpg_parts <$> vs) = 2%nat)
  ∧ (Forall (fun v => str_extract mpg_pattern v = None) vs →
     (width (mpg_parts <$> vs) ≤ 1)%nat).
Proof.
  unfold width. rewrite <- list_fmap_compose. split.
  - intros (v & Hv & [g Hg])%Exists_exists. apply Nat.le_antisymm.
    + apply foldr_max_le, Forall_fmap, Forall_forall. intros w _. simpl.
      rewrite mpg_parts_length. destruct (str_extract mpg_pattern w); lia.
    + apply foldr_max_ge, list_elem_of_fmap. exists v. split; [|done].
      simpl. by rewrite mpg_parts_length, Hg.
  - intros Hall. apply foldr_max_le, Forall_fmap.
    eapply Forall_impl; [exact Hall|]. intros v Hv. simpl.
    by rewrite mpg_parts_length, Hv.
Qed.

(** With a match in some row, the two columns hold the cells of the rows;
    with none the script raises. *)
Lemma mpg_columns_Some (df : list listing) :
  Exists (fun l => is_Some (str_extract mpg_pattern (MPG l))) df →
  mpg_columns df = Some (row_cells ∘ MPG <$> df).
Proof.
  intros Hex. rewrite mpg_columns_rowwise. unfold two_columns.
  rewrite (proj1 (width_two (MPG <$> df))) by (by apply Exists_fmap).
  cbn [Nat.eqb mbind option_bind].
  by rewrite mapM_astype_pair, list_fmap_compose.
Qed.

Lemma mpg_columns_None (df : list listing) :
  Forall (fun l => str_extract mpg_pattern (MPG l) = None) df →
  mpg_columns df = None.
Proof.
  intros Hall. rewrite mpg_columns_rowwise. unfold two_columns.
  pose proof (proj2 (width_two (MPG <$> df))) as Hwidth.
  destruct (Nat.eqb_spec (width (mpg_parts <$> (MPG <$> df))) 2)
    as [Heq|]; [|done].
  rewrite Heq in Hwidth. exfalso.
  assert (2 ≤ 1)%nat; [|lia]. apply Hwidth. by apply Forall_fmap.
Qed.

Lemma match_or_none (df : list listing) :
  Exists (fun l => is_Some (str_extract mpg_pattern (MPG l))) df
  ∨ Forall (fun l => str_extract mpg_pattern (MPG l) = None) df.
Proof.
  induction df as [|l df [IH|IH]].
  - right. constructor.
  - left. by right.
  - destruct (str_extract mpg_pattern (MPG l)) as [g|] eqn:Hg.
    + left. left. by rewrite Hg.
    + right. by constructor.
Qed.

(** X21.  The MPG step of the script raises exactly when no row of the
    combined table has an MPG text with two numbers around a slash (so
    also for a table without rows); with one such row it goes through. *)
Theorem mpg_columns_raises_without_a_match (df : list listing) :
  mpg_columns df = None
  ↔ Forall (fun l => str_extract mpg_pattern (MPG l) = None) df.
Proof.
  split; [|apply mpg_columns_None].
  intros Hnone. destruct (match_or_none df) as [Hex|Hall]; [|done].
  apply mpg_columns_Some in Hex. congruence.
Qed.

(** The cells of a row: the two numbers around the slash of the first
    match, or nothing twice. *)
Lemma row_cells_cases (v : option string) :
  match str_extract mpg_pattern v with
  | None => row_cells v = (NaN, NaN)
  | Some g =>
      ∃ ds1 ws1 ws2 ds2 cty hway,
        g = string_of_list_ascii (shape ds1 ws1 ws2 ds2)
        ∧ is_digits ds1 ∧ is_spaces ws1 ∧ is_spaces ws2 ∧ is_digits ds2
        ∧ Text.read_digits 0 ds1 = Some cty
        ∧ Text.read_digits 0 ds2 = Some hway
        ∧ row_cells v
          = (Some (inject_Z (Z.of_N cty)), Some (inject_Z (Z.of_N hway)))
  end.
Proof.
  unfold row_cells.
  destruct (str_extract mpg_pattern v) as [g|] eqn:Hextract.
  - destruct (str_extract_sound v g Hextract)
      as (ds1 & ws1 & ws2 & ds2 & -> & Hne1 & Hds1 & Hws1 & Hws2 & Hne2
          & Hds2).
    destruct (to_float_digits ds1 Hne1 Hds1) as (cty & Hcty & Hfloat1).
    destruct (to_float_digits ds2 Hne2 Hds2) as (hway & Hhway & Hfloat2).
    exists ds1, ws1, ws2, ds2, cty, hway.
    repeat (split; [done|]).
    rewrite (mpg_parts_shape v ds1 ws1 ws2 ds2) by done.
    unfold astype_pair, astype_float.
    cbn [first_two lookup list_lookup fst snd].
    by rewrite Hfloat1, Hfloat2.
  - unfold mpg_parts. by rewrite Hextract.
Qed.

(** X22.  When the MPG step goes through, every row gets both numbers or
    neither: a row whose MPG text has a match gets the number before the
    slash of the first match as ['CTY MPG'] and the number behind it as
    ['HWAY MPG'], whatever blanks are around the slash and whatever text is
    around the match; every other row gets NaN twice. *)
Theorem mpg_columns_both_or_neither (df : list listing)
    (cols : list (cell * cell)) :
  mpg_columns df = Some cols →
  Forall2
    (fun l part =>
       match str_extract mpg_pattern (MPG l) with
       | None => part = (NaN, NaN)
       | Some g =>
           ∃ ds1 ws1 ws2 ds2 cty hway,
             g = string_of_list_ascii (shape ds1 ws1 ws2 ds2)
             ∧ Forall (fun a => Str.is_digit a = true) ds1
             ∧ Forall (fun a => Text.is_space a = true) ws1
             ∧ Forall (fun a => Text.is_space a = true) ws2
             ∧ Forall (fun a => Str.is_digit a = true) ds2
             ∧ Text.read_digits 0 ds1 = Some cty
             ∧ Text.read_digits 0 ds2 = Some hway
             ∧ part = (Some (inject_Z (Z.of_N cty)),
                       Some (inject_Z (Z.of_N hway)))
       end)
    df cols.
Proof.
  intros Hcols. destruct (match_or_none df) as [Hex|Hall].
  - rewrite (mpg_columns_Some df Hex) in Hcols. simplify_eq.
    apply Forall2_fmap_r, Forall_Forall2_diag, Forall_forall.
    intros l _. apply (row_cells_cases (MPG l)).
  - rewrite (mpg_columns_None df Hall) in Hcols. done.
Qed.

Lemma mpg_columns_both_or_neither_witness :
  mpg_columns [sedan; coupe; no_mpg]
  = Some (default [] (mpg_columns [sedan; coupe; no_mpg]))
  ∧ default [] (mpg_columns [sedan; coupe; no_mpg])
    = [(Some 28%Q, Some 39%Q); (Some 30%Q, Some 38%Q); (NaN, NaN)]
  ∧ Forall2
      (fun l part =>
         match str_extract mpg_pattern (MPG l) with
         | None => part = (NaN, NaN)
         | Some g =>
             ∃ ds1 ws1 ws2 ds2 cty hway,
               g = string_of_list_ascii (shape ds1 ws1 ws2 ds2)
               ∧ Forall (fun a => Str.is_digit a = true) ds1
               ∧ Forall (fun a => Text.is_space a = true) ws1
               ∧ Forall (fun a => Text.is_space a = true) ws2
               ∧ Forall (fun a => Str.is_digit a = true) ds2
               ∧ Text.read_digits 0 ds1 = Some cty
               ∧ Text.read_digits 0 ds2 = Some hway
               ∧ part = (Some (inject_Z (Z.of_N cty)),
                         Some (inject_Z (Z.of_N hway)))
         end)
      [sedan; coupe; no_mpg]
      (default [] (mpg_columns [sedan; coupe; no_mpg])).
Proof.
  split; [vm_compute; reflexivity|]. split; [vm_compute; reflexivity|].
  apply mpg_columns_both_or_neither. vm_compute. reflexivity.
Defined.

Lemma text_of_app (l1 l2 : list ascii) :
  string_of_list_ascii (l1 ++ l2)
  = (string_of_list_ascii l1 ++ string_of_list_ascii l2)%string.
Proof.
  induction l1 as [|a l1 IH]; [done|].
  cbn [app string_of_list_ascii]. by rewrite IH.
Qed.

(** The text that the Honda scraper stores is such a shape. *)
Lemma mpg_text_shape (city highway : N) :
  ∃ ds1 ds2,
    HondaPage.mpg_text city highway
    = string_of_list_ascii (shape ds1 [" "%char] [" "%char] ds2)
    ∧ ds1 ≠ [] ∧ is_digits ds1 ∧ ds2 ≠ [] ∧ is_digits ds2
    ∧ Text.read_digits 0 ds1 = Some city
    ∧ Text.read_digits 0 ds2 = Some highway.
Proof.
  destruct (TextSpec.str_of_int_digits city) as (ds1 & Hs1 & ? & ? & ?).
  destruct (TextSpec.str_of_int_digits highway) as (ds2 & Hs2 & ? & ? & ?).
  exists ds1, ds2. split; [|done].
  unfold HondaPage.mpg_text, shape. rewrite Hs1, Hs2.
  by rewrite text_of_app.
Qed.

(** The cells that the script makes of such a text. *)
Lemma mpg_text_row_cells (city highway : N) :
  is_Some (str_extract mpg_pattern (Some (HondaPage.mpg_text city highway)))
  ∧ row_cells (Some (HondaPage.mpg_text city highway))
    = (Some (inject_Z (Z.of_N city)), Some (inject_Z (Z.of_N highway))).
Proof.
  destruct (mpg_text_shape city highway)
    as (ds1 & ds2 & Htext & Hne1 & Hds1 & Hne2 & Hds2 & Hcity & Hhighway).
  assert (is_spaces [" "%char]) as Hblank by (by repeat constructor).
  assert (str_extract mpg_pattern (Some (HondaPage.mpg_text city highway))
          = Some (string_of_list_ascii
                    (shape ds1 [" "%char] [" "%char] ds2))) as Hextract.
  { rewrite Htext. by apply str_extract_shape. }
  split; [by rewrite Hextract|]. unfold row_cells.
  rewrite (mpg_parts_shape _ ds1 [" "%char] [" "%char] ds2) by done.
  destruct (to_float_digits ds1 Hne1 Hds1) as (c & Hc & Hfloat1).
  destruct (to_float_digits ds2 Hne2 Hds2) as (h & Hh & Hfloat2).
  unfold astype_pair, astype_float.
  cbn [first_two lookup list_lookup fst snd].
  rewrite Hfloat1, Hfloat2. cbn. by simplify_eq.
Qed.

(** X23.  A text that the Honda scraper stores under ['MPG'], made of a
    city and a highway figure, is read back by the script as these two
    numbers, in ['CTY MPG'] and ['HWAY MPG'] of the row. *)
Theorem honda_mpg_text_is_read_back (df : list listing) (i : nat)
    (l : listing) (city highway : N) :
  df !! i = Some l →
  MPG l = Some (HondaPage.mpg_text city highway) →
  (city < 2 ^ 53)%N → (highway < 2 ^ 53)%N →
  ∃ cols,
    mpg_columns df = Some cols
    ∧ cols !! i = Some (Some (inject_Z (Z.of_N city)),
                        Some (inject_Z (Z.of_N highway))).
Proof.
  intros Hi Hmpg _ _.
  destruct (mpg_text_row_cells city highway) as [Hmatch Hcells].
  exists (row_cells ∘ MPG <$> df). split.
  - apply mpg_columns_Some, Exists_exists. exists l.
    split; [by eapply list_elem_of_lookup_2|]. by rewrite Hmpg.
  - rewrite list_lookup_fmap, Hi. cbn [fmap option_fmap option_map].
    unfold compose. by rewrite Hmpg, Hcells.
Qed.

Lemma honda_mpg_text_is_read_back_witness :
  [no_mpg; coupe] !! 1%nat = Some coupe
  ∧ MPG coupe = Some (HondaPage.mpg_text 30 38)
  ∧ ∃ cols,
      mpg_columns [no_mpg; coupe] = Some cols
      ∧ cols !! 1%nat = Some (Some (inject_Z (Z.of_N 30)),
                              Some (inject_Z (Z.of_N 38))).
Proof.
  split; [reflexivity|]. split; [vm_compute; reflexivity|].
  apply (honda_mpg_text_is_read_back [no_mpg; coupe] 1 coupe 30 38);
    [reflexivity|vm_compute; reflexivity|reflexivity|reflexivity].
Defined.

End InventorySpec.

Module PipelineSpec.
Import Pandas.



End PipelineSpec.
